(** * ABI codec of accounts/abi: type model, encoder, decoder, argument lists

    A shallow embedding of the Go package [abi] (type.go, unpack.go, pack.go,
    argument.go, error_handling.go, utils.go) and the properties of its
    pack/unpack codec.

    Conventions of the embedding:
    - Go [int] is a [Z] in the range of a 64-bit signed integer; every
      arithmetic operation of the source on an [int] goes through [wrap].
    - [big.Int] is an unbounded [Z].
    - a [[]byte] is a [list byte]; slicing [s[a:b]] is [slice s a b], which
      panics outside the length of the list (capacity is not modelled).
    - a Go function returning [(T, error)] returns a [Result T]; a run-time
      panic of the Go code is the third outcome [Panic].
    - a [reflect.Type] is its kind with its size and its alignment on a
      64-bit platform; [reflect.ArrayOf] and [reflect.StructOf] panic where
      those of the standard library do, and so does [Type.GetType]. *)

From Stdlib Require Import ZArith List Bool Lia String Ascii DecimalString.
From Stdlib Require Import Strings.Byte.
From Stdlib Require DecimalNat DecimalFacts.
Import ListNotations.
Local Open Scope Z_scope.

(** ** Errors and results *)

Inductive error : Set :=
  (* error_handling.go *)
  | errBadBool | errBadUint8 | errBadUint16 | errBadUint32 | errBadUint64
  | errBadInt8 | errBadInt16 | errBadInt32 | errBadInt64
  | errInvalidSign
  | errTypeErr                       (* typeErr: cannot use .. as type .. *)
  (* argument.go *)
  | errArgCountMismatch (got want : Z)
  | errEmptyInput                    (* unmarshal an empty string while arguments are expected *)
  (* type.go, pack *)
  | errFieldNotFound (name : string) (* field %s for tuple not found in the given struct *)
  | errStructMapping                 (* an error of mapArgNamesToStructFields *)
  (* pack.go *)
  | errBytesNotSlice | errPackUnknownType
  (* unpack.go *)
  | errLengthInsufficient            (* length insufficient %d require %d *)
  | errOffsetBoundary                (* offset %v would go over slice boundary *)
  | errOffsetInt64                   (* abi offset larger than int64 *)
  | errLengthInt64                   (* abi: length larger than int64 *)
  | errArrayOffset                   (* toGoType offset greater than output length *)
  | errNegativeSize | errArrayBoundary
  | errInvalidArrayStage | errBadFunction | errInvalidCall | errUnknownType
  (* type.go, NewType *)
  | errInvalidArgType                (* invalid arg type in abi *)
  | errInvalidArrayFormat            (* invalid formatting of array type *)
  | errInvalidType                   (* invalid type '%v' *)
  | errParseSize                     (* error parsing variable size *)
  | errUnsupportedArgType            (* unsupported arg type: %s *)
  | errAnonymousField                (* purely anonymous or underscored field *)
  | errInvalidFieldName (idx : Z).   (* field %d has invalid name *)

Inductive Result (A : Type) : Type :=
  | Ok (a : A)
  | Err (e : error)
  | Panic.
Arguments Ok {A} a.
Arguments Err {A} e.
Arguments Panic {A}.

Definition bind {A B} (r : Result A) (k : A -> Result B) : Result B :=
  match r with
  | Ok a => k a
  | Err e => Err e
  | Panic => Panic
  end.

Notation "x <- r ;; k" := (bind r (fun x => k))
  (at level 61, r at next level, right associativity).
Notation "' p <- r ;; k" := (bind r (fun x => let p := x in k))
  (at level 61, p pattern, r at next level, right associativity).

(** ** Go [int] *)

Definition wrap (z : Z) : Z := (z + 2 ^ 63) mod 2 ^ 64 - 2 ^ 63.
Definition int_add (a b : Z) : Z := wrap (a + b).
Definition int_sub (a b : Z) : Z := wrap (a - b).
Definition int_mul (a b : Z) : Z := wrap (a * b).
(* Go's [/] truncates toward zero *)
Definition int_div (a b : Z) : Z := wrap (Z.quot a b).

Definition in_int (z : Z) : Prop := - 2 ^ 63 <= z < 2 ^ 63.

(** ** Bytes *)

Definition b2z (b : byte) : Z := Z.of_N (Byte.to_N b).
Definition z2b (z : Z) : byte :=
  match Byte.of_N (Z.to_N (z mod 256)) with
  | Some b => b
  | None => x00
  end.

(* len(s) of a Go slice or string *)
Definition len {A} (l : list A) : Z := Z.of_nat (List.length l).

(* s[a:b]; a run-time panic when the bounds are out of range *)
Definition slice {A} (s : list A) (a b : Z) : Result (list A) :=
  if (0 <=? a) && (a <=? b) && (b <=? len s)
  then Ok (firstn (Z.to_nat (b - a)) (skipn (Z.to_nat a) s))
  else Panic.

(* s[a:] *)
Definition slice_from {A} (s : list A) (a : Z) : Result (list A) :=
  slice s a (len s).

(* new(big.Int).SetBytes(b): big-endian unsigned *)
Definition SetBytes (b : list byte) : Z :=
  fold_left (fun acc x => acc * 256 + b2z x) b 0.

(* the n low-order bytes of z, big-endian *)
Fixpoint be_bytes (n : nat) (z : Z) : list byte :=
  match n with
  | O => []
  | S n' => be_bytes n' (z / 256) ++ [z2b z]
  end.

(** Modelled from the spec: [math.U256Bytes] (common/math, not under src/):
    the 32-byte big-endian two's-complement representation, that is the
    number reduced modulo 2^256. *)
Definition U256Bytes (n : Z) : list byte := be_bytes 32 (n mod 2 ^ 256).

(** Modelled from the spec: [math.PaddedBigBytes] (common/math, not under
    src/), for a non-negative number below 2^(8n): big-endian, left-padded
    with zeros to n bytes. *)
Definition PaddedBigBytes (n : Z) (k : nat) : list byte := be_bytes k n.

(** Modelled from the spec: [common.RightPadBytes] (common/bytes.go, not
    under src/): zero-pads on the right up to l bytes; a slice of l bytes or
    more comes back as it is. *)
Definition RightPadBytes (s : list byte) (l : Z) : list byte :=
  if l <=? len s then s else s ++ repeat x00 (Z.to_nat (l - len s)).

(** Modelled from the spec: [common.LeftPadBytes] (common/bytes.go, not
    under src/): zero-pads on the left up to l bytes; a slice of l bytes or
    more comes back as it is. *)
Definition LeftPadBytes (s : list byte) (l : Z) : list byte :=
  if l <=? len s then s else repeat x00 (Z.to_nat (l - len s)) ++ s.

(* binary.BigEndian.Uint64(b): panics when b is shorter than 8 bytes *)
Definition BigEndian_Uint64 (b : list byte) : Result Z :=
  if len b <? 8 then Panic else Ok (SetBytes (firstn 8 b)).

(** ** The type model (type.go) *)

(* Type enumerator *)
Inductive Kind : Set :=
  | IntTy | UintTy | BoolTy | StringTy | SliceTy | ArrayTy | TupleTy
  | AddressTy | FixedBytesTy | BytesTy | HashTy | FixedPointTy | FunctionTy.

Definition Kind_eqb (a b : Kind) : bool :=
  match a, b with
  | IntTy, IntTy | UintTy, UintTy | BoolTy, BoolTy | StringTy, StringTy
  | SliceTy, SliceTy | ArrayTy, ArrayTy | TupleTy, TupleTy
  | AddressTy, AddressTy | FixedBytesTy, FixedBytesTy | BytesTy, BytesTy
  | HashTy, HashTy | FixedPointTy, FixedPointTy | FunctionTy, FunctionTy => true
  | _, _ => false
  end.

(** The struct [Type] of type.go, one constructor per value of its tag [T].
    A constructor carries the fields that [NewType] sets for that tag: [Elem]
    is present exactly for slices and arrays and the tuple fields exactly for
    tuples.  [TupleType], the reflect struct type of a tuple, is kept as the
    list of its Go field names; it has one field per element. *)
#[local] Unset Elimination Schemes.
Inductive Type_ : Set :=
  | TyInt (Size : Z) (stringKind : string)
  | TyUint (Size : Z) (stringKind : string)
  | TyBool (stringKind : string)
  | TyString (stringKind : string)
  | TySlice (Elem : Type_) (stringKind : string)
  | TyArray (Elem : Type_) (Size : Z) (stringKind : string)
  | TyTuple (TupleRawName : string) (TupleElems : list Type_)
            (TupleRawNames : list string) (TupleType : list string)
            (stringKind : string)
  | TyAddress (stringKind : string)
  | TyFixedBytes (Size : Z) (stringKind : string)
  | TyBytes (stringKind : string)
  | TyHash (stringKind : string)
  | TyFixedPoint (stringKind : string)
  | TyFunction (stringKind : string).
#[local] Set Elimination Schemes.

(* the field T *)
Definition T (t : Type_) : Kind :=
  match t with
  | TyInt _ _ => IntTy
  | TyUint _ _ => UintTy
  | TyBool _ => BoolTy
  | TyString _ => StringTy
  | TySlice _ _ => SliceTy
  | TyArray _ _ _ => ArrayTy
  | TyTuple _ _ _ _ _ => TupleTy
  | TyAddress _ => AddressTy
  | TyFixedBytes _ _ => FixedBytesTy
  | TyBytes _ => BytesTy
  | TyHash _ => HashTy
  | TyFixedPoint _ => FixedPointTy
  | TyFunction _ => FunctionTy
  end.

(* the field Size: NewType sets 20 for an address and 24 for a function *)
Definition Size (t : Type_) : Z :=
  match t with
  | TyInt s _ | TyUint s _ | TyArray _ s _ | TyFixedBytes s _ => s
  | TyAddress _ => 20
  | TyFunction _ => 24
  | _ => 0
  end.

(* the field stringKind, returned by Type.String *)
Definition String_ (t : Type_) : string :=
  match t with
  | TyInt _ s | TyUint _ s | TyBool s | TyString s | TySlice _ s
  | TyArray _ _ s | TyTuple _ _ _ _ s | TyAddress s | TyFixedBytes _ s
  | TyBytes s | TyHash s | TyFixedPoint s | TyFunction s => s
  end.

Definition TupleElems (t : Type_) : list Type_ :=
  match t with
  | TyTuple _ elems _ _ _ => elems
  | _ => []
  end.

(** Induction over the type tree, with the tuple fields as subtrees. *)
Section Type_induction.
Variable P : Type_ -> Prop.
Hypothesis HInt : forall s k, P (TyInt s k).
Hypothesis HUint : forall s k, P (TyUint s k).
Hypothesis HBool : forall k, P (TyBool k).
Hypothesis HString : forall k, P (TyString k).
Hypothesis HSlice : forall e k, P e -> P (TySlice e k).
Hypothesis HArray : forall e s k, P e -> P (TyArray e s k).
Hypothesis HTuple : forall rn elems names fields k,
    Forall P elems -> P (TyTuple rn elems names fields k).
Hypothesis HAddress : forall k, P (TyAddress k).
Hypothesis HFixedBytes : forall s k, P (TyFixedBytes s k).
Hypothesis HBytes : forall k, P (TyBytes k).
Hypothesis HHash : forall k, P (TyHash k).
Hypothesis HFixedPoint : forall k, P (TyFixedPoint k).
Hypothesis HFunction : forall k, P (TyFunction k).

Fixpoint Type_tree_ind (t : Type_) : P t :=
  match t with
  | TyInt s k => HInt s k
  | TyUint s k => HUint s k
  | TyBool k => HBool k
  | TyString k => HString k
  | TySlice e k => HSlice e k (Type_tree_ind e)
  | TyArray e s k => HArray e s k (Type_tree_ind e)
  | TyTuple rn elems names fields k =>
      HTuple rn elems names fields k
        ((fix all (l : list Type_) : Forall P l :=
            match l with
            | [] => Forall_nil P
            | x :: r => Forall_cons x (Type_tree_ind x) (all r)
            end) elems)
  | TyAddress k => HAddress k
  | TyFixedBytes s k => HFixedBytes s k
  | TyBytes k => HBytes k
  | TyHash k => HHash k
  | TyFixedPoint k => HFixedPoint k
  | TyFunction k => HFunction k
  end.
End Type_induction.

(* requiresLengthPrefix *)
Definition requiresLengthPrefix (t : Type_) : bool :=
  Kind_eqb (T t) StringTy || Kind_eqb (T t) BytesTy || Kind_eqb (T t) SliceTy.

(* isDynamicType: the loop over TupleElems returns true at the first dynamic
   field, and false when it finds none *)
Fixpoint isDynamicType (t : Type_) : bool :=
  match t with
  | TyTuple _ elems _ _ _ =>
      (fix loop (l : list Type_) : bool :=
         match l with
         | [] => false
         | elem :: rest => if isDynamicType elem then true else loop rest
         end) elems
  | TyString _ | TyBytes _ | TySlice _ _ => true
  | TyArray elem _ _ => isDynamicType elem
  | _ => false
  end.

(* getTypeSize *)
Fixpoint getTypeSize (t : Type_) : Z :=
  match t with
  | TyArray elem size _ =>
      if negb (isDynamicType elem) then
        if Kind_eqb (T elem) ArrayTy || Kind_eqb (T elem) TupleTy
        then int_mul size (getTypeSize elem)
        else int_mul size 32
      else 32
  | TyTuple _ elems _ _ _ =>
      if negb (isDynamicType t) then
        (fix loop (l : list Type_) (total : Z) : Z :=
           match l with
           | [] => total
           | elem :: rest => loop rest (int_add total (getTypeSize elem))
           end) elems 0
      else 32
  | _ => 32
  end.

(** ** Go values, as reflect sees them *)

Inductive Width : Set := W8 | W16 | W32 | W64.

Definition bits (w : Width) : Z :=
  match w with W8 => 8 | W16 => 16 | W32 => 32 | W64 => 64 end.

(* reflect.Kind, for the kinds the codec meets *)
Inductive GoKind : Set :=
  | KBool | KInt (w : Width) | KUint (w : Width) | KPtr | KString
  | KSlice | KArray | KStruct.

Definition Width_eqb (a b : Width) : bool :=
  match a, b with
  | W8, W8 | W16, W16 | W32, W32 | W64, W64 => true
  | _, _ => false
  end.

Definition GoKind_eqb (a b : GoKind) : bool :=
  match a, b with
  | KBool, KBool | KPtr, KPtr | KString, KString | KSlice, KSlice
  | KArray, KArray | KStruct, KStruct => true
  | KInt x, KInt y | KUint x, KUint y => Width_eqb x y
  | _, _ => false
  end.

(** A Go value handed to or returned by the codec.  [VBig] is a [*big.Int]
    (kind Ptr); a slice or array carries the kind of its static element
    type, as [val.Type().Elem().Kind()] reports it; [[]byte] is
    [VSlice (KUint W8)] and [[N]byte] is [VArray (KUint W8)]. *)
#[local] Unset Elimination Schemes.
Inductive Value : Set :=
  | VBool (b : bool)
  | VInt (w : Width) (n : Z)
  | VUint (w : Width) (n : Z)
  | VBig (n : Z)
  | VString (s : list byte)
  | VSlice (elemKind : GoKind) (vs : list Value)
  | VArray (elemKind : GoKind) (vs : list Value)
  | VStruct (fields : list (string * Value)).
#[local] Set Elimination Schemes.

Definition Kind_of (v : Value) : GoKind :=
  match v with
  | VBool _ => KBool
  | VInt w _ => KInt w
  | VUint w _ => KUint w
  | VBig _ => KPtr
  | VString _ => KString
  | VSlice _ _ => KSlice
  | VArray _ _ => KArray
  | VStruct _ => KStruct
  end.

(* v.Len(): panics on a value that has no length *)
Definition Len (v : Value) : Result Z :=
  match v with
  | VString s => Ok (len s)
  | VSlice _ vs | VArray _ vs => Ok (len vs)
  | _ => Panic
  end.

(* the elements v.Index(0), v.Index(1), ... of a slice or array *)
Definition Elements (v : Value) : Result (list Value) :=
  match v with
  | VSlice _ vs | VArray _ vs => Ok vs
  | _ => Panic
  end.

(* val.Type().Elem().Kind() *)
Definition Elem_Kind (v : Value) : Result GoKind :=
  match v with
  | VSlice k _ | VArray k _ => Ok k
  | VBig _ => Ok KStruct
  | _ => Panic
  end.

(* v.FieldByName(name): None is the invalid Value *)
Definition FieldByName (v : Value) (name : string) : Result (option Value) :=
  match v with
  | VStruct fields =>
      Ok (option_map snd
            (find (fun f => String.eqb (fst f) name) fields))
  | _ => Panic
  end.

Definition byte_of_Value (v : Value) : Result byte :=
  match v with
  | VUint W8 n => Ok (z2b n)
  | _ => Panic
  end.

Fixpoint bytes_of_Values (vs : list Value) : Result (list byte) :=
  match vs with
  | [] => Ok []
  | v :: rest =>
      b <- byte_of_Value v ;;
      bs <- bytes_of_Values rest ;;
      Ok (b :: bs)
  end.

(* v.Bytes(): the value must be a slice of bytes *)
Definition Bytes (v : Value) : Result (list byte) :=
  match v with
  | VSlice (KUint W8) vs => bytes_of_Values vs
  | _ => Panic
  end.

Definition Values_of_bytes (bs : list byte) : list Value :=
  map (fun b => VUint W8 (b2z b)) bs.

(** Modelled from the spec: [mustArrayToByteSlice] (reflect.go, not under
    src/): copies an array of bytes into a fresh byte slice; reflect.Copy
    panics on an array of another element type. *)
Definition mustArrayToByteSlice (v : Value) : Result Value :=
  match v with
  | VArray (KUint W8) vs => Ok (VSlice (KUint W8) vs)
  | _ => Panic
  end.

(** Modelled from the spec: [reflectIntType] (reflect.go, not under src/):
    the machine integer type for the widths 8, 16, 32 and 64 and [*big.Int]
    for every other width, the same split [ReadInteger] makes. *)
Definition reflectIntType (unsigned : bool) (size : Z) : GoKind :=
  let w := if size =? 8 then Some W8 else if size =? 16 then Some W16
           else if size =? 32 then Some W32 else if size =? 64 then Some W64
           else None in
  match w with
  | Some w => if unsigned then KUint w else KInt w
  | None => KPtr
  end.

(** ** Go types, as reflect builds them *)

(** A [reflect.Type], as far as the codec depends on it: its kind, and its
    size and its alignment in bytes on a 64-bit platform, which decide
    whether [reflect.ArrayOf] and [reflect.StructOf] panic. *)
Record reflect_Type : Set := mkreflect_Type {
  Kind_ : GoKind;
  Size_ : Z;
  Align_ : Z
}.

(* the largest uintptr *)
Definition MaxUintptr : Z := 2 ^ 64 - 1.

(* reflect.TypeFor[bool](), reflect.TypeFor[string](), reflect.TypeFor[byte]() *)
Definition Type_bool : reflect_Type := mkreflect_Type KBool 1 1.
Definition Type_string : reflect_Type := mkreflect_Type KString 16 8.
Definition Type_byte : reflect_Type := mkreflect_Type (KUint W8) 1 1.

(* the type [reflectIntType] returns, from its kind: a machine integer of 1,
   2, 4 or 8 bytes, or the pointer *big.Int *)
Definition int_Type (k : GoKind) : reflect_Type :=
  match k with
  | KInt w | KUint w => mkreflect_Type k (bits w / 8) (bits w / 8)
  | _ => mkreflect_Type KPtr 8 8
  end.

(* reflect.SliceOf: a slice header of three words *)
Definition reflect_SliceOf (elem : reflect_Type) : reflect_Type :=
  mkreflect_Type KSlice 24 8.

(* the array type of [length] elements, when reflect can build it *)
Definition array_Type (length : Z) (elem : reflect_Type) : reflect_Type :=
  mkreflect_Type KArray (Size_ elem * length) (Align_ elem).

(* reflect.ArrayOf: panics on a negative length, and when the array would
   exceed the address space *)
Definition reflect_ArrayOf (length : Z) (elem : reflect_Type)
  : Result reflect_Type :=
  if length <? 0 then Panic
  else if (Size_ elem >? 0) && (length >? MaxUintptr / Size_ elem) then Panic
  else Ok (array_Type length elem).

(* align(x, n) of reflect: x rounded up to a multiple of n *)
Definition align_up (x n : Z) : Z := (x + n - 1) / n * n.

(* the loop of reflect.StructOf over the types of the fields: the size so
   far, the largest alignment, and the size reached after the last field of
   size 0 *)
Fixpoint struct_layout (fields : list reflect_Type) (size typalign lastzero : Z)
  : Z * Z * Z :=
  match fields with
  | [] => (size, typalign, lastzero)
  | ft :: rest =>
      let offset := align_up size (Align_ ft) in
      let size := offset + Size_ ft in
      struct_layout rest size (Z.max typalign (Align_ ft))
                    (if Size_ ft =? 0 then size else lastzero)
  end.

(* the struct type of fields of these types, when reflect can build it; a
   struct that ends in a field of size 0 gets one byte of padding, and the
   size is rounded up to the alignment *)
Definition struct_Type (fields : list reflect_Type) : reflect_Type :=
  let '(size, typalign, lastzero) := struct_layout fields 0 1 0 in
  let size := if (size >? 0) && (lastzero =? size) then size + 1 else size in
  mkreflect_Type KStruct (align_up size typalign) typalign.

(* the kind that the Go type of t has, whether reflect can build that type
   or not: a shorthand of the statements, and the kind of the elements of
   the slices and arrays the decoder makes once GetType has returned *)
Definition GetType_Kind (t : Type_) : GoKind :=
  match t with
  | TyInt s _ => reflectIntType false s
  | TyUint s _ => reflectIntType true s
  | TyBool _ => KBool
  | TyString _ => KString
  | TySlice _ _ => KSlice
  | TyArray _ _ _ => KArray
  | TyTuple _ _ _ _ _ => KStruct
  | TyAddress _ => KArray
  | TyFixedBytes _ _ => KArray
  | TyBytes _ => KSlice
  | TyHash _ | TyFixedPoint _ => KArray
  | TyFunction _ => KArray
  end.

(* the Go type of t, when reflect can build it; the struct type of a tuple
   has the Go types of the elements as the types of its fields *)
Fixpoint GoType_of (t : Type_) : reflect_Type :=
  match t with
  | TyInt s _ => int_Type (reflectIntType false s)
  | TyUint s _ => int_Type (reflectIntType true s)
  | TyBool _ => Type_bool
  | TyString _ => Type_string
  | TySlice elem _ => reflect_SliceOf (GoType_of elem)
  | TyArray elem size _ => array_Type size (GoType_of elem)
  | TyTuple _ elems _ _ _ =>
      struct_Type
        ((fix each (l : list Type_) : list reflect_Type :=
            match l with
            | [] => []
            | elem :: rest => GoType_of elem :: each rest
            end) elems)
  | TyAddress _ => array_Type 20 Type_byte
  | TyFixedBytes s _ => array_Type s Type_byte
  | TyBytes _ => reflect_SliceOf Type_byte
  | TyHash _ | TyFixedPoint _ => array_Type 32 Type_byte
  | TyFunction _ => array_Type 24 Type_byte
  end.

(* Type.GetType; the field TupleType of a tuple is the struct type that
   NewType has built from the Go types of the elements *)
Fixpoint GetType (t : Type_) : Result reflect_Type :=
  match t with
  | TyInt s _ => Ok (int_Type (reflectIntType false s))
  | TyUint s _ => Ok (int_Type (reflectIntType true s))
  | TyBool _ => Ok Type_bool
  | TyString _ => Ok Type_string
  | TySlice elem _ => e <- GetType elem ;; Ok (reflect_SliceOf e)
  | TyArray elem size _ => e <- GetType elem ;; reflect_ArrayOf size e
  | TyTuple _ _ _ _ _ => Ok (GoType_of t)
  | TyAddress _ => Ok (array_Type 20 Type_byte)
  | TyFixedBytes s _ => reflect_ArrayOf s Type_byte
  | TyBytes _ => Ok (reflect_SliceOf Type_byte)
  | TyHash _ | TyFixedPoint _ => Ok (array_Type 32 Type_byte)
  | TyFunction _ => Ok (array_Type 24 Type_byte)
  end.
Arguments GetType : simpl never.

(** ** Type checks (error_handling.go) *)

(* sliceTypeCheck; it is only called on a slice or array type, another type
   has no Elem to dereference.  The calls of GetType that only build the
   message of an error are made as the source makes them. *)
Fixpoint sliceTypeCheck (t : Type_) (val : Value) : Result unit :=
  match t with
  | TySlice elem _ | TyArray elem _ _ =>
      if negb (GoKind_eqb (Kind_of val) KSlice)
         && negb (GoKind_eqb (Kind_of val) KArray)
      then
        _ <- GetType t ;;
        Err errTypeErr
      else
        l <- Len val ;;
        if Kind_eqb (T t) ArrayTy && negb (l =? Size t) then
          _ <- GetType elem ;;
          _ <- Elem_Kind val ;;
          Err errTypeErr
        else
          let nested := Kind_eqb (T elem) SliceTy || Kind_eqb (T elem) ArrayTy in
          if nested && (l >? 0) then
            vs <- Elements val ;;
            match vs with
            | v0 :: _ => sliceTypeCheck elem v0
            | [] => Panic
            end
          else
            k <- Elem_Kind val ;;
            e <- GetType elem ;;
            if negb (GoKind_eqb k (Kind_ e)) then Err errTypeErr
            else Ok tt
  | _ => Panic
  end.

(* typeCheck *)
Definition typeCheck (t : Type_) (value : Value) : Result unit :=
  if Kind_eqb (T t) SliceTy || Kind_eqb (T t) ArrayTy then sliceTypeCheck t value
  else
    typ <- GetType t ;;
    if negb (GoKind_eqb (Kind_ typ) (Kind_of value)) then Err errTypeErr
    else if Kind_eqb (T t) FixedBytesTy then
      l <- Len value ;;
      if negb (Size t =? l) then Err errTypeErr else Ok tt
    else Ok tt.

(** ** The encoder (pack.go, type.go) *)

(* packNum: by the kind of the value; the default case panics *)
Definition packNum (value : Value) : Result (list byte) :=
  match value with
  | VUint _ n => Ok (U256Bytes n)
  | VInt _ n => Ok (U256Bytes n)
  | VBig n => Ok (U256Bytes n)
  | _ => Panic
  end.

(* packNum(reflect.ValueOf(n)) for an int n *)
Definition packNum_int (n : Z) : list byte := U256Bytes n.

(* packBytesSlice *)
Definition packBytesSlice (bytes : list byte) (l : Z) : list byte :=
  packNum_int l
    ++ RightPadBytes bytes (int_mul (int_div (int_add l 31) 32) 32).

(* packElement *)
Definition packElement (t : Type_) (reflectValue : Value) : Result (list byte) :=
  match T t with
  | UintTy =>
      match reflectValue with
      | VBig val => if val <? 0 then Err errInvalidSign else packNum reflectValue
      | _ => packNum reflectValue
      end
  | IntTy => packNum reflectValue
  | StringTy =>
      match reflectValue with
      | VString s => Ok (packBytesSlice s (len s))
      | _ => Panic
      end
  | AddressTy =>
      reflectValue <- (if GoKind_eqb (Kind_of reflectValue) KArray
                       then mustArrayToByteSlice reflectValue
                       else Ok reflectValue) ;;
      bs <- Bytes reflectValue ;;
      Ok (LeftPadBytes bs 32)
  | BoolTy =>
      match reflectValue with
      | VBool true => Ok (PaddedBigBytes 1 32)
      | VBool false => Ok (PaddedBigBytes 0 32)
      | _ => Panic
      end
  | BytesTy =>
      reflectValue <- (if GoKind_eqb (Kind_of reflectValue) KArray
                       then mustArrayToByteSlice reflectValue
                       else Ok reflectValue) ;;
      match reflectValue with
      | VSlice (KUint W8) _ =>
          bs <- Bytes reflectValue ;;
          l <- Len reflectValue ;;
          Ok (packBytesSlice bs l)
      | _ => Err errBytesNotSlice
      end
  | FixedBytesTy | FunctionTy =>
      reflectValue <- (if GoKind_eqb (Kind_of reflectValue) KArray
                       then mustArrayToByteSlice reflectValue
                       else Ok reflectValue) ;;
      bs <- Bytes reflectValue ;;
      Ok (RightPadBytes bs 32)
  | _ => Err errPackUnknownType
  end.

(** ** Arguments (argument.go) *)

Record Argument : Set := mkArgument {
  Name : string;
  Type_of : Type_;     (* the field Type *)
  Indexed : bool
}.

Definition Arguments := list Argument.

Section Encoder.

(** [mapArgNamesToStructFields] (reflect.go) is not under src/: it maps
    the raw names of the tuple fields to the names of the fields of the
    given struct, or fails with an error of its own ([None]).  The encoder
    is parametric in it. *)
Variable mapArgNamesToStructFields :
  list string -> Value -> option (string -> string).

(* the loop of Type.pack over the elements of a slice or array *)
Section pack_elements.
Variable pack_elem : Value -> Result (list byte).
Variable offsetReq : bool.

Fixpoint pack_elements (vs : list Value) (offset : Z)
         (ret tail : list byte) : Result (list byte) :=
  match vs with
  | [] => Ok (ret ++ tail)
  | vi :: rest =>
      val <- pack_elem vi ;;
      if negb offsetReq then pack_elements rest offset (ret ++ val) tail
      else
        pack_elements rest (int_add offset (len val))
                      (ret ++ packNum_int offset) (tail ++ val)
  end.
End pack_elements.

(* the loop of Type.pack over the fields of a tuple *)
Section pack_fields.
Variable pack : Type_ -> Value -> Result (list byte).
Variable TupleRawNames : list string.
Variable fieldmap : string -> string.
Variable v : Value.

Fixpoint pack_fields (elems : list Type_) (i : nat) (offset : Z)
         (ret tail : list byte) : Result (list byte) :=
  match elems with
  | [] => Ok (ret ++ tail)
  | elem :: rest =>
      match nth_error TupleRawNames i with
      | None => Panic
      | Some name =>
          field <- FieldByName v (fieldmap name) ;;
          match field with
          | None => Err (errFieldNotFound name)
          | Some field =>
              val <- pack elem field ;;
              if isDynamicType elem then
                pack_fields rest (S i) (int_add offset (len val))
                            (ret ++ packNum_int offset) (tail ++ val)
              else
                pack_fields rest (S i) offset (ret ++ val) tail
          end
      end
  end.
End pack_fields.

(* the sum of getTypeSize over a list of types, as the loops
   [offset += getTypeSize(..)] compute it *)
Fixpoint sum_TypeSize (elems : list Type_) (offset : Z) : Z :=
  match elems with
  | [] => offset
  | elem :: rest => sum_TypeSize rest (int_add offset (getTypeSize elem))
  end.

(* Type.pack; [indirect] only strips pointers, and the only pointer among
   the values is [*big.Int], which it leaves alone *)
Fixpoint pack (t : Type_) (v : Value) {struct t} : Result (list byte) :=
  _ <- typeCheck t v ;;
  match t with
  | TySlice elem _ | TyArray elem _ _ =>
      l <- Len v ;;
      let ret := if requiresLengthPrefix t then packNum_int l else [] in
      let offsetReq := isDynamicType elem in
      let offset := if offsetReq then int_mul (getTypeSize elem) l else 0 in
      vs <- Elements v ;;
      pack_elements (pack elem) offsetReq vs offset ret []
  | TyTuple _ elems names _ _ =>
      match mapArgNamesToStructFields names v with
      | None => Err errStructMapping
      | Some fieldmap =>
          let offset := sum_TypeSize elems 0 in
          pack_fields pack names fieldmap v elems 0 offset [] []
      end
  | _ => packElement t v
  end.

(* the loop of Arguments.Pack over the supplied values *)
Fixpoint Pack_loop (abiArgs : Arguments) (args : list Value) (i : nat)
         (inputOffset : Z) (ret variableInput : list byte)
  : Result (list byte) :=
  match args with
  | [] => Ok (ret ++ variableInput)
  | a :: rest =>
      match nth_error abiArgs i with
      | None => Panic
      | Some input =>
          packed <- pack (Type_of input) a ;;
          if isDynamicType (Type_of input) then
            Pack_loop abiArgs rest (S i) (int_add inputOffset (len packed))
                      (ret ++ packNum_int inputOffset)
                      (variableInput ++ packed)
          else
            Pack_loop abiArgs rest (S i) inputOffset (ret ++ packed)
                      variableInput
      end
  end.

(* Arguments.Pack *)
Definition Pack (arguments : Arguments) (args : list Value)
  : Result (list byte) :=
  let abiArgs := arguments in
  if negb (len args =? len abiArgs)
  then Err (errArgCountMismatch (len args) (len abiArgs))
  else
    let inputOffset := sum_TypeSize (map Type_of abiArgs) 0 in
    Pack_loop abiArgs args 0 inputOffset [] [].

(* Arguments.PackValues *)
Definition PackValues (arguments : Arguments) (args : list Value)
  : Result (list byte) :=
  Pack arguments args.

End Encoder.

(** ** The decoder (unpack.go) *)

Definition MaxUint256 : Z := 2 ^ 256 - 1.

(* x.Uint64() of a non-negative big.Int: its low 64 bits *)
Definition big_Uint64 (x : Z) : Z := x mod 2 ^ 64.
(* x.Int64(): the low 64 bits as a signed integer *)
Definition big_Int64 (x : Z) : Z := wrap x.
(* x.BitLen() > 63, for a non-negative x *)
Definition BitLen_gt_63 (x : Z) : bool := 2 ^ 63 <=? x.

(* ReadInteger *)
Definition ReadInteger (typ : Type_) (b : list byte) : Result Value :=
  let ret := SetBytes b in
  if Kind_eqb (T typ) UintTy then
    let u64 := big_Uint64 ret in
    let isu64 := ret <? 2 ^ 64 in
    if Size typ =? 8 then
      if negb isu64 || (u64 >? 255) then Err errBadUint8 else Ok (VUint W8 u64)
    else if Size typ =? 16 then
      if negb isu64 || (u64 >? 65535) then Err errBadUint16 else Ok (VUint W16 u64)
    else if Size typ =? 32 then
      if negb isu64 || (u64 >? 4294967295) then Err errBadUint32 else Ok (VUint W32 u64)
    else if Size typ =? 64 then
      if negb isu64 then Err errBadUint64 else Ok (VUint W64 u64)
    else Ok (VBig ret)
  else
    let ret := if Z.testbit ret 255
               then - ((MaxUint256 + - ret) + 1)
               else ret in
    let i64 := big_Int64 ret in
    let isi64 := (- 2 ^ 63 <=? ret) && (ret <? 2 ^ 63) in
    if Size typ =? 8 then
      if negb isi64 || (i64 <? -128) || (i64 >? 127) then Err errBadInt8
      else Ok (VInt W8 i64)
    else if Size typ =? 16 then
      if negb isi64 || (i64 <? -32768) || (i64 >? 32767) then Err errBadInt16
      else Ok (VInt W16 i64)
    else if Size typ =? 32 then
      if negb isi64 || (i64 <? -2147483648) || (i64 >? 2147483647)
      then Err errBadInt32
      else Ok (VInt W32 i64)
    else if Size typ =? 64 then
      if negb isi64 then Err errBadInt64 else Ok (VInt W64 i64)
    else Ok (VBig ret).

(* readBool *)
Definition readBool (word : list byte) : Result bool :=
  head31 <- slice word 0 31 ;;
  if existsb (fun b => negb (b2z b =? 0)) head31 then Err errBadBool
  else
    match nth_error word 31 with
    | None => Panic
    | Some last =>
        if b2z last =? 0 then Ok false
        else if b2z last =? 1 then Ok true
        else Err errBadBool
    end.

(* readFunctionType *)
Definition readFunctionType (t : Type_) (word : list byte) : Result Value :=
  if negb (Kind_eqb (T t) FunctionTy) then Err errInvalidCall
  else
    tail8 <- slice word 24 32 ;;
    garbage <- BigEndian_Uint64 tail8 ;;
    if negb (garbage =? 0) then Err errBadFunction
    else
      w <- slice word 0 24 ;;
      Ok (VArray (KUint W8) (Values_of_bytes w)).

(* ReadFixedBytes.  The array type t.GetType() of a fixed-bytes type is one
   of bytes: reflect.ArrayOf panics for it on a negative size only, on which
   the slice expression word[0:t.Size] panics as well. *)
Definition ReadFixedBytes (t : Type_) (word : list byte) : Result Value :=
  if negb (Kind_eqb (T t) FixedBytesTy) then Err errInvalidCall
  else
    w <- slice word 0 (Size t) ;;
    Ok (VArray (KUint W8) (Values_of_bytes w)).

(** Modelled from the spec: [common.BytesToAddress] (common/types.go, not
    under src/): the last 20 bytes of the input, left-padded with zeros when
    the input is shorter. *)
Definition BytesToAddress (b : list byte) : list byte :=
  let b := if len b >? 20 then skipn (Z.to_nat (len b - 20)) b else b in
  repeat x00 (Z.to_nat (20 - len b)) ++ b.

(** Modelled from the spec: [common.BytesToHash] (common/types.go, not under
    src/): the last 32 bytes of the input, left-padded with zeros. *)
Definition BytesToHash (b : list byte) : list byte :=
  let b := if len b >? 32 then skipn (Z.to_nat (len b - 32)) b else b in
  repeat x00 (Z.to_nat (32 - len b)) ++ b.

(* lengthPrefixPointsTo *)
Definition lengthPrefixPointsTo (index : Z) (output : list byte)
  : Result (Z * Z) :=
  w <- slice output index (int_add index 32) ;;
  let bigOffsetEnd := SetBytes w + 32 in
  let outputLength := len output in
  if bigOffsetEnd >? outputLength then Err errOffsetBoundary
  else if BitLen_gt_63 bigOffsetEnd then Err errOffsetInt64
  else
    let offsetEnd := wrap (big_Uint64 bigOffsetEnd) in
    lw <- slice output (int_sub offsetEnd 32) offsetEnd ;;
    let lengthBig := SetBytes lw in
    let totalSize := bigOffsetEnd + lengthBig in
    if BitLen_gt_63 totalSize then Err errLengthInt64
    else if totalSize >? outputLength then Err errLengthInsufficient
    else
      let start := wrap (big_Uint64 bigOffsetEnd) in
      let length := wrap (big_Uint64 lengthBig) in
      Ok (start, length).

(* tuplePointsTo *)
Definition tuplePointsTo (index : Z) (output : list byte) : Result Z :=
  w <- slice output index (int_add index 32) ;;
  let offset := SetBytes w in
  let outputLen := len output in
  if offset >? outputLen then Err errOffsetBoundary
  else if BitLen_gt_63 offset then Err errOffsetInt64
  else Ok (wrap (big_Uint64 offset)).

(* the loop of forEachUnpack: [n] elements are left to decode, [i] is the
   position of the next one *)
Section forEach.
Variable dec_elem : Z -> Result Value.
Variable elemSize : Z.

Fixpoint forEach_loop (i : Z) (n : nat) : Result (list Value) :=
  match n with
  | O => Ok []
  | S n' =>
      inter <- dec_elem i ;;
      rest <- forEach_loop (int_add i elemSize) n' ;;
      Ok (inter :: rest)
  end.
End forEach.

(* the loop of forTupleUnpack; [fields] are the field names of the struct
   being filled, and [retval.Field(index)] panics past its last field *)
Section forTuple.
Variable toGoType : Z -> Type_ -> list byte -> Result Value.
Variable fields : list string.
Variable output : list byte.

Fixpoint forTuple_loop (elems : list Type_) (index : nat) (virtualArgs : Z)
  : Result (list (string * Value)) :=
  match elems with
  | [] => Ok []
  | elem :: rest =>
      marshalledValue <-
        toGoType (int_mul (int_add (Z.of_nat index) virtualArgs) 32) elem output ;;
      let virtualArgs :=
        if Kind_eqb (T elem) ArrayTy && negb (isDynamicType elem) then
          int_add virtualArgs (int_sub (int_div (getTypeSize elem) 32) 1)
        else if Kind_eqb (T elem) TupleTy && negb (isDynamicType elem) then
          int_add virtualArgs (int_sub (int_div (getTypeSize elem) 32) 1)
        else virtualArgs in
      match nth_error fields index with
      | None => Panic
      | Some name =>
          rest <- forTuple_loop rest (S index) virtualArgs ;;
          Ok ((name, marshalledValue) :: rest)
      end
  end.
End forTuple.

(* forEachUnpack, over the decoder of the elements.  It is called with the
   size of the array type for an array, so the array it allocates has room
   for every element it decodes.  The slice or array is made of the type
   t.GetType() before the loop; its elements have the kind of the Go type of
   the element type. *)
Definition forEachUnpack_with
           (toGoType : Z -> Type_ -> list byte -> Result Value)
           (t : Type_) (output : list byte) (start size : Z) : Result Value :=
  if size <? 0 then Err errNegativeSize
  else if int_add start (int_mul 32 size) >? len output
  then Err errArrayBoundary
  else
    match t with
    | TySlice elem _ =>
        _ <- GetType t ;;
        let elemSize := getTypeSize elem in
        vs <- forEach_loop (fun i => toGoType i elem output) elemSize
                           start (Z.to_nat size) ;;
        Ok (VSlice (GetType_Kind elem) vs)
    | TyArray elem _ _ =>
        _ <- GetType t ;;
        let elemSize := getTypeSize elem in
        vs <- forEach_loop (fun i => toGoType i elem output) elemSize
                           start (Z.to_nat size) ;;
        Ok (VArray (GetType_Kind elem) vs)
    | _ => Err errInvalidArrayStage
    end.

(* forTupleUnpack, over the decoder of the fields; it is only called on a
   tuple type, whose GetType is the stored TupleType *)
Definition forTupleUnpack_with
           (toGoType : Z -> Type_ -> list byte -> Result Value)
           (t : Type_) (output : list byte) : Result Value :=
  match t with
  | TyTuple _ elems _ fields _ =>
      fs <- forTuple_loop toGoType fields output elems 0 0 ;;
      Ok (VStruct fs)
  | _ => Panic
  end.

(* toGoType *)
Fixpoint toGoType (index : Z) (t : Type_) (output : list byte) {struct t}
  : Result Value :=
  if int_add index 32 >? len output then Err errLengthInsufficient
  else
    match t with
    | TyTuple _ _ _ _ _ =>
        _ <- slice output index (int_add index 32) ;;
        if isDynamicType t then
          begin <- tuplePointsTo index output ;;
          out <- slice_from output begin ;;
          forTupleUnpack_with toGoType t out
        else
          out <- slice_from output index ;;
          forTupleUnpack_with toGoType t out
    | TySlice _ _ =>
        ' (begin, length) <- lengthPrefixPointsTo index output ;;
        out <- slice_from output begin ;;
        forEachUnpack_with toGoType t out 0 length
    | TyArray elem size _ =>
        returnOutput <- slice output index (int_add index 32) ;;
        if isDynamicType elem then
          w <- slice_from returnOutput (int_sub (len returnOutput) 8) ;;
          offset <- BigEndian_Uint64 w ;;
          if offset >? len output then Err errArrayOffset
          else
            out <- slice_from output offset ;;
            forEachUnpack_with toGoType t out 0 size
        else
          out <- slice_from output index ;;
          forEachUnpack_with toGoType t out 0 size
    | TyString _ =>
        ' (begin, length) <- lengthPrefixPointsTo index output ;;
        s <- slice output begin (int_add begin length) ;;
        Ok (VString s)
    | TyInt _ _ | TyUint _ _ =>
        returnOutput <- slice output index (int_add index 32) ;;
        ReadInteger t returnOutput
    | TyBool _ =>
        returnOutput <- slice output index (int_add index 32) ;;
        b <- readBool returnOutput ;;
        Ok (VBool b)
    | TyAddress _ =>
        returnOutput <- slice output index (int_add index 32) ;;
        Ok (VArray (KUint W8) (Values_of_bytes (BytesToAddress returnOutput)))
    | TyHash _ =>
        returnOutput <- slice output index (int_add index 32) ;;
        Ok (VArray (KUint W8) (Values_of_bytes (BytesToHash returnOutput)))
    | TyBytes _ =>
        ' (begin, length) <- lengthPrefixPointsTo index output ;;
        s <- slice output begin (int_add begin length) ;;
        Ok (VSlice (KUint W8) (Values_of_bytes s))
    | TyFixedBytes _ _ =>
        returnOutput <- slice output index (int_add index 32) ;;
        ReadFixedBytes t returnOutput
    | TyFunction _ =>
        returnOutput <- slice output index (int_add index 32) ;;
        readFunctionType t returnOutput
    | TyFixedPoint _ =>
        _ <- slice output index (int_add index 32) ;;
        Err errUnknownType
    end.

Definition forEachUnpack := forEachUnpack_with toGoType.
Definition forTupleUnpack := forTupleUnpack_with toGoType.

(** ** Unpacking argument lists (argument.go) *)

(* Arguments.NonIndexed *)
Fixpoint NonIndexed (arguments : Arguments) : Arguments :=
  match arguments with
  | [] => []
  | arg :: rest =>
      if negb (Indexed arg) then arg :: NonIndexed rest else NonIndexed rest
  end.

(* the loop of Arguments.UnpackValues *)
Fixpoint UnpackValues_loop (data : list byte) (arguments : Arguments)
         (index virtualArgs : Z) : Result (list Value) :=
  match arguments with
  | [] => Ok []
  | arg :: rest =>
      if Indexed arg then UnpackValues_loop data rest index virtualArgs
      else
        marshalledValue <-
          toGoType (int_mul (int_add index virtualArgs) 32) (Type_of arg) data ;;
        let virtualArgs :=
          if Kind_eqb (T (Type_of arg)) ArrayTy
             && negb (isDynamicType (Type_of arg)) then
            int_add virtualArgs
                    (int_sub (int_div (getTypeSize (Type_of arg)) 32) 1)
          else if Kind_eqb (T (Type_of arg)) TupleTy
                  && negb (isDynamicType (Type_of arg)) then
            int_add virtualArgs
                    (int_sub (int_div (getTypeSize (Type_of arg)) 32) 1)
          else virtualArgs in
        retval <- UnpackValues_loop data rest (int_add index 1) virtualArgs ;;
        Ok (marshalledValue :: retval)
  end.

(* Arguments.UnpackValues *)
Definition UnpackValues (arguments : Arguments) (data : list byte)
  : Result (list Value) :=
  UnpackValues_loop data arguments 0 0.

(* Arguments.Unpack *)
Definition Unpack (arguments : Arguments) (data : list byte)
  : Result (list Value) :=
  if len data =? 0 then
    if negb (len (NonIndexed arguments) =? 0) then Err errEmptyInput
    else Ok []
  else UnpackValues arguments data.

(** ** The type parser (type.go, NewType) *)

Local Open Scope string_scope.

(* strings.Count(s, c) for a one-character substring c *)
Fixpoint Count (s : string) (c : ascii) : nat :=
  match s with
  | EmptyString => 0
  | String a r => if Ascii.eqb a c then S (Count r c) else Count r c
  end.

(* strings.LastIndex(s, c) for a one-character substring c; None is -1 *)
Fixpoint LastIndex (s : string) (c : ascii) : option nat :=
  match s with
  | EmptyString => None
  | String a r =>
      match LastIndex r c with
      | Some i => Some (S i)
      | None => if Ascii.eqb a c then Some O else None
      end
  end.

(* s[:i] and s[i:] *)
Definition str_to (s : string) (i : nat) : string := substring 0 i s.
Definition str_from (s : string) (i : nat) : string :=
  substring i (String.length s - i) s.

Definition is_letter (c : ascii) : bool :=
  let n := nat_of_ascii c in
  ((97 <=? n) && (n <=? 122) || (65 <=? n) && (n <=? 90))%nat.

Definition is_digit (c : ascii) : bool :=
  let n := nat_of_ascii c in ((48 <=? n) && (n <=? 57))%nat.

(* the longest prefix of s whose characters satisfy p, and the rest of s *)
Fixpoint span (p : ascii -> bool) (s : string) : string * string :=
  match s with
  | EmptyString => (EmptyString, EmptyString)
  | String a r =>
      if p a then let (x, y) := span p r in (String a x, y)
      else (EmptyString, s)
  end.

Fixpoint from_first_letter (s : string) : option string :=
  match s with
  | EmptyString => None
  | String a r => if is_letter a then Some s else from_first_letter r
  end.

(** The first match of [typeRegex], ([a-zA-Z]+)(([0-9]+)(x([0-9]+))?)?, in t,
    as [FindAllStringSubmatch(t, -1)[0]] returns it; None when there is no
    match.  The match starts at the first letter of t and takes the longest
    run of letters, then the longest run of digits if one follows, then an x
    with the longest run of digits if they follow.  The result holds the
    groups 0 to 3, the ones NewType reads. *)
Definition typeRegex_first (t : string) : option (string * string * string * string) :=
  match from_first_letter t with
  | None => None
  | Some s =>
      let (letters, r1) := span is_letter s in
      let (digits, r2) := span is_digit r1 in
      if String.eqb digits "" then Some (letters, letters, "", "")
      else
        let xpart :=
          match r2 with
          | String "x" r3 =>
              let (digits2, _) := span is_digit r3 in
              if String.eqb digits2 "" then "" else "x" ++ digits2
          | _ => ""
          end in
        Some (letters ++ digits ++ xpart, letters, digits ++ xpart, digits)
  end.

(** All matches of [sliceSizeRegex], [0-9]+, in s: its maximal runs of
    digits, from left to right; [cur] is the run being read. *)
Fixpoint sliceSizeRegex_all (s : string) (cur : string) : list string :=
  match s with
  | EmptyString => if String.eqb cur "" then [] else [cur]
  | String a r =>
      if is_digit a then sliceSizeRegex_all r (cur ++ String a "")
      else (if String.eqb cur "" then [] else [cur]) ++ sliceSizeRegex_all r ""
  end.

Fixpoint decimal_value (s : string) (acc : Z) : option Z :=
  match s with
  | EmptyString => Some acc
  | String a r =>
      if is_digit a
      then decimal_value r (acc * 10 + (Z.of_nat (nat_of_ascii a) - 48))%Z
      else None
  end.

(** [strconv.Atoi] on the strings NewType passes to it, which start with a
    digit: the decimal value, or an error when a character is not a digit or
    the value does not fit an int. *)
Definition Atoi (s : string) : Result Z :=
  match s with
  | EmptyString => Err errParseSize
  | _ =>
      match decimal_value s 0 with
      | Some n => if (n <? 2 ^ 63)%Z then Ok n else Err errParseSize
      | None => Err errParseSize
      end
  end.

(* strings.Split(s, c) for a one-character separator *)
Fixpoint Split (s : string) (c : ascii) : list string :=
  match s with
  | EmptyString => [EmptyString]
  | String a r =>
      if Ascii.eqb a c then EmptyString :: Split r c
      else match Split r c with
           | x :: l => String a x :: l
           | [] => [String a EmptyString]
           end
  end.

(* strings.ReplaceAll(s, c, "") for a one-character c *)
Fixpoint remove_char (s : string) (c : ascii) : string :=
  match s with
  | EmptyString => EmptyString
  | String a r => if Ascii.eqb a c then remove_char r c
                  else String a (remove_char r c)
  end.

(* fmt.Sprintf("%d", idx) *)
Definition Sprintf_d (idx : nat) : string :=
  DecimalString.NilZero.string_of_uint (Nat.to_uint idx).

(* ArgumentMarshaling *)
#[local] Unset Elimination Schemes.
Inductive ArgumentMarshaling : Set :=
  mkArgumentMarshaling (Name_ Type_string InternalType : string)
                       (Components : list ArgumentMarshaling)
                       (Indexed_ : bool).
#[local] Set Elimination Schemes.

Section TypeParser.

(** The parts of Go's standard library that only the handling of tuple
    field names uses: [strings.ToUpper], the decoding of a string into its
    runes (as [range] does it), [unicode.IsLetter] and [unicode.IsDigit]. *)
Variable strings_ToUpper : string -> string.
Variable runes : string -> list Z.
Variable unicode_IsLetter : Z -> bool.
Variable unicode_IsDigit : Z -> bool.

(* ToCamelCase (argument.go) *)
Definition ToCamelCase (input : string) : string :=
  let parts := Split input "_" in
  String.concat ""
    (map (fun s => if (0 <? String.length s)%nat
                   then strings_ToUpper (str_to s 1) ++ str_from s 1
                   else s) parts).

(* ResolveNameConflict (utils.go).  The names rawName0, rawName1, ... are
   pairwise different, so the loop ends within as many rounds as there are
   used names; [rounds] is that bound. *)
Fixpoint ResolveNameConflict_loop (rawName : string) (used : string -> bool)
         (rounds idx : nat) : string :=
  let name := rawName ++ Sprintf_d idx in
  match rounds with
  | O => name
  | S rounds' =>
      if used name then ResolveNameConflict_loop rawName used rounds' (S idx)
      else name
  end.

Definition ResolveNameConflict (rawName : string) (used : string -> bool)
           (rounds : nat) : string :=
  if used rawName then ResolveNameConflict_loop rawName used rounds 0
  else rawName.

(* isLetter *)
Definition isLetter (ch : Z) : bool :=
  ((97 <=? ch) && (ch <=? 122) || (65 <=? ch) && (ch <=? 90) || (ch =? 95)
   || (128 <=? ch) && unicode_IsLetter ch)%Z.

(* isValidFieldName: the first rune is the one at index 0 *)
Definition isValidFieldName (fieldName : string) : bool :=
  match runes fieldName with
  | [] => (0 <? String.length fieldName)%nat
  | c :: rest =>
      isLetter c
      && forallb (fun c => isLetter c || unicode_IsDigit c) (c :: rest)
      && (0 <? String.length fieldName)%nat
  end.

(* the first byte of the name is a lower-case letter or an underscore *)
Definition starts_unexported (name : string) : bool :=
  match name with
  | EmptyString => false
  | String c _ =>
      let n := nat_of_ascii c in ((97 <=? n) && (n <=? 122) || (n =? 95))%nat
  end.

Fixpoint has_duplicate (names : list string) : bool :=
  match names with
  | [] => false
  | name :: rest => existsb (String.eqb name) rest || has_duplicate rest
  end.

(** [reflect.StructOf] on fields with these names and types, which are
    exported and not embedded.  It panics on a field without a name or with
    a name that is not an identifier ([isValidFieldName] is reflect's own
    test), on a name that starts with a lower-case letter or an underscore,
    on a second field of the same name, and when the struct would exceed the
    address space: the sizes only grow along the fields, so the checks it
    makes after every step amount to one on the final size. *)
Definition reflect_StructOf (fields : list (string * reflect_Type))
  : Result reflect_Type :=
  if existsb (fun f => String.eqb (fst f) "" || negb (isValidFieldName (fst f))
                       || starts_unexported (fst f)) fields
  then Panic
  else if has_duplicate (map fst fields) then Panic
  else
    let typ := struct_Type (map snd fields) in
    if (Size_ typ >? MaxUintptr)%Z then Panic else Ok typ.

(* the loop of NewType over the components of a tuple; [NewType_of c] is
   NewType(c.Type, c.InternalType, c.Components) and [count] is
   len(components); [fields] holds the names of the struct fields and
   [types] their types *)
Section tuple_loop.
Variable NewType_of : ArgumentMarshaling -> Result Type_.
Variable count : Z.

Fixpoint tuple_loop (cs : list ArgumentMarshaling) (idx : nat)
         (fields : list string) (types : list reflect_Type)
         (elems : list Type_) (names : list string)
         (expression : string) (used : list string) {struct cs}
  : Result (list string * list reflect_Type * list Type_ * list string
            * string) :=
  match cs with
  | [] => Ok (fields, types, elems, names, expression)
  | mkArgumentMarshaling cName _ _ _ _ as c :: rest =>
      cType <- NewType_of c ;;
      let name := ToCamelCase cName in
      if String.eqb name "" then Err errAnonymousField
      else
        let fieldName :=
          ResolveNameConflict name (fun s => existsb (String.eqb s) used)
                              (List.length used) in
        let used := fieldName :: used in
        if negb (isValidFieldName fieldName)
        then Err (errInvalidFieldName (Z.of_nat idx))
        else
          typ <- GetType cType ;;
          let expression := expression ++ String_ cType in
          let expression :=
            if negb (Z.of_nat idx =? count - 1)%Z then expression ++ ","
            else expression in
          tuple_loop rest (S idx) (fields ++ [fieldName])%list
                     (types ++ [typ])%list
                     (elems ++ [cType])%list (names ++ [cName])%list
                     expression used
  end.
End tuple_loop.

(** The body of NewType for a fixed list of components.  The recursion on
    [t[:i]] removes the last bracket of t, so it is at most as deep as t has
    brackets: [depth] counts them.  The reflect struct type built by
    [reflect.StructOf] is kept as the list of its field names; the types of
    its fields are the Go types of the elements. *)
Section NewType_body.
Variable NewType_of : ArgumentMarshaling -> Result Type_.
Variable components : list ArgumentMarshaling.

Fixpoint NewType_body (depth : nat) (t internalType : string) {struct depth}
  : Result Type_ :=
  if negb (Count t "[" =? Count t "]")%nat then Err errInvalidArgType
  else if negb (Count t "[" =? 0)%nat then
    match depth with
    | O => Panic
    | S depth' =>
        let subInternal :=
          match LastIndex internalType "[" with
          | Some i => str_to internalType i
          | None => internalType
          end in
        match LastIndex t "[" with
        | None => Panic
        | Some i =>
            embeddedType <- NewType_body depth' (str_to t i) subInternal ;;
            let sliced := str_from t i in
            let intz := sliceSizeRegex_all sliced "" in
            match intz with
            | [] => Ok (TySlice embeddedType (String_ embeddedType ++ sliced))
            | [size] =>
                match Atoi size with
                | Ok n =>
                    Ok (TyArray embeddedType n (String_ embeddedType ++ sliced))
                | _ => Err errParseSize
                end
            | _ => Err errInvalidArrayFormat
            end
        end
    end
  else
    match typeRegex_first t with
    | None => Err errInvalidType
    | Some (parsed0, parsed1, parsed2, parsed3) =>
        varSize <-
          (if (0 <? String.length parsed3)%nat then
             match Atoi parsed2 with
             | Ok n => Ok n
             | _ => Err errParseSize
             end
           else if String.eqb parsed0 "uint" || String.eqb parsed0 "int"
                then Err errUnsupportedArgType
                else Ok 0%Z) ;;
        if String.eqb parsed1 "int" then Ok (TyInt varSize t)
        else if String.eqb parsed1 "uint" then Ok (TyUint varSize t)
        else if String.eqb parsed1 "bool" then Ok (TyBool t)
        else if String.eqb parsed1 "address" then Ok (TyAddress t)
        else if String.eqb parsed1 "string" then Ok (TyString t)
        else if String.eqb parsed1 "bytes" then
          if (varSize =? 0)%Z then Ok (TyBytes t)
          else if (varSize >? 32)%Z then Err errUnsupportedArgType
               else Ok (TyFixedBytes varSize t)
        else if String.eqb parsed1 "tuple" then
          r <- tuple_loop NewType_of (len components) components
                          O [] [] [] [] "(" [] ;;
          let '(fields, types, elems, names, expression) := r in
          let expression := expression ++ ")" in
          _ <- reflect_StructOf (combine fields types) ;;
          let TupleRawName :=
            if negb (String.eqb internalType "")
               && prefix "struct " internalType
            then remove_char (str_from internalType 7) "."
            else "" in
          Ok (TyTuple TupleRawName elems names fields expression)
        else if String.eqb parsed1 "function" then Ok (TyFunction t)
        else if prefix "contract " internalType then Ok (TyAddress t)
             else Err errUnsupportedArgType
    end.
End NewType_body.

(* NewType(t, internalType, c.Components), with the recursive calls
   NewType(c'.Type, c'.InternalType, c'.Components) on the components *)
Fixpoint NewType_rec (c : ArgumentMarshaling) {struct c}
  : nat -> string -> string -> Result Type_ :=
  NewType_body
    (fun c' =>
       match c' with
       | mkArgumentMarshaling _ cTypeString cInternalType _ _ =>
           NewType_rec c' (Count cTypeString "[") cTypeString cInternalType
       end)
    (match c with mkArgumentMarshaling _ _ _ cs _ => cs end).

Definition NewType (t internalType : string)
           (components : list ArgumentMarshaling) : Result Type_ :=
  NewType_rec (mkArgumentMarshaling "" t internalType components false)
              (Count t "[") t internalType.

End TypeParser.

Local Close Scope string_scope.

(** ** The binding generator (abigen/bind.go) *)

Local Open Scope string_scope.

(* hasStruct *)
Fixpoint hasStruct (t : Type_) : bool :=
  match t with
  | TySlice elem _ => hasStruct elem
  | TyArray elem _ _ => hasStruct elem
  | TyTuple _ _ _ _ _ => true
  | _ => false
  end.

Section Binding.
Variable strings_ToUpper : string -> string.

(* the loop of structured; [exists_] is the map of the field names seen so
   far, a missing key reading as false *)
Fixpoint structured_loop (args : Arguments) (exists_ : string -> bool)
  : bool :=
  match args with
  | [] => true
  | out :: rest =>
      if String.eqb (Name out) "" then false
      else
        let field := ToCamelCase strings_ToUpper (Name out) in
        if String.eqb field "" || exists_ field then false
        else
          structured_loop rest
            (fun s => if String.eqb s field then true else exists_ s)
  end.

(* structured *)
Definition structured (args : Arguments) : bool :=
  if (len args <? 2)%Z then false
  else structured_loop args (fun _ => false).

End Binding.

Local Close Scope string_scope.

(** ** The callers of the codec (argument.go, event.go, error.go) *)

(** The errors these functions add to the ones of the codec, and their
    results. *)
Inductive caller_error : Set :=
  | errNilMap                          (* cannot unpack into a nil map *)
  | errInsufficientData (have : Z)     (* have %d, want at least 4 *)
  | errInvalidIdentifier (have want : list byte)
  | errCodec (e : error).              (* an error of the codec, passed on *)

Inductive Outcome (A : Type) : Type :=
  | Done (a : A)
  | Failed (e : caller_error)
  | Crashed.
Arguments Done {A} a.
Arguments Failed {A} e.
Arguments Crashed {A}.

(* the result of a call of the codec, as the caller returns it *)
Definition passed_on {A} (r : Result A) : Outcome A :=
  match r with
  | Ok a => Done a
  | Err e => Failed (errCodec e)
  | Panic => Crashed
  end.

(* a map[string]any that is not nil; a missing key reads as None *)
Definition GoMap := string -> option Value.

(* v[key] = value *)
Definition map_set (v : GoMap) (key : string) (value : Value) : GoMap :=
  fun s => if String.eqb s key then Some value else v s.

(* the loop of UnpackIntoMap over the arguments that are not indexed *)
Fixpoint store_values (nonIndexed : Arguments) (marshalledValues : list Value)
         (i : nat) (v : GoMap) : Result GoMap :=
  match nonIndexed with
  | [] => Ok v
  | arg :: rest =>
      match nth_error marshalledValues i with
      | None => Panic
      | Some value =>
          store_values rest marshalledValues (S i) (map_set v (Name arg) value)
      end
  end.

(* Arguments.UnpackIntoMap; the map is None when it is nil, and the result
   is the map as the call leaves it *)
Definition UnpackIntoMap (arguments : Arguments) (v : option GoMap)
           (data : list byte) : Outcome GoMap :=
  match v with
  | None => Failed errNilMap
  | Some v =>
      if len data =? 0 then
        if negb (len (NonIndexed arguments) =? 0)
        then Failed (errCodec errEmptyInput)
        else Done v
      else
        match UnpackValues arguments data with
        | Ok marshalledValues =>
            passed_on (store_values (NonIndexed arguments) marshalledValues 0 v)
        | Err e => Failed (errCodec e)
        | Panic => Crashed
        end
  end.

(* Event *)
Record Event : Set := mkEvent {
  Event_Name : string;
  Event_RawName : string;
  Event_Anonymous : bool;
  Event_Inputs : Arguments;
  Event_str : string;
  Event_Sig : string;
  Event_ID : list byte
}.

(* Error *)
Record Error : Set := mkError {
  Error_Name : string;
  Error_Inputs : Arguments;
  Error_str : string;
  Error_Sig : string;
  Error_ID : list byte
}.

Local Open Scope string_scope.

(* the loop of NewEvent, which is also the one of NewError: the inputs with
   a name given to those that have none, and the slices names and types *)
Fixpoint inputs_loop (inputs : Arguments) (i : nat)
  : Arguments * list string * list string :=
  match inputs with
  | [] => ([], [], [])
  | input :: rest =>
      let input' :=
        if String.eqb (Name input) ""
        then mkArgument ("arg" ++ Sprintf_d i) (Type_of input) (Indexed input)
        else input in
      let name :=
        if Indexed input
        then String_ (Type_of input) ++ " indexed " ++ Name input'
        else String_ (Type_of input) ++ " " ++ Name input' in
      let '(inputs', names, types) := inputs_loop rest (S i) in
      (input' :: inputs', name :: names, String_ (Type_of input) :: types)
  end.

Section Signatures.

(** [crypto.Keccak256] (crypto, not under src/): the functions are
    parametric in it. *)
Variable Keccak256 : list byte -> list byte.

(* NewEvent *)
Definition NewEvent (name rawName : string) (anonymous : bool)
           (inputs : Arguments) : Event :=
  let '(inputs, names, types) := inputs_loop inputs 0 in
  let str := "event " ++ rawName ++ "(" ++ String.concat ", " names ++ ")" in
  let sig := rawName ++ "(" ++ String.concat "," types ++ ")" in
  let id := BytesToHash (Keccak256 (list_byte_of_string sig)) in
  mkEvent name rawName anonymous inputs str sig id.

(* NewError *)
Definition NewError (name : string) (inputs : Arguments) : Error :=
  let '(inputs, names, types) := inputs_loop inputs 0 in
  let str := "error " ++ name ++ "(" ++ String.concat ", " names ++ ")" in
  let sig := name ++ "(" ++ String.concat "," types ++ ")" in
  let id := BytesToHash (Keccak256 (list_byte_of_string sig)) in
  mkError name inputs str sig id.

End Signatures.

Local Close Scope string_scope.

(* bytes.Equal *)
Definition bytes_Equal (a b : list byte) : bool :=
  (len a =? len b)
  && forallb (fun p => Byte.eqb (fst p) (snd p)) (combine a b).

(* Error.Unpack *)
Definition Error_Unpack (e : Error) (data : list byte)
  : Outcome (list Value) :=
  if len data <? 4 then Failed (errInsufficientData (len data))
  else
    match slice data 0 4, slice (Error_ID e) 0 4 with
    | Ok have, Ok want =>
        if negb (bytes_Equal have want)
        then Failed (errInvalidIdentifier have want)
        else
          match slice_from data 4 with
          | Ok rest => passed_on (Unpack (Error_Inputs e) rest)
          | _ => Crashed
          end
    | _, _ => Crashed
    end.

(** * Properties *)

(** ** Go integers and bytes *)

Lemma wrap_small (z : Z) : in_int z -> wrap z = z.
Proof.
  unfold in_int, wrap. intros H.
  rewrite Z.mod_small by lia. lia.
Qed.

Lemma wrap_range (z : Z) : in_int (wrap z).
Proof.
  unfold in_int, wrap.
  pose proof (Z.mod_pos_bound (z + 2 ^ 63) (2 ^ 64) ltac:(lia)). lia.
Qed.

Lemma int_add_exact (a b : Z) : in_int (a + b) -> int_add a b = a + b.
Proof. apply wrap_small. Qed.

Lemma int_mul_exact (a b : Z) : in_int (a * b) -> int_mul a b = a * b.
Proof. apply wrap_small. Qed.

Lemma len_app {A} (l1 l2 : list A) : len (l1 ++ l2) = len l1 + len l2.
Proof. unfold len. rewrite length_app. lia. Qed.

Lemma len_nonneg {A} (l : list A) : 0 <= len l.
Proof. unfold len. lia. Qed.

Lemma len_nil {A} : len (@nil A) = 0.
Proof. reflexivity. Qed.

Lemma len_cons {A} (x : A) (l : list A) : len (x :: l) = 1 + len l.
Proof. unfold len. simpl List.length. lia. Qed.

Lemma Kind_eqb_eq (a b : Kind) : Kind_eqb a b = true <-> a = b.
Proof. destruct a, b; simpl; split; congruence. Qed.

(** ** Go types *)

Lemma reflect_ArrayOf_Ok (length : Z) (elem typ : reflect_Type) :
  reflect_ArrayOf length elem = Ok typ -> typ = array_Type length elem.
Proof.
  unfold reflect_ArrayOf. intros H.
  destruct (length <? 0); [discriminate H|].
  destruct (_ && _); [discriminate H|].
  injection H as <-. reflexivity.
Qed.

Lemma reflect_ArrayOf_no_error (length : Z) (elem : reflect_Type) (e : error) :
  reflect_ArrayOf length elem <> Err e.
Proof.
  unfold reflect_ArrayOf. destruct (length <? 0); [discriminate|].
  destruct (_ && _); discriminate.
Qed.

Lemma reflect_ArrayOf_byte (length : Z) :
  0 <= length < 2 ^ 64 ->
  reflect_ArrayOf length Type_byte = Ok (array_Type length Type_byte).
Proof.
  intros H. unfold reflect_ArrayOf.
  destruct (Z.ltb_spec length 0); [lia|].
  cbn [Type_byte Size_]. change (1 >? 0) with true. cbn [andb].
  change (MaxUintptr / 1) with (2 ^ 64 - 1).
  destruct (Z.gtb_spec length (2 ^ 64 - 1)); [lia | reflexivity].
Qed.

Lemma GetType_slice (elem : Type_) (k : string) :
  GetType (TySlice elem k) = (e <- GetType elem ;; Ok (reflect_SliceOf e)).
Proof. reflexivity. Qed.

Lemma GetType_array (elem : Type_) (size : Z) (k : string) :
  GetType (TyArray elem size k)
  = (e <- GetType elem ;; reflect_ArrayOf size e).
Proof. reflexivity. Qed.

Lemma GetType_tuple rn elems names fields k :
  GetType (TyTuple rn elems names fields k)
  = Ok (GoType_of (TyTuple rn elems names fields k)).
Proof. reflexivity. Qed.

(* when GetType returns, it returns the Go type of t *)
Lemma GetType_Ok (t : Type_) (typ : reflect_Type) :
  GetType t = Ok typ -> typ = GoType_of t.
Proof.
  revert typ.
  induction t as [s k|s k|k|k|t k IHt|t s k IHt|rn elems names fields k IHe
                 |k|s k|k|k|k|k] using Type_tree_ind;
    intros typ H;
    try (injection H as <-; reflexivity).
  - rewrite GetType_slice in H.
    destruct (GetType t) as [e| |]; cbn [bind] in H; try discriminate H.
    injection H as <-. reflexivity.
  - rewrite GetType_array in H.
    destruct (GetType t) as [e| |]; cbn [bind] in H; try discriminate H.
    apply reflect_ArrayOf_Ok in H. rewrite (IHt e eq_refl) in H. exact H.
  - apply reflect_ArrayOf_Ok in H. exact H.
Qed.

Lemma GetType_no_error (t : Type_) (e : error) : GetType t <> Err e.
Proof.
  induction t as [s k|s k|k|k|t k IHt|t s k IHt|rn elems names fields k IHe
                 |k|s k|k|k|k|k] using Type_tree_ind;
    try discriminate.
  - rewrite GetType_slice.
    destruct (GetType t); cbn [bind]; [discriminate | exact IHt | discriminate].
  - rewrite GetType_array.
    destruct (GetType t); cbn [bind];
      [apply reflect_ArrayOf_no_error | exact IHt | discriminate].
  - apply reflect_ArrayOf_no_error.
Qed.

Lemma Kind_int_Type (unsigned : bool) (s : Z) :
  Kind_ (int_Type (reflectIntType unsigned s)) = reflectIntType unsigned s.
Proof.
  unfold reflectIntType.
  destruct (s =? 8); [destruct unsigned; reflexivity|].
  destruct (s =? 16); [destruct unsigned; reflexivity|].
  destruct (s =? 32); [destruct unsigned; reflexivity|].
  destruct (s =? 64); destruct unsigned; reflexivity.
Qed.

Lemma Kind_struct_Type (fields : list reflect_Type) :
  Kind_ (struct_Type fields) = KStruct.
Proof.
  unfold struct_Type. destruct (struct_layout fields 0 1 0) as [[a b] c].
  reflexivity.
Qed.

Lemma Kind_GoType_of (t : Type_) : Kind_ (GoType_of t) = GetType_Kind t.
Proof.
  destruct t; cbn [GoType_of GetType_Kind]; try reflexivity.
  - apply Kind_int_Type.
  - apply Kind_int_Type.
  - apply Kind_struct_Type.
Qed.

(* the kind of the type GetType returns *)
Lemma GetType_Kind_Ok (t : Type_) (typ : reflect_Type) :
  GetType t = Ok typ -> Kind_ typ = GetType_Kind t.
Proof. intros H. rewrite (GetType_Ok t typ H). apply Kind_GoType_of. Qed.

(* outside slices, arrays and fixed bytes GetType builds no array type *)
Lemma GetType_elementary (t : Type_) :
  T t <> SliceTy -> T t <> ArrayTy -> T t <> FixedBytesTy ->
  GetType t = Ok (GoType_of t).
Proof.
  intros Hs Ha Hf. destruct t; cbn [T] in *; try congruence; reflexivity.
Qed.

Lemma GetType_FixedBytes (s : Z) (k : string) :
  0 <= s < 2 ^ 64 ->
  GetType (TyFixedBytes s k) = Ok (GoType_of (TyFixedBytes s k)).
Proof. intros H. apply reflect_ArrayOf_byte. exact H. Qed.




Lemma GoType_of_tuple rn elems names fields k :
  GoType_of (TyTuple rn elems names fields k)
  = struct_Type (map GoType_of elems).
Proof.
  reflexivity.
Qed.

(** *** The memory a Go type takes *)

Lemma align_up_ge (x n : Z) : 0 < n -> x <= align_up x n.
Proof.
  intros Hn. unfold align_up.
  pose proof (Z.div_mod (x + n - 1) n ltac:(lia)).
  pose proof (Z.mod_pos_bound (x + n - 1) n Hn). lia.
Qed.

Lemma align_up_le (x n B q : Z) :
  0 < n -> B = n * q -> x <= B -> align_up x n <= B.
Proof.
  intros Hn -> Hx. unfold align_up.
  assert ((x + n - 1) / n < q + 1)
    by (apply Z.div_lt_upper_bound; lia).
  nia.
Qed.

Lemma align_up_multiple (x n : Z) : exists q, align_up x n = n * q.
Proof. exists ((x + n - 1) / n). unfold align_up. lia. Qed.

(* an alignment of 1, 2, 4 or 8 bytes *)
Definition small_align (a : Z) : Prop := a = 1 \/ a = 2 \/ a = 4 \/ a = 8.

Lemma small_align_divides (a q : Z) :
  small_align a -> exists q', 8 * q = a * q'.
Proof.
  intros [->|[->|[->| ->]]];
    [exists (8 * q) | exists (4 * q) | exists (2 * q) | exists q]; lia.
Qed.

(* a type whose values take some memory, aligned to at most 8 bytes *)
Definition takes_memory (typ : reflect_Type) : Prop :=
  0 < Size_ typ /\ small_align (Align_ typ).

(* the memory of values of these types, each in whole words of 8 bytes *)
Fixpoint words_of (fields : list reflect_Type) : Z :=
  match fields with
  | [] => 0
  | ft :: rest => align_up (Size_ ft) 8 + words_of rest
  end.

Lemma words_of_multiple (fields : list reflect_Type) :
  exists q, words_of fields = 8 * q.
Proof.
  induction fields as [|ft r [q IH]]; [exists 0; reflexivity|].
  cbn [words_of]. destruct (align_up_multiple (Size_ ft) 8) as [q' ->].
  exists (q' + q). lia.
Qed.

Lemma struct_layout_bound (fields : list reflect_Type) :
  Forall takes_memory fields ->
  forall size typalign lastzero B q,
    0 <= size <= B -> B = 8 * q -> small_align typalign ->
    exists size' typalign',
      struct_layout fields size typalign lastzero = (size', typalign', lastzero)
      /\ size <= size' <= B + words_of fields
      /\ small_align typalign'
      /\ (fields <> [] -> 0 < size').
Proof.
  induction 1 as [|ft r [Hs Ha] _ IH]; intros size ta lz B q Hsz HB Hta.
  - exists size, ta. cbn [struct_layout words_of].
    repeat split; try lia; try assumption. congruence.
  - cbn [struct_layout words_of].
    destruct (Z.eqb_spec (Size_ ft) 0) as [E|_]; [lia|].
    assert (Hn : 0 < Align_ ft) by (destruct Ha as [->|[->|[->| ->]]]; lia).
    pose proof (align_up_ge size (Align_ ft) Hn) as Hge.
    destruct (small_align_divides (Align_ ft) q Ha) as [q' Hq'].
    pose proof (align_up_le size (Align_ ft) B q' Hn ltac:(lia) ltac:(lia))
      as Hle.
    pose proof (align_up_ge (Size_ ft) 8 ltac:(lia)) as Hw.
    destruct (align_up_multiple (Size_ ft) 8) as [qw Hqw].
    destruct (IH (align_up size (Align_ ft) + Size_ ft)
                 (Z.max ta (Align_ ft)) lz
                 (B + align_up (Size_ ft) 8) (q + qw))
      as (size' & ta' & E & Hb & Hta' & _).
    + lia.
    + lia.
    + unfold small_align in *. lia.
    + exists size', ta'. split; [exact E|].
      split; [lia|]. split; [exact Hta'|]. intros _. lia.
Qed.

Lemma struct_Type_bound (fields : list reflect_Type) :
  Forall takes_memory fields -> fields <> [] ->
  takes_memory (struct_Type fields)
  /\ align_up (Size_ (struct_Type fields)) 8 <= words_of fields.
Proof.
  intros Hf Hne.
  destruct (struct_layout_bound fields Hf 0 1 0 0 0)
    as (size & ta & E & Hb & Hta & Hpos);
    [lia | lia | left; reflexivity|].
  specialize (Hpos Hne).
  unfold struct_Type. rewrite E.
  replace (0 =? size) with false by (symmetry; apply Z.eqb_neq; lia).
  rewrite andb_false_r. cbn [Size_ Align_].
  assert (Hn : 0 < ta) by (destruct Hta as [->|[->|[->| ->]]]; lia).
  destruct (words_of_multiple fields) as [q Hq].
  destruct (small_align_divides ta q Hta) as [q' Hq'].
  pose proof (align_up_ge size ta Hn).
  pose proof (align_up_le size ta (words_of fields) q' Hn ltac:(lia)
                          ltac:(lia)).
  split; [split; [cbn [Size_]; lia | exact Hta]|].
  apply (align_up_le _ 8 _ q); lia.
Qed.

(** ** Dynamic classification and static sizes *)

Lemma isDynamicType_tuple rn elems names fields k :
  isDynamicType (TyTuple rn elems names fields k) = existsb isDynamicType elems.
Proof.
  simpl. induction elems as [|e r IH]; simpl; [reflexivity|].
  destruct (isDynamicType e); simpl; [reflexivity | exact IH].
Qed.

Lemma sum_TypeSize_fold (elems : list Type_) (z : Z) :
  sum_TypeSize elems z = fold_left int_add (map getTypeSize elems) z.
Proof.
  revert z. induction elems as [|e r IH]; intros z; simpl; [reflexivity|].
  apply IH.
Qed.

Lemma getTypeSize_tuple rn elems names fields k :
  getTypeSize (TyTuple rn elems names fields k)
  = if isDynamicType (TyTuple rn elems names fields k) then 32
    else sum_TypeSize elems 0.
Proof.
  cbn [getTypeSize].
  destruct (isDynamicType (TyTuple rn elems names fields k)); simpl;
    [reflexivity|].
  generalize 0. induction elems as [|e r IH]; intros z; simpl; [reflexivity|].
  apply IH.
Qed.

(** C4. [isDynamicType t] is true exactly when t is a string, bytes, a slice
    of anything, an array whose element type is dynamic, or a tuple with at
    least one dynamic field; on every other type (integers, bool, address,
    fixed bytes, function, arrays and tuples of static types) it is false. *)
Theorem isDynamicType_characterisation (t : Type_) :
  isDynamicType t = true <->
  (T t = StringTy \/ T t = BytesTy \/ T t = SliceTy
   \/ (exists elem size k,
          t = TyArray elem size k /\ isDynamicType elem = true)
   \/ (T t = TupleTy
       /\ Exists (fun elem => isDynamicType elem = true) (TupleElems t))).
Proof.
  destruct t as [s k|s k|k|k|e k|e s k|rn elems names fields k|k|s k|k|k|k|k];
    try (simpl; split;
         [ intros H; try discriminate H; auto
         | intros [H|[H|[H|[(e' & s' & k' & H & _)|[H _]]]]];
           try discriminate H; auto ]; fail).
  - (* array *)
    simpl. split.
    + intros H. right; right; right; left. exists e, s, k. auto.
    + intros [H|[H|[H|[(e' & s' & k' & H & Hd)|[H _]]]]];
        try discriminate H.
      injection H as -> _ _. exact Hd.
  - (* tuple *)
    rewrite isDynamicType_tuple. simpl T. simpl TupleElems.
    rewrite existsb_exists, Exists_exists. split.
    + intros H. right; right; right; right. split; [reflexivity | exact H].
    + intros [H|[H|[H|[(e' & s' & k' & H & _)|[_ H]]]]];
        try discriminate H. exact H.
Qed.

Lemma getTypeSize_dynamic (t : Type_) :
  isDynamicType t = true -> getTypeSize t = 32.
Proof.
  intros Hd. destruct t; try reflexivity.
  - simpl in Hd. simpl. rewrite Hd. reflexivity.
  - rewrite getTypeSize_tuple, Hd. reflexivity.
Qed.

Lemma getTypeSize_elementary (t : Type_) :
  T t <> ArrayTy -> T t <> TupleTy -> getTypeSize t = 32.
Proof.
  intros Ha Ht. destruct t; try reflexivity; simpl in Ha, Ht; congruence.
Qed.

Lemma getTypeSize_array (elem : Type_) (size : Z) (k : string) :
  isDynamicType elem = false ->
  getTypeSize (TyArray elem size k)
  = if Kind_eqb (T elem) ArrayTy || Kind_eqb (T elem) TupleTy
    then int_mul size (getTypeSize elem)
    else int_mul size 32.
Proof. intros Hs. simpl. rewrite Hs. reflexivity. Qed.

(** C3, as the code has it.  [getTypeSize] is 32 on every dynamic type and
    on every elementary type; on an array of static elements it is the size
    times the element's [getTypeSize] when the element is an array or a
    tuple and the size times 32 otherwise; on a static tuple it is the sum of
    the fields' [getTypeSize].  The products and the sums are those of Go's
    [int], which wrap around modulo 2^64 ([int_mul], [int_add]): they are
    the exact ones only when the exact result is an [int] ([int_mul_exact],
    [int_add_exact]).  The function takes the Type and nothing else, so no
    run-time value can influence it. *)
Theorem getTypeSize_characterisation (t : Type_) :
  (isDynamicType t = true -> getTypeSize t = 32)
  /\ (T t <> ArrayTy -> T t <> TupleTy -> getTypeSize t = 32)
  /\ (forall elem size k,
         t = TyArray elem size k -> isDynamicType elem = false ->
         getTypeSize t
         = if Kind_eqb (T elem) ArrayTy || Kind_eqb (T elem) TupleTy
           then int_mul size (getTypeSize elem)
           else int_mul size 32)
  /\ (T t = TupleTy -> isDynamicType t = false ->
      getTypeSize t = fold_left int_add (map getTypeSize (TupleElems t)) 0).
Proof.
  repeat split.
  - apply getTypeSize_dynamic.
  - apply getTypeSize_elementary.
  - intros elem size k -> Hs. apply getTypeSize_array. exact Hs.
  - intros Ht Hs. destruct t; try discriminate Ht.
    rewrite getTypeSize_tuple, Hs. simpl TupleElems. apply sum_TypeSize_fold.
Qed.

Lemma getTypeSize_characterisation_witness :
  let t := TyArray (TyArray (TyUint 256 "uint256") 3 "uint256[3]") 2
                   "uint256[3][2]" in
  getTypeSize t = 2 * (3 * 32).
Proof.
  intros t.
  destruct (getTypeSize_characterisation t) as (_ & _ & H & _).
  rewrite (H _ _ _ eq_refl eq_refl). reflexivity.
Defined.

(** ** Argument lists: empty input, arity, indexed arguments *)

Lemma NonIndexed_nil_iff (arguments : Arguments) :
  NonIndexed arguments = [] <-> Forall (fun a => Indexed a = true) arguments.
Proof.
  induction arguments as [|a r IH]; simpl.
  - split; auto.
  - destruct (Indexed a) eqn:Hi; simpl.
    + rewrite IH. split; intros H.
      * constructor; assumption.
      * inversion H; assumption.
    + split; intros H; [discriminate|].
      inversion H; congruence.
Qed.

Lemma len_zero_iff {A} (l : list A) : len l = 0 <-> l = [].
Proof.
  destruct l as [|a l]; split; intros H; try reflexivity; discriminate H.
Qed.

(** C6. [Unpack] of the empty byte string returns the empty list of values
    when every argument is indexed (no non-indexed argument), and fails with
    the empty-input error when some argument is not indexed; an error result
    carries no values. *)
Theorem Unpack_empty_input (arguments : Arguments) :
  (Forall (fun a => Indexed a = true) arguments ->
   Unpack arguments [] = Ok [])
  /\ (Exists (fun a => Indexed a = false) arguments ->
      Unpack arguments [] = Err errEmptyInput).
Proof.
  unfold Unpack. rewrite len_nil. simpl.
  split; intros H.
  - apply NonIndexed_nil_iff in H. rewrite H. reflexivity.
  - destruct (len (NonIndexed arguments) =? 0) eqn:E; [|reflexivity].
    apply Z.eqb_eq, len_zero_iff, NonIndexed_nil_iff in E.
    apply Exists_exists in H as (a & Hin & Ha).
    rewrite Forall_forall in E. specialize (E a Hin). congruence.
Qed.

Lemma Unpack_empty_input_witness :
  Unpack [mkArgument "from" (TyAddress "address") true] [] = Ok []
  /\ Unpack [mkArgument "value" (TyUint 256 "uint256") false] []
     = Err errEmptyInput.
Proof.
  split.
  - apply (proj1 (Unpack_empty_input _)). repeat constructor.
  - apply (proj2 (Unpack_empty_input _)). left. reflexivity.
Defined.

(** ** Booleans *)

Lemma slice_prefix {A} (s : list A) (n : nat) :
  (n <= List.length s)%nat -> slice s 0 (Z.of_nat n) = Ok (firstn n s).
Proof.
  intros H. unfold slice, len.
  replace ((0 <=? 0) && (0 <=? Z.of_nat n)
           && (Z.of_nat n <=? Z.of_nat (List.length s))) with true.
  - simpl skipn. rewrite Z.sub_0_r, Nat2Z.id. reflexivity.
  - symmetry. rewrite !andb_true_iff, !Z.leb_le. lia.
Qed.

Lemma b2z_inj (a b : byte) : b2z a = b2z b -> a = b.
Proof.
  unfold b2z. intros H. apply N2Z.inj in H.
  apply (f_equal Byte.of_N) in H. rewrite !Byte.of_to_N in H.
  congruence.
Qed.

Lemma b2z_zero_iff (b : byte) : b2z b = 0 <-> b = x00.
Proof.
  split; [|intros ->; reflexivity].
  intros H. apply b2z_inj. exact H.
Qed.

Lemma existsb_nonzero_false (l : list byte) :
  existsb (fun b => negb (b2z b =? 0)) l = false <-> l = repeat x00 (List.length l).
Proof.
  induction l as [|b r IH]; simpl; [split; reflexivity|].
  rewrite orb_false_iff, negb_false_iff, Z.eqb_eq, b2z_zero_iff, IH.
  split.
  - intros [-> H]. congruence.
  - intros H. injection H as -> H. auto.
Qed.

Lemma word32_split (word : list byte) :
  List.length word = 32%nat ->
  exists last, word = firstn 31 word ++ [last]
               /\ nth_error word 31 = Some last
               /\ List.length (firstn 31 word) = 31%nat.
Proof.
  intros H.
  assert (H31 : List.length (firstn 31 word) = 31%nat)
    by (rewrite length_firstn; lia).
  destruct (skipn 31 word) as [|last r] eqn:E.
  - apply (f_equal (@List.length _)) in E. rewrite length_skipn in E.
    simpl in E. lia.
  - assert (r = []).
    { apply (f_equal (@List.length _)) in E. rewrite length_skipn in E.
      simpl in E. destruct r; [reflexivity | simpl in E; lia]. }
    subst r. exists last. repeat split; [| |exact H31].
    + rewrite <- E. symmetry. apply firstn_skipn.
    + rewrite <- (firstn_skipn 31 word) at 1. rewrite E.
      rewrite nth_error_app2 by lia. rewrite H31. reflexivity.
Qed.

(** C7. On a 32-byte word [readBool] returns false on the all-zero word, true
    on the word whose first 31 bytes are zero and whose last byte is 1, and
    fails with the improperly-encoded-boolean error on every other word. *)
Theorem readBool_characterisation (word : list byte) :
  List.length word = 32%nat ->
  (word = repeat x00 31 ++ [x00] -> readBool word = Ok false)
  /\ (word = repeat x00 31 ++ [x01] -> readBool word = Ok true)
  /\ (word <> repeat x00 31 ++ [x00] -> word <> repeat x00 31 ++ [x01] ->
      readBool word = Err errBadBool).
Proof.
  intros Hlen.
  split; [intros ->; reflexivity|].
  split; [intros ->; reflexivity|].
  intros H0 H1.
  destruct (word32_split word Hlen) as (last & Hw & Hn & H31).
  unfold readBool.
  pose proof (slice_prefix word 31 ltac:(lia)) as Hs.
  change (Z.of_nat 31) with 31 in Hs. rewrite Hs. cbn [bind].
  destruct (existsb _ (firstn 31 word)) eqn:E; [reflexivity|].
  apply existsb_nonzero_false in E. rewrite H31 in E.
  rewrite Hn.
  destruct (b2z last =? 0) eqn:E0.
  - apply Z.eqb_eq, b2z_zero_iff in E0. subst last.
    exfalso. apply H0. rewrite Hw, E. reflexivity.
  - destruct (b2z last =? 1) eqn:E1; [|reflexivity].
    apply Z.eqb_eq in E1.
    assert (last = x01) by (apply b2z_inj; exact E1). subst last.
    exfalso. apply H1. rewrite Hw, E. reflexivity.
Qed.

Lemma readBool_characterisation_witness :
  readBool (repeat x00 31 ++ [x01]) = Ok true
  /\ readBool (repeat x00 31 ++ [x02]) = Err errBadBool.
Proof.
  split.
  - apply (readBool_characterisation (repeat x00 31 ++ [x01]));
      reflexivity.
  - apply (readBool_characterisation (repeat x00 31 ++ [x02]));
      [reflexivity | discriminate | discriminate].
Defined.

(** ** Arity of Pack *)

Definition is_arity_error (e : error) : Prop :=
  match e with
  | errArgCountMismatch _ _ => True
  | _ => False
  end.

Ltac bind_cases H :=
  repeat match type of H with
         | bind ?r _ = _ =>
             let E := fresh "E" in
             destruct r eqn:E; cbn [bind] in H
         | (if ?c then _ else _) = _ =>
             let E := fresh "E" in
             destruct c eqn:E
         | match ?r with _ => _ end = _ =>
             let E := fresh "E" in
             destruct r eqn:E
         end.

Lemma Len_no_error v e : Len v <> Err e.
Proof. destruct v; discriminate. Qed.

Lemma Elements_no_error v e : Elements v <> Err e.
Proof. destruct v; discriminate. Qed.

Lemma Elem_Kind_no_error v e : Elem_Kind v <> Err e.
Proof. destruct v; discriminate. Qed.

Lemma bytes_of_Values_no_error vs e : bytes_of_Values vs <> Err e.
Proof.
  induction vs as [|v r IH]; simpl; [discriminate|].
  destruct v as [| |[| | |] n| | | | |]; simpl; try discriminate.
  destruct (bytes_of_Values r); simpl; congruence.
Qed.

Lemma Bytes_no_error v e : Bytes v <> Err e.
Proof.
  destruct v as [| | | | |[|w|[| | |]| | | | |] vs| |]; simpl;
    try discriminate.
  apply bytes_of_Values_no_error.
Qed.

Lemma mustArrayToByteSlice_no_error v e : mustArrayToByteSlice v <> Err e.
Proof.
  destruct v as [| | | | | |[|w|[| | |]| | | | |] vs|]; simpl; discriminate.
Qed.

Lemma packNum_no_error v e : packNum v <> Err e.
Proof. destruct v; discriminate. Qed.

Ltac reflect_no_error :=
  match goal with
  | H : Len _ = Err _ |- _ => exfalso; exact (Len_no_error _ _ H)
  | H : Elements _ = Err _ |- _ => exfalso; exact (Elements_no_error _ _ H)
  | H : Elem_Kind _ = Err _ |- _ => exfalso; exact (Elem_Kind_no_error _ _ H)
  | H : Bytes _ = Err _ |- _ => exfalso; exact (Bytes_no_error _ _ H)
  | H : mustArrayToByteSlice _ = Err _ |- _ =>
      exfalso; exact (mustArrayToByteSlice_no_error _ _ H)
  | H : packNum _ = Err _ |- _ => exfalso; exact (packNum_no_error _ _ H)
  | H : GetType _ = Err _ |- _ => exfalso; exact (GetType_no_error _ _ H)
  | H : (if ?c then mustArrayToByteSlice _ else Ok _) = Err _ |- _ =>
      exfalso; destruct c;
      [exact (mustArrayToByteSlice_no_error _ _ H) | discriminate H]
  end.

Lemma sliceTypeCheck_error_kind t :
  forall v e, sliceTypeCheck t v = Err e -> ~ is_arity_error e.
Proof.
  induction t using Type_tree_ind; intros v e Hx; simpl in Hx;
    try discriminate Hx.
  - bind_cases Hx; try discriminate Hx; try reflect_no_error;
      try (injection Hx as <-; exact (fun x => x)).
    eapply IHt; eassumption.
  - bind_cases Hx; try discriminate Hx; try reflect_no_error;
      try (injection Hx as <-; exact (fun x => x)).
    eapply IHt; eassumption.
Qed.

Lemma typeCheck_error_kind t v e :
  typeCheck t v = Err e -> ~ is_arity_error e.
Proof.
  unfold typeCheck. intros H.
  bind_cases H; try discriminate H; try reflect_no_error;
    try (injection H as <-; exact (fun x => x)).
  eapply sliceTypeCheck_error_kind; eassumption.
Qed.

Lemma packElement_error_kind t v e :
  packElement t v = Err e -> ~ is_arity_error e.
Proof.
  unfold packElement. intros H.
  bind_cases H; try discriminate H; try reflect_no_error;
    try (injection H as <-; exact (fun x => x)).
Qed.

Section Encoder_errors.
Variable m : list string -> Value -> option (string -> string).

Lemma pack_elements_error_kind pack_elem req vs :
  (forall v e, pack_elem v = Err e -> ~ is_arity_error e) ->
  forall offset ret tail e,
    pack_elements pack_elem req vs offset ret tail = Err e ->
    ~ is_arity_error e.
Proof.
  intros Hp. induction vs as [|vi rest IH]; intros offset ret tail e H;
    simpl in H; [discriminate H|].
  destruct (pack_elem vi) eqn:E; cbn [bind] in H; try discriminate H.
  - destruct (negb req); eapply IH; eassumption.
  - injection H as <-. eapply Hp; eassumption.
Qed.

Lemma pack_fields_error_kind pk names fm v elems :
  Forall (fun elem => forall v e, pk elem v = Err e -> ~ is_arity_error e)
         elems ->
  forall i offset ret tail e,
    pack_fields pk names fm v elems i offset ret tail = Err e ->
    ~ is_arity_error e.
Proof.
  induction 1 as [|elem rest Hp _ IH]; intros i offset ret tail e H;
    simpl in H; [discriminate H|].
  destruct (nth_error names i); [|discriminate H].
  destruct (FieldByName v (fm s)) as [[f|]| |] eqn:Ef; cbn [bind] in H;
    try discriminate H.
  - destruct (pk elem f) eqn:E; cbn [bind] in H; try discriminate H.
    + destruct (isDynamicType elem); eapply IH; eassumption.
    + injection H as <-. eapply Hp; eassumption.
  - injection H as <-. exact (fun x => x).
  - destruct v; discriminate Ef.
Qed.

Lemma pack_error_kind t :
  forall v e, pack m t v = Err e -> ~ is_arity_error e.
Proof.
  induction t using Type_tree_ind; intros v e Hpk;
    try (simpl in Hpk;
         destruct (typeCheck _ v) eqn:Etc; cbn [bind] in Hpk;
         [ eapply packElement_error_kind; eassumption
         | injection Hpk as <-; eapply typeCheck_error_kind; eassumption
         | discriminate Hpk ]; fail).
  - (* slice *)
    simpl in Hpk.
    destruct (typeCheck _ v) eqn:Etc; cbn [bind] in Hpk;
      [ | injection Hpk as <-; eapply typeCheck_error_kind; eassumption
        | discriminate Hpk ].
    destruct (Len v) eqn:El; cbn [bind] in Hpk;
      [| destruct v; discriminate El | discriminate Hpk].
    destruct (Elements v) eqn:Ee; cbn [bind] in Hpk;
      [| destruct v; discriminate Ee | discriminate Hpk].
    eapply pack_elements_error_kind; [exact IHt | exact Hpk].
  - (* array *)
    simpl in Hpk.
    destruct (typeCheck _ v) eqn:Etc; cbn [bind] in Hpk;
      [ | injection Hpk as <-; eapply typeCheck_error_kind; eassumption
        | discriminate Hpk ].
    destruct (Len v) eqn:El; cbn [bind] in Hpk;
      [| destruct v; discriminate El | discriminate Hpk].
    destruct (Elements v) eqn:Ee; cbn [bind] in Hpk;
      [| destruct v; discriminate Ee | discriminate Hpk].
    eapply pack_elements_error_kind; [exact IHt | exact Hpk].
  - (* tuple *)
    simpl in Hpk.
    destruct (typeCheck _ v) eqn:Etc; cbn [bind] in Hpk;
      [ | injection Hpk as <-; eapply typeCheck_error_kind; eassumption
        | discriminate Hpk ].
    destruct (m names v) as [fm|].
    + eapply pack_fields_error_kind; [exact H | exact Hpk].
    + injection Hpk as <-. exact (fun x => x).
Qed.

Lemma Pack_loop_error_kind abiArgs args :
  forall i off ret vi e,
    Pack_loop m abiArgs args i off ret vi = Err e -> ~ is_arity_error e.
Proof.
  induction args as [|a rest IH]; intros i off ret vi e H; simpl in H;
    [discriminate H|].
  destruct (nth_error abiArgs i) as [input|]; [|discriminate H].
  destruct (pack m (Type_of input) a) eqn:E; cbn [bind] in H;
    try discriminate H.
  - destruct (isDynamicType (Type_of input)); eapply IH; eassumption.
  - injection H as <-. eapply pack_error_kind; eassumption.
Qed.

(** C8. [Pack] fails with the argument-count-mismatch error whenever the
    number of supplied values differs from the number of arguments of the
    list, indexed ones included; when the two numbers agree it goes on to
    the encoding loop, and that loop never reports the mismatch error, so
    the error is returned exactly when the numbers differ. *)
Theorem Pack_arity (arguments : Arguments) (args : list Value) :
  (len args <> len arguments ->
   Pack m arguments args
   = Err (errArgCountMismatch (len args) (len arguments)))
  /\ (len args = len arguments ->
      Pack m arguments args
      = Pack_loop m arguments args 0
                  (sum_TypeSize (map Type_of arguments) 0) [] [])
  /\ (forall e, Pack m arguments args = Err e -> is_arity_error e ->
                len args <> len arguments).
Proof.
  unfold Pack. repeat split.
  - intros H. apply Z.eqb_neq in H. rewrite H. reflexivity.
  - intros H. apply Z.eqb_eq in H. rewrite H. reflexivity.
  - intros e H He Hl. apply Z.eqb_eq in Hl. rewrite Hl in H. simpl in H.
    eapply Pack_loop_error_kind; eassumption.
Qed.

End Encoder_errors.

(** A field map for the examples: every raw name is mapped to itself. *)
Definition same_name_fields (names : list string) (v : Value)
  : option (string -> string) := Some (fun name => name).

Lemma Pack_arity_witness :
  let arguments := [mkArgument "to" (TyAddress "address") true;
                    mkArgument "value" (TyUint 256 "uint256") false] in
  Pack same_name_fields arguments [VBig 1] = Err (errArgCountMismatch 1 2).
Proof.
  intros arguments.
  apply (proj1 (Pack_arity same_name_fields arguments [VBig 1])).
  discriminate.
Defined.

(** ** Indexed arguments *)

(* the same argument, not indexed *)
Definition clear_Indexed (a : Argument) : Argument :=
  mkArgument (Name a) (Type_of a) false.

Lemma UnpackValues_loop_NonIndexed data arguments :
  forall index virtualArgs,
    UnpackValues_loop data arguments index virtualArgs
    = UnpackValues_loop data (NonIndexed arguments) index virtualArgs.
Proof.
  induction arguments as [|a r IH]; intros index va; simpl; [reflexivity|].
  destruct (Indexed a) eqn:Hi; simpl.
  - apply IH.
  - rewrite Hi.
    destruct (toGoType _ (Type_of a) data); cbn [bind]; try reflexivity.
    rewrite IH. reflexivity.
Qed.

Lemma NonIndexed_idempotent arguments :
  NonIndexed (NonIndexed arguments) = NonIndexed arguments.
Proof.
  induction arguments as [|a r IH]; simpl; [reflexivity|].
  destruct (Indexed a) eqn:Hi; simpl; [exact IH|].
  rewrite Hi. simpl. rewrite IH. reflexivity.
Qed.

Lemma Pack_loop_clear_Indexed m abiArgs args :
  forall i off ret vi,
    Pack_loop m (map clear_Indexed abiArgs) args i off ret vi
    = Pack_loop m abiArgs args i off ret vi.
Proof.
  induction args as [|a rest IH]; intros i off ret vi; simpl; [reflexivity|].
  rewrite nth_error_map.
  destruct (nth_error abiArgs i) as [input|]; simpl; [|reflexivity].
  destruct (pack m (Type_of input) a); cbn [bind]; try reflexivity.
  destruct (isDynamicType (Type_of input)); apply IH.
Qed.

(** C5, as the code has it.  [UnpackValues] and [Unpack] decode the
    non-indexed arguments only: an indexed argument is skipped and takes no
    part of the input.  [Pack] never looks at the flag: it encodes every
    argument of the list, and its result is the one for the same list with
    every flag cleared. *)
Theorem indexed_arguments
        (m : list string -> Value -> option (string -> string))
        (arguments : Arguments) :
  (forall data,
      UnpackValues arguments data = UnpackValues (NonIndexed arguments) data)
  /\ (forall data,
         Unpack arguments data = Unpack (NonIndexed arguments) data)
  /\ (forall args,
         Pack m arguments args = Pack m (map clear_Indexed arguments) args).
Proof.
  repeat split.
  - intros data. apply UnpackValues_loop_NonIndexed.
  - intros data. unfold Unpack, UnpackValues.
    rewrite NonIndexed_idempotent, <- UnpackValues_loop_NonIndexed.
    reflexivity.
  - intros args. unfold Pack. unfold len. rewrite length_map, map_map.
    simpl. destruct (negb _); [reflexivity|].
    symmetry. apply Pack_loop_clear_Indexed.
Qed.

(** C5 as stated fails: an indexed argument does contribute to the output of
    [Pack].  The one-argument list with an indexed uint256 packs the value 5
    to a 32-byte head word, where the list without the indexed argument
    packs to nothing. *)
Lemma Pack_encodes_indexed_argument :
  let arguments := [mkArgument "value" (TyUint 256 "uint256") true] in
  Pack same_name_fields arguments [VBig 5] = Ok (U256Bytes 5)
  /\ len (U256Bytes 5) = 32
  /\ Pack same_name_fields (NonIndexed arguments) [] = Ok [].
Proof. repeat split. Qed.

(** ** Lengths of encodings *)

Lemma len_be_bytes (n : nat) (z : Z) : len (be_bytes n z) = Z.of_nat n.
Proof.
  revert z. induction n as [|n IH]; intros z; [reflexivity|].
  cbn [be_bytes]. rewrite len_app, IH, len_cons, len_nil. lia.
Qed.

Lemma len_U256Bytes (n : Z) : len (U256Bytes n) = 32.
Proof. unfold U256Bytes. rewrite len_be_bytes. reflexivity. Qed.

Lemma len_PaddedBigBytes (n : Z) : len (PaddedBigBytes n 32) = 32.
Proof. unfold PaddedBigBytes. rewrite len_be_bytes. reflexivity. Qed.

Lemma Ok_inj {A} (a b : A) : Ok a = Ok b -> a = b.
Proof. congruence. Qed.

Lemma len_packNum_int (n : Z) : len (packNum_int n) = 32.
Proof. apply len_U256Bytes. Qed.

Lemma len_repeat {A} (x : A) (n : nat) : len (repeat x n) = Z.of_nat n.
Proof. unfold len. rewrite repeat_length. reflexivity. Qed.

Lemma len_RightPadBytes (s : list byte) (l : Z) :
  len (RightPadBytes s l) = Z.max l (len s).
Proof.
  unfold RightPadBytes. destruct (l <=? len s) eqn:E.
  - apply Z.leb_le in E. lia.
  - apply Z.leb_gt in E. rewrite len_app, len_repeat. lia.
Qed.

Lemma len_LeftPadBytes (s : list byte) (l : Z) :
  len (LeftPadBytes s l) = Z.max l (len s).
Proof.
  unfold LeftPadBytes. destruct (l <=? len s) eqn:E.
  - apply Z.leb_le in E. lia.
  - apply Z.leb_gt in E. rewrite len_app, len_repeat. lia.
Qed.

Lemma len_bytes_of_Values vs bs :
  bytes_of_Values vs = Ok bs -> len bs = len vs.
Proof.
  revert bs. induction vs as [|v r IH]; intros bs H; simpl in H.
  - injection H as <-. reflexivity.
  - destruct (byte_of_Value v); cbn [bind] in H; try discriminate H.
    destruct (bytes_of_Values r); cbn [bind] in H; try discriminate H.
    injection H as <-. rewrite !len_cons, (IH _ eq_refl). reflexivity.
Qed.

(* the padded length (l+31)/32*32 of packBytesSlice, for a length that
   leaves room for the padding *)
Lemma padded_length (l : Z) :
  0 <= l < 2 ^ 63 - 32 ->
  int_mul (int_div (int_add l 31) 32) 32 = (l + 31) / 32 * 32.
Proof.
  intros H. unfold int_mul, int_div, int_add.
  rewrite (wrap_small (l + 31)) by (unfold in_int; lia).
  rewrite Z.quot_div_nonneg by lia.
  assert (0 <= (l + 31) / 32 * 32 <= l + 31).
  { pose proof (Z.mul_div_le (l + 31) 32 ltac:(lia)).
    pose proof (Z.div_pos (l + 31) 32 ltac:(lia) ltac:(lia)). lia. }
  assert (0 <= (l + 31) / 32 <= l + 31).
  { pose proof (Z.div_pos (l + 31) 32 ltac:(lia) ltac:(lia)). lia. }
  rewrite (wrap_small ((l + 31) / 32)) by (unfold in_int; lia).
  apply wrap_small. unfold in_int. lia.
Qed.

Definition aligned (bs : list byte) : Prop := exists k, len bs = 32 * k.

Lemma aligned_mod (bs : list byte) : aligned bs <-> len bs mod 32 = 0.
Proof.
  split.
  - intros [k ->]. rewrite Z.mul_comm. apply Z_mod_mult.
  - intros H. exists (len bs / 32). apply Z.div_exact in H; lia.
Qed.

Lemma aligned_nil : aligned [].
Proof. exists 0. reflexivity. Qed.

Lemma aligned_app a b : aligned a -> aligned b -> aligned (a ++ b).
Proof. intros [x Hx] [y Hy]. exists (x + y). rewrite len_app. lia. Qed.

Lemma aligned_32 bs : len bs = 32 -> aligned bs.
Proof. intros H. exists 1. lia. Qed.

Lemma aligned_packBytesSlice (s : list byte) :
  len (packBytesSlice s (len s)) < 2 ^ 63 ->
  aligned (packBytesSlice s (len s)).
Proof.
  unfold packBytesSlice. rewrite len_app, len_packNum_int, len_RightPadBytes.
  intros H. pose proof (len_nonneg s).
  assert (Hl : 0 <= len s < 2 ^ 63 - 32) by lia.
  exists (1 + (len s + 31) / 32).
  rewrite len_app, len_packNum_int, len_RightPadBytes, padded_length by lia.
  pose proof (Z.mod_pos_bound (len s + 31) 32 ltac:(lia)).
  pose proof (Z.div_mod (len s + 31) 32 ltac:(lia)). lia.
Qed.

(* what typeCheck has established when packElement runs *)
Lemma typeCheck_elementary t v :
  T t <> SliceTy -> T t <> ArrayTy ->
  typeCheck t v = Ok tt -> Kind_of v = GetType_Kind t.
Proof.
  unfold typeCheck. intros Hs Ha H.
  destruct (Kind_eqb (T t) SliceTy) eqn:E1;
    [apply Kind_eqb_eq in E1; contradiction|].
  destruct (Kind_eqb (T t) ArrayTy) eqn:E2;
    [apply Kind_eqb_eq in E2; contradiction|].
  simpl in H.
  destruct (GetType t) as [typ| |] eqn:Eg; cbn [bind] in H;
    try discriminate H.
  rewrite (GetType_Kind_Ok _ _ Eg) in H.
  destruct (GoKind_eqb (GetType_Kind t) (Kind_of v)) eqn:E; [|discriminate H].
  clear H. destruct (GetType_Kind t) as [|[]|[]| | | | |], (Kind_of v) as [|[]|[]| | | | |];
    simpl in E; congruence.
Qed.

(** The byte arrays handed to an address, function or fixed-bytes type have
    at most 32 bytes, at every place of the value that the encoder packs. *)
Section fields_all.
Variable P : Type_ -> Value -> Prop.
Variable names : list string.
Variable v : Value.
Variable fm : string -> string.

(* P holds of every field that pack_fields looks up, from position i on *)
Fixpoint fields_all (elems : list Type_) (i : nat) : Prop :=
  match elems with
  | [] => True
  | elem :: rest =>
      (forall name f,
          nth_error names i = Some name ->
          FieldByName v (fm name) = Ok (Some f) ->
          P elem f)
      /\ fields_all rest (S i)
  end.
End fields_all.

Section fixed_le32.
Variable m : list string -> Value -> option (string -> string).

Fixpoint fixed_le32 (t : Type_) (v : Value) {struct t} : Prop :=
  match t with
  | TyAddress _ | TyFunction _ | TyFixedBytes _ _ =>
      forall l, Len v = Ok l -> l <= 32
  | TySlice elem _ | TyArray elem _ _ =>
      forall vs, Elements v = Ok vs -> Forall (fixed_le32 elem) vs
  | TyTuple _ elems names _ _ =>
      forall fm, m names v = Some fm ->
                 fields_all fixed_le32 names v fm elems 0%nat
  | _ => True
  end.

Lemma packElement_aligned t v bs :
  T t <> SliceTy -> T t <> ArrayTy -> T t <> TupleTy ->
  typeCheck t v = Ok tt ->
  packElement t v = Ok bs ->
  fixed_le32 t v -> len bs < 2 ^ 63 -> aligned bs.
Proof.
  intros Hs Ha Ht Htc Hp Hf Hl.
  pose proof (typeCheck_elementary t v Hs Ha Htc) as Hk.
  destruct t; simpl in Hs, Ha, Ht; try congruence; clear Hs Ha Ht;
    unfold packElement in Hp; cbn [T] in Hp; cbn [GetType_Kind] in Hk.
  - (* int *)
    destruct v; try discriminate Hp; injection Hp as <-;
      apply aligned_32, len_U256Bytes.
  - (* uint *)
    destruct v; try discriminate Hp;
      try (injection Hp as <-; apply aligned_32, len_U256Bytes).
    destruct (n <? 0); [discriminate Hp|].
    injection Hp as <-. apply aligned_32, len_U256Bytes.
  - (* bool *)
    destruct v as [[|]| | | | | | |]; try discriminate Hp;
      apply Ok_inj in Hp; subst bs; apply aligned_32, len_PaddedBigBytes.
  - (* string *)
    destruct v; try discriminate Hp. injection Hp as <-.
    apply aligned_packBytesSlice. exact Hl.
  - (* address *)
    rewrite Hk in Hp. simpl in Hp.
    destruct v as [| | | | | |[|w|[| | |]| | | | |] vs|]; try discriminate Hk;
      try discriminate Hp.
    simpl in Hp. destruct (bytes_of_Values vs) as [b| |] eqn:Eb;
      cbn [bind] in Hp; try discriminate Hp.
    injection Hp as <-. apply aligned_32. rewrite len_LeftPadBytes.
    apply len_bytes_of_Values in Eb. specialize (Hf _ eq_refl). lia.
  - (* fixed bytes *)
    rewrite Hk in Hp. simpl in Hp.
    destruct v as [| | | | | |[|w|[| | |]| | | | |] vs|]; try discriminate Hk;
      try discriminate Hp.
    simpl in Hp. destruct (bytes_of_Values vs) as [b| |] eqn:Eb;
      cbn [bind] in Hp; try discriminate Hp.
    injection Hp as <-. apply aligned_32. rewrite len_RightPadBytes.
    apply len_bytes_of_Values in Eb. specialize (Hf _ eq_refl). lia.
  - (* bytes *)
    rewrite Hk in Hp. simpl in Hp.
    destruct v as [| | | | |[|w|[| | |]| | | | |] vs| |]; try discriminate Hk;
      try discriminate Hp.
    cbn [Bytes Len bind] in Hp.
    destruct (bytes_of_Values vs) as [b| |] eqn:Eb;
      cbn [bind] in Hp; try discriminate Hp.
    injection Hp as <-. apply len_bytes_of_Values in Eb. rewrite <- Eb in *.
    apply aligned_packBytesSlice. exact Hl.
  - (* hash *) discriminate Hp.
  - (* fixed point *) discriminate Hp.
  - (* function *)
    rewrite Hk in Hp. simpl in Hp.
    destruct v as [| | | | | |[|w|[| | |]| | | | |] vs|]; try discriminate Hk;
      try discriminate Hp.
    simpl in Hp. destruct (bytes_of_Values vs) as [b| |] eqn:Eb;
      cbn [bind] in Hp; try discriminate Hp.
    injection Hp as <-. apply aligned_32. rewrite len_RightPadBytes.
    apply len_bytes_of_Values in Eb. specialize (Hf _ eq_refl). lia.
Qed.

End fixed_le32.

Section Encoder_lengths.
Variable m : list string -> Value -> option (string -> string).

Lemma pack_elements_grows pk req vs :
  forall off ret tail out,
    pack_elements pk req vs off ret tail = Ok out ->
    len ret + len tail <= len out.
Proof.
  induction vs as [|vi rest IH]; intros off ret tail out H; simpl in H.
  - apply Ok_inj in H. subst out. rewrite len_app. lia.
  - destruct (pk vi) as [val| |]; cbn [bind] in H; try discriminate H.
    destruct (negb req); apply IH in H; rewrite ?len_app in H;
      pose proof (len_nonneg val); pose proof (len_nonneg (packNum_int off));
      lia.
Qed.

Lemma pack_elements_aligned pk req vs :
  Forall (fun v => forall val, pk v = Ok val -> len val < 2 ^ 63 -> aligned val)
         vs ->
  forall off ret tail out,
    pack_elements pk req vs off ret tail = Ok out ->
    len out < 2 ^ 63 -> aligned ret -> aligned tail -> aligned out.
Proof.
  induction 1 as [|vi rest Hvi _ IH]; intros off ret tail out H Hl Hr Ht;
    simpl in H.
  - apply Ok_inj in H. subst out. apply aligned_app; assumption.
  - destruct (pk vi) as [val| |] eqn:E; cbn [bind] in H; try discriminate H.
    pose proof (len_nonneg ret). pose proof (len_nonneg tail).
    assert (Hval : aligned val).
    { apply Hvi; [reflexivity|].
      destruct (negb req); apply pack_elements_grows in H;
        rewrite ?len_app in H; pose proof (len_nonneg (packNum_int off));
        lia. }
    destruct (negb req); apply (IH _ _ _ _ H); try assumption;
      try (apply aligned_app; try assumption).
    apply aligned_32, len_packNum_int.
Qed.

Lemma pack_fields_grows pk names fm v elems :
  forall i off ret tail out,
    pack_fields pk names fm v elems i off ret tail = Ok out ->
    len ret + len tail <= len out.
Proof.
  induction elems as [|elem rest IH]; intros i off ret tail out H; simpl in H.
  - apply Ok_inj in H. subst out. rewrite len_app. lia.
  - destruct (nth_error names i); [|discriminate H].
    destruct (FieldByName v (fm s)) as [[f|]| |]; cbn [bind] in H;
      try discriminate H.
    destruct (pk elem f) as [val| |]; cbn [bind] in H; try discriminate H.
    destruct (isDynamicType elem); apply IH in H; rewrite ?len_app in H;
      pose proof (len_nonneg val); pose proof (len_nonneg (packNum_int off));
      lia.
Qed.

Lemma pack_fields_aligned (P : Type_ -> Value -> Prop) pk names fm v elems :
  Forall (fun elem => forall f val,
              pk elem f = Ok val -> P elem f -> len val < 2 ^ 63 ->
              aligned val) elems ->
  forall i off ret tail out,
    pack_fields pk names fm v elems i off ret tail = Ok out ->
    fields_all P names v fm elems i ->
    len out < 2 ^ 63 -> aligned ret -> aligned tail -> aligned out.
Proof.
  induction 1 as [|elem rest He _ IH]; intros i off ret tail out H Hf Hl Hr Ht;
    simpl in H.
  - apply Ok_inj in H. subst out. apply aligned_app; assumption.
  - destruct Hf as [Hf1 Hf2].
    destruct (nth_error names i) as [name|] eqn:En; [|discriminate H].
    destruct (FieldByName v (fm name)) as [[f|]| |] eqn:Ef; cbn [bind] in H;
      try discriminate H.
    destruct (pk elem f) as [val| |] eqn:E; cbn [bind] in H;
      try discriminate H.
    pose proof (len_nonneg ret). pose proof (len_nonneg tail).
    assert (Hval : aligned val).
    { eapply He; [exact E | eapply Hf1; [reflexivity | exact Ef] |].
      destruct (isDynamicType elem); apply pack_fields_grows in H;
        rewrite ?len_app in H; pose proof (len_nonneg (packNum_int off));
        lia. }
    destruct (isDynamicType elem); apply (IH _ _ _ _ _ H); try assumption;
      try (apply aligned_app; try assumption).
    apply aligned_32, len_packNum_int.
Qed.

Lemma pack_unfold t v :
  pack m t v
  = (_ <- typeCheck t v ;;
     match t with
     | TySlice elem _ | TyArray elem _ _ =>
         l <- Len v ;;
         let ret := if requiresLengthPrefix t then packNum_int l else [] in
         let offsetReq := isDynamicType elem in
         let offset := if offsetReq then int_mul (getTypeSize elem) l else 0 in
         vs <- Elements v ;;
         pack_elements (pack m elem) offsetReq vs offset ret []
     | TyTuple _ elems names _ _ =>
         match m names v with
         | None => Err errStructMapping
         | Some fieldmap =>
             let offset := sum_TypeSize elems 0 in
             pack_fields (pack m) names fieldmap v elems 0 offset [] []
         end
     | _ => packElement t v
     end).
Proof. destruct t; reflexivity. Qed.

Lemma typeCheck_unit t v a : typeCheck t v = Ok a -> typeCheck t v = Ok tt.
Proof. destruct a. exact (fun H => H). Qed.

Lemma pack_aligned t :
  forall v bs,
    pack m t v = Ok bs -> fixed_le32 m t v -> len bs < 2 ^ 63 -> aligned bs.
Proof.
  induction t using Type_tree_ind; intros v bs Hp Hf Hl;
    rewrite pack_unfold in Hp;
    destruct (typeCheck _ v) as [u| |] eqn:Etc; cbn [bind] in Hp;
    try discriminate Hp; apply typeCheck_unit in Etc;
    try (eapply packElement_aligned; try eassumption; discriminate).
  - (* slice *)
    destruct (Len v) as [l| |]; cbn [bind] in Hp; try discriminate Hp.
    destruct (Elements v) as [vs| |] eqn:Ee; cbn [bind] in Hp;
      try discriminate Hp.
    apply (pack_elements_aligned _ _ vs) in Hp; try assumption.
    + specialize (Hf _ Ee). rewrite Forall_forall in Hf |- *.
      intros x Hx val Hval Hlen. exact (IHt x val Hval (Hf x Hx) Hlen).
    + apply aligned_32, len_packNum_int.
    + apply aligned_nil.
  - (* array *)
    destruct (Len v) as [l| |]; cbn [bind] in Hp; try discriminate Hp.
    destruct (Elements v) as [vs| |] eqn:Ee; cbn [bind] in Hp;
      try discriminate Hp.
    apply (pack_elements_aligned _ _ vs) in Hp; try assumption.
    + specialize (Hf _ Ee). rewrite Forall_forall in Hf |- *.
      intros x Hx val Hval Hlen. exact (IHt x val Hval (Hf x Hx) Hlen).
    + apply aligned_nil.
    + apply aligned_nil.
  - (* tuple *)
    destruct (m names v) as [fm|] eqn:Em; [|discriminate Hp].
    assert (HF : Forall (fun elem => forall f val,
                            pack m elem f = Ok val -> fixed_le32 m elem f ->
                            len val < 2 ^ 63 -> aligned val) elems).
    { rewrite Forall_forall in H |- *. intros elem Hin f val Hval Hfe Hlen.
      exact (H elem Hin f val Hval Hfe Hlen). }
    exact (pack_fields_aligned (fixed_le32 m) (pack m) names fm v elems HF
             _ _ _ _ _ Hp (Hf fm Em) Hl aligned_nil aligned_nil).
Qed.

Lemma Pack_loop_grows abiArgs args :
  forall i off ret vi out,
    Pack_loop m abiArgs args i off ret vi = Ok out ->
    len ret + len vi <= len out.
Proof.
  induction args as [|a rest IH]; intros i off ret vi out H; simpl in H.
  - apply Ok_inj in H. subst out. rewrite len_app. lia.
  - destruct (nth_error abiArgs i) as [input|]; [|discriminate H].
    destruct (pack m (Type_of input) a) as [val| |]; cbn [bind] in H;
      try discriminate H.
    destruct (isDynamicType (Type_of input)); apply IH in H;
      rewrite ?len_app in H;
      pose proof (len_nonneg val); pose proof (len_nonneg (packNum_int off));
      lia.
Qed.

Lemma Pack_loop_aligned abiArgs args :
  forall i off ret vi out,
    Pack_loop m abiArgs args i off ret vi = Ok out ->
    Forall2 (fun a v => fixed_le32 m (Type_of a) v) (skipn i abiArgs) args ->
    len out < 2 ^ 63 -> aligned ret -> aligned vi -> aligned out.
Proof.
  induction args as [|a rest IH]; intros i off ret vi out H Hf Hl Hr Hv;
    simpl in H.
  - apply Ok_inj in H. subst out. apply aligned_app; assumption.
  - destruct (nth_error abiArgs i) as [input|] eqn:En; [|discriminate H].
    destruct (pack m (Type_of input) a) as [val| |] eqn:E; cbn [bind] in H;
      try discriminate H.
    inversion Hf as [|x y l1 l2 Hxy Hrest Hsk Hargs]; subst y l2.
    assert (Hx : x = input /\ l1 = skipn (S i) abiArgs).
    { clear - En Hsk. revert abiArgs En Hsk.
      induction i as [|i IHi]; intros [|b r] En Hsk; simpl in *;
        try discriminate.
      - injection En as ->. injection Hsk as -> ->. auto.
      - apply IHi; assumption. }
    destruct Hx as [-> ->].
    pose proof (len_nonneg ret). pose proof (len_nonneg vi).
    assert (Hval : aligned val).
    { eapply pack_aligned; [exact E | exact Hxy |].
      destruct (isDynamicType (Type_of input)); apply Pack_loop_grows in H;
        rewrite ?len_app in H; pose proof (len_nonneg (packNum_int off));
        lia. }
    destruct (isDynamicType (Type_of input)); apply (IH _ _ _ _ _ H);
      try assumption; try (apply aligned_app; try assumption).
    apply aligned_32, len_packNum_int.
Qed.

(** Every byte string the encoder produces has a length that is a multiple
    of 32, for [Type.pack] and for [Arguments.Pack], provided the byte
    arrays supplied for address, function and fixed-bytes types have at most
    32 bytes (the values [common.Address], [[24]byte] and [[N]byte] with
    N <= 32 always do).  The output is a Go slice, so its length is below
    2^63. *)
Theorem packed_length_multiple_of_32 :
  (forall t v bs,
      pack m t v = Ok bs -> fixed_le32 m t v -> len bs < 2 ^ 63 ->
      len bs mod 32 = 0)
  /\ (forall arguments args bs,
         Pack m arguments args = Ok bs ->
         Forall2 (fun a v => fixed_le32 m (Type_of a) v) arguments args ->
         len bs < 2 ^ 63 ->
         len bs mod 32 = 0).
Proof.
  split.
  - intros t v bs Hp Hf Hl. apply aligned_mod. eapply pack_aligned; eauto.
  - intros arguments args bs Hp Hf Hl. apply aligned_mod.
    unfold Pack in Hp. destruct (negb _); [discriminate Hp|].
    apply Pack_loop_aligned in Hp; try assumption; apply aligned_nil.
Qed.

End Encoder_lengths.

(** C10 fails on an address.  [typeCheck] is to check that the value can be
    assigned to the Go type of the type, which for an address is an array of
    20 bytes; it compares the kinds only, and checks the length for fixed
    bytes alone.  So an array of 40 bytes is accepted for an address,
    [LeftPadBytes] leaves a slice of more than 32 bytes as it is, and
    [Type.pack] and [Arguments.Pack] return an encoding of 40 bytes, which
    is no multiple of 32; the same array is rejected with the type error
    for bytes20. *)
Lemma pack_address_of_40_bytes :
  let v := VArray (KUint W8) (repeat (VUint W8 1) 40) in
  exists bs,
    pack same_name_fields (TyAddress "address") v = Ok bs
    /\ Pack same_name_fields [mkArgument "to" (TyAddress "address") false] [v]
       = Ok bs
    /\ len bs = 40
    /\ len bs mod 32 <> 0
    /\ GetType (TyAddress "address") = Ok (array_Type 20 Type_byte)
    /\ pack same_name_fields (TyFixedBytes 20 "bytes20") v = Err errTypeErr.
Proof.
  eexists. split; [reflexivity|]. split; [reflexivity|].
  split; [reflexivity|]. split; [discriminate|].
  split; reflexivity.
Qed.

Lemma packed_length_multiple_of_32_witness :
  let arguments := [mkArgument "n" (TyUint 256 "uint256") false;
                    mkArgument "s" (TyString "string") false] in
  let args := [VBig 1; VString [x68; x69]] in
  exists bs,
    Pack same_name_fields arguments args = Ok bs /\ len bs mod 32 = 0.
Proof.
  intros arguments args. eexists. split; [reflexivity|].
  apply (proj2 (packed_length_multiple_of_32 same_name_fields)
               arguments args _ eq_refl).
  - repeat constructor.
  - reflexivity.
Defined.

(** ** Offsets in the decoder *)

(* three words: the offset 2^64 + 32, then the offset 32 of a string
   relative to the second word, then the length 0 of that string *)
Definition high_offset_input : list byte :=
  U256Bytes (2 ^ 64 + 32) ++ U256Bytes 32 ++ U256Bytes 0.

(** C2 fails on the offset word of an array of dynamic elements.  The first
    word of the input is the offset 2^64 + 32, which is larger than 2^63 - 1
    and larger than the 96 bytes of the input; [toGoType] reads the low 8
    bytes of that word only, takes the offset to be 32 and decodes an array
    of one empty string.  The same word read as the offset of a string is
    rejected by [lengthPrefixPointsTo], and as the offset of a dynamic tuple
    by [tuplePointsTo], which both compare the whole word. *)
Lemma toGoType_array_ignores_high_offset_bytes :
  let t := TyArray (TyString "string") 1 "string[1]" in
  SetBytes (firstn 32 high_offset_input) = 2 ^ 64 + 32
  /\ len high_offset_input = 96
  /\ toGoType 0 t high_offset_input = Ok (VArray KString [VString []])
  /\ Unpack [mkArgument "names" t false] high_offset_input
     = Ok [VArray KString [VString []]]
  /\ toGoType 0 (TyString "string") high_offset_input = Err errOffsetBoundary
  /\ tuplePointsTo 0 high_offset_input = Err errOffsetBoundary.
Proof. vm_compute. repeat split. Qed.

(** ** The canonical string of a parsed type *)

Section canonical_string.
Local Open Scope string_scope.

Lemma string_app_assoc (a b c : string) : (a ++ b) ++ c = a ++ (b ++ c).
Proof. induction a as [|x a IH]; simpl; [reflexivity | rewrite IH; reflexivity]. Qed.

Lemma string_app_nil_r (a : string) : a ++ "" = a.
Proof. induction a as [|x a IH]; simpl; [reflexivity | rewrite IH; reflexivity]. Qed.

(* the part of a type string before its first bracket, and the rest *)
Fixpoint before_bracket (s : string) : string :=
  match s with
  | EmptyString => EmptyString
  | String a r => if Ascii.eqb a "[" then EmptyString
                  else String a (before_bracket r)
  end.

Fixpoint brackets (s : string) : string :=
  match s with
  | EmptyString => EmptyString
  | String a r => if Ascii.eqb a "[" then s else brackets r
  end.

(* the type under the slices and arrays of a type *)
Fixpoint base_type (t : Type_) : Type_ :=
  match t with
  | TySlice e _ | TyArray e _ _ => base_type e
  | _ => t
  end.

Definition tuple_expression (elems : list Type_) : string :=
  "(" ++ String.concat "," (map String_ elems) ++ ")".

Lemma before_bracket_brackets (s : string) :
  before_bracket s ++ brackets s = s.
Proof.
  induction s as [|a r IH]; simpl; [reflexivity|].
  destruct (Ascii.eqb a "["); simpl; [reflexivity | rewrite IH; reflexivity].
Qed.

Lemma str_to_S a r i : str_to (String a r) (S i) = String a (str_to r i).
Proof. reflexivity. Qed.

Lemma str_from_S a r i : str_from (String a r) (S i) = str_from r i.
Proof. reflexivity. Qed.

Lemma str_from_0 s : str_from s 0 = s.
Proof.
  unfold str_from. rewrite Nat.sub_0_r.
  induction s as [|b r IH]; simpl; [reflexivity | rewrite IH; reflexivity].
Qed.

Lemma str_to_from (s : string) (i : nat) :
  (i <= String.length s)%nat -> str_to s i ++ str_from s i = s.
Proof.
  revert i. induction s as [|a r IH]; intros [|i] H.
  - reflexivity.
  - simpl in H. lia.
  - change (str_to (String a r) 0) with "". simpl append. apply str_from_0.
  - rewrite str_to_S, str_from_S. simpl in H |- *.
    rewrite IH by lia. reflexivity.
Qed.

Lemma LastIndex_lt (s : string) (c : ascii) (i : nat) :
  LastIndex s c = Some i -> (i < String.length s)%nat.
Proof.
  revert i. induction s as [|a r IH]; intros i H; simpl in H; [discriminate|].
  destruct (LastIndex r c) as [j|].
  - injection H as <-. specialize (IH j eq_refl). simpl. lia.
  - destruct (Ascii.eqb a c); [|discriminate]. injection H as <-. simpl. lia.
Qed.

Lemma split_at_last_bracket (t : string) (i : nat) :
  LastIndex t "[" = Some i ->
  brackets (str_to t i) ++ str_from t i = brackets t
  /\ before_bracket (str_to t i) = before_bracket t.
Proof.
  revert i. induction t as [|a r IH]; intros i H; simpl in H; [discriminate|].
  destruct (LastIndex r "[") as [j|] eqn:E.
  - injection H as <-. rewrite str_to_S, str_from_S.
    destruct (IH j eq_refl) as [IH1 IH2].
    simpl. destruct (Ascii.eqb a "[") eqn:Ea.
    + split; [|reflexivity]. simpl. f_equal.
      apply str_to_from. apply LastIndex_lt in E. lia.
    + split; [exact IH1 | rewrite IH2; reflexivity].
  - destruct (Ascii.eqb a "[") eqn:Ea; [|discriminate]. injection H as <-.
    rewrite str_from_0. simpl. rewrite Ea. split; reflexivity.
Qed.

Lemma no_bracket (t : string) :
  Count t "[" = 0%nat -> brackets t = "" /\ before_bracket t = t.
Proof.
  induction t as [|a r IH]; simpl; intros H; [split; reflexivity|].
  destruct (Ascii.eqb a "["); [discriminate|].
  destruct (IH H) as [-> ->]. split; reflexivity.
Qed.

Variable strings_ToUpper : string -> string.
Variable runes : string -> list Z.
Variable unicode_IsLetter : Z -> bool.
Variable unicode_IsDigit : Z -> bool.

Lemma tuple_loop_expression NewType_of count cs :
  forall idx fields types elems names expression used
         fields' types' elems' names' expression',
    tuple_loop strings_ToUpper runes unicode_IsLetter unicode_IsDigit
               NewType_of count cs idx fields types elems names expression used
    = Ok (fields', types', elems', names', expression') ->
    (Z.of_nat idx + len cs = count)%Z ->
    exists new,
      elems' = (elems ++ new)%list
      /\ expression' = expression ++ String.concat "," (map String_ new)
      /\ List.length new = List.length cs.
Proof.
  induction cs as [|c rest IH];
    intros idx fields types elems names expression used fields' types'
           elems' names' expression' H Hc; simpl in H.
  - injection H as <- <- <- <- <-. exists []. simpl.
    rewrite app_nil_r, string_app_nil_r. auto.
  - destruct c as [cName cT cI cC cX].
    destruct (NewType_of _) as [cType| |]; cbn [bind] in H; try discriminate H.
    destruct (String.eqb _ ""); [discriminate H|].
    destruct (negb (isValidFieldName _ _ _ _)); [discriminate H|].
    destruct (GetType cType) as [typ| |]; cbn [bind] in H;
      try discriminate H.
    apply IH in H; [|rewrite len_cons in Hc; lia].
    destruct H as (new & -> & -> & Hlen).
    exists (cType :: new). rewrite <- app_assoc. simpl.
    split; [reflexivity|]. split; [|lia].
    destruct (Z.of_nat idx =? count - 1)%Z eqn:E; simpl.
    + apply Z.eqb_eq in E. rewrite len_cons in Hc.
      assert (rest = []) by (apply len_zero_iff; pose proof (len_nonneg rest); lia).
      subst rest. destruct new; [|discriminate Hlen]. simpl.
      rewrite string_app_nil_r. reflexivity.
    + apply Z.eqb_neq in E. rewrite len_cons in Hc.
      destruct new as [|n1 new].
      * destruct rest; [|discriminate Hlen]. rewrite len_nil in Hc. lia.
      * cbn [map String.concat].
        rewrite !string_app_assoc. reflexivity.
Qed.

Lemma NewType_body_String NewType_of components depth :
  forall t internalType typ,
    NewType_body strings_ToUpper runes unicode_IsLetter unicode_IsDigit
                 NewType_of components depth t internalType = Ok typ ->
    String_ typ
    = match base_type typ with
      | TyTuple _ elems _ _ _ => tuple_expression elems
      | _ => before_bracket t
      end ++ brackets t.
Proof.
  induction depth as [|depth IH]; intros t it typ H; simpl in H.
  all: destruct (negb (Count t "[" =? Count t "]")%nat); [discriminate H|].
  all: destruct (Count t "[" =? 0)%nat eqn:Ec; simpl in H;
    try discriminate H.
  3: { (* an array or a slice *)
    destruct (LastIndex t "[") as [i|] eqn:Ei; [|discriminate H].
    destruct (NewType_body _ _ _ _ _ _ depth _ _) as [emb| |] eqn:Ee;
      cbn [bind] in H; try discriminate H.
    apply IH in Ee. destruct (split_at_last_bracket t i Ei) as [Hb Hbb].
    rewrite Hbb in Ee.
    assert (Hs : String_ emb ++ str_from t i
                 = match base_type emb with
                   | TyTuple _ elems _ _ _ => tuple_expression elems
                   | _ => before_bracket t
                   end ++ brackets t).
    { rewrite Ee, string_app_assoc, Hb. reflexivity. }
    destruct (sliceSizeRegex_all _ _) as [|size [|]]; try discriminate H.
    - apply Ok_inj in H. subst typ. exact Hs.
    - destruct (Atoi size); try discriminate H.
      apply Ok_inj in H. subst typ. exact Hs. }
  all: apply Nat.eqb_eq, no_bracket in Ec; destruct Ec as [Eb Ebb];
    rewrite Eb, Ebb, string_app_nil_r.
  all: destruct (typeRegex_first t) as [[[[p0 p1] p2] p3]|]; [|discriminate H].
  all: match type of H with
       | bind ?r _ = _ => destruct r as [varSize| |]; cbn [bind] in H;
                          try discriminate H
       end.
  all: repeat match type of H with
         | (if ?c then _ else _) = _ => destruct c
         end;
    try discriminate H;
    try (apply Ok_inj in H; subst typ; reflexivity).
  all: destruct (tuple_loop _ _ _ _ _ _ _ _ _ _ _ _ _ _)
         as [[[[[f ty] e] n] x]| |] eqn:El;
    cbn [bind] in H; try discriminate H.
  all: destruct (reflect_StructOf _ _ _ _) as [st| |]; cbn [bind] in H;
    try discriminate H.
  all: apply Ok_inj in H; subst typ; simpl.
  all: apply tuple_loop_expression in El; [|rewrite len_nil || idtac; lia].
  all: destruct El as (new & -> & -> & _); simpl.
  all: reflexivity.
Qed.

(** C9, as the code has it.  The canonical string of an accepted type string
    keeps the text of the input: when the type under the slices and arrays
    is not a tuple it is the input itself, character for character, and
    nothing is normalised; when it is a tuple, the part before the first
    bracket is rebuilt from the components, as the canonical strings of the
    elements separated by commas and enclosed in parentheses, and the
    brackets of the input follow as they were written. *)
Theorem NewType_canonical_string (t internalType : string)
        (components : list ArgumentMarshaling) (typ : Type_) :
  NewType strings_ToUpper runes unicode_IsLetter unicode_IsDigit
          t internalType components = Ok typ ->
  (T (base_type typ) <> TupleTy -> String_ typ = t)
  /\ (forall rn elems names fields k,
         base_type typ = TyTuple rn elems names fields k ->
         String_ typ = tuple_expression elems ++ brackets t).
Proof.
  unfold NewType. simpl. intros H. apply NewType_body_String in H.
  split.
  - intros Hb. rewrite H.
    destruct (base_type typ); try apply before_bracket_brackets.
    exfalso. apply Hb. reflexivity.
  - intros rn elems names fields k Hb. rewrite H, Hb. reflexivity.
Qed.

End canonical_string.

(** The standard-library functions of the parser on ASCII text, for the
    examples: upper-casing, one rune per character, no letter outside ASCII,
    the decimal digits. *)
Definition ToUpper_ascii (s : string) : string :=
  string_of_list_ascii
    (map (fun a => let n := nat_of_ascii a in
                   if ((97 <=? n) && (n <=? 122))%nat
                   then ascii_of_nat (n - 32) else a)
         (list_ascii_of_string s)).

Definition runes_ascii (s : string) : list Z :=
  map (fun a => Z.of_nat (nat_of_ascii a)) (list_ascii_of_string s).

Definition NewType_ascii : string -> string -> list ArgumentMarshaling
                           -> Result Type_ :=
  NewType ToUpper_ascii runes_ascii (fun _ => false)
          (fun ch => (48 <=? ch) && (ch <=? 57)).

(** C9 as stated fails: the canonical string is the unparsed input.  The
    inputs " uint256" and "uint256" differ by one leading space, both are
    accepted as the same type uint256, and their canonical strings differ. *)
Lemma NewType_keeps_whitespace :
  NewType_ascii " uint256" "" [] = Ok (TyUint 256 " uint256")
  /\ NewType_ascii "uint256" "" [] = Ok (TyUint 256 "uint256")
  /\ String_ (TyUint 256 " uint256") <> String_ (TyUint 256 "uint256").
Proof. repeat split. discriminate. Qed.

(** C3 as stated fails where the product leaves the range of an [int].
    [NewType] accepts uint256[288230376151711745], an array of 2^58 + 1
    static elements: the size times 32 is 2^63 + 32, and [getTypeSize]
    returns 32 - 2^63, a negative number. *)
Lemma getTypeSize_wraps_around :
  let t := TyArray (TyUint 256 "uint256") 288230376151711745
                   "uint256[288230376151711745]" in
  NewType_ascii "uint256[288230376151711745]" "" [] = Ok t
  /\ isDynamicType t = false
  /\ getTypeSize t = (-9223372036854775776)%Z
  /\ getTypeSize t <> (288230376151711745 * 32)%Z.
Proof.
  intros t. split; [vm_compute; reflexivity|]. split; [reflexivity|].
  split; [vm_compute; reflexivity|]. vm_compute. discriminate.
Qed.

Lemma NewType_canonical_string_witness :
  exists typ,
    NewType_ascii "uint256[2][]" "" [] = Ok typ
    /\ String_ typ = "uint256[2][]"%string.
Proof.
  eexists. split; [reflexivity|].
  apply (NewType_canonical_string
           ToUpper_ascii runes_ascii (fun _ => false)
           (fun ch => (48 <=? ch) && (ch <=? 57))
           "uint256[2][]" "" [] _ eq_refl).
  discriminate.
Defined.

Local Close Scope string_scope.

(** ** Bytes and big-endian words *)

Lemma b2z_range (b : byte) : 0 <= b2z b < 256.
Proof.
  unfold b2z. pose proof (Byte.to_N_bounded b). lia.
Qed.

Lemma z2b_b2z (b : byte) : z2b (b2z b) = b.
Proof.
  unfold z2b. rewrite Z.mod_small by apply b2z_range.
  unfold b2z. rewrite N2Z.id, Byte.of_to_N. reflexivity.
Qed.

Lemma b2z_z2b (z : Z) : b2z (z2b z) = z mod 256.
Proof.
  unfold z2b, b2z.
  pose proof (Z.mod_pos_bound z 256 ltac:(lia)) as Hm.
  destruct (Byte.of_N (Z.to_N (z mod 256))) as [b|] eqn:E.
  - apply Byte.to_of_N in E. rewrite E. lia.
  - apply Byte.of_N_None_iff in E. lia.
Qed.

Lemma SetBytes_app (a b : list byte) :
  SetBytes (a ++ b) = SetBytes a * 256 ^ len b + SetBytes b.
Proof.
  unfold SetBytes. rewrite fold_left_app.
  generalize (fold_left (fun acc x => acc * 256 + b2z x) a 0). intros s.
  assert (G : forall l x y,
             fold_left (fun acc x => acc * 256 + b2z x) l (x + y)
             = x * 256 ^ len l
               + fold_left (fun acc x => acc * 256 + b2z x) l y).
  { clear. induction l as [|c l IH]; intros x y.
    - rewrite len_nil. simpl. lia.
    - cbn [fold_left]. rewrite len_cons.
      replace ((x + y) * 256 + b2z c) with (x * 256 + (y * 256 + b2z c)) by lia.
      rewrite IH. rewrite Z.pow_add_r by (pose proof (len_nonneg l); lia).
      lia. }
  specialize (G b s 0). rewrite Z.add_0_r in G. exact G.
Qed.

Lemma SetBytes_range (l : list byte) : 0 <= SetBytes l < 256 ^ len l.
Proof.
  induction l as [|b l IH] using rev_ind.
  - unfold SetBytes, len. simpl. lia.
  - rewrite SetBytes_app, len_app, len_cons.
    change (len (@nil byte)) with 0.
    change (SetBytes [b]) with (0 * 256 + b2z b).
    pose proof (b2z_range b). pose proof (len_nonneg l).
    change (1 + 0) with 1. rewrite Z.pow_add_r by lia.
    change (256 ^ 1) with 256.
    generalize dependent (256 ^ len l). intros X HX. lia.
Qed.

Lemma SetBytes_be_bytes (n : nat) (z : Z) :
  SetBytes (be_bytes n z) = z mod 256 ^ Z.of_nat n.
Proof.
  revert z. induction n as [|n IH]; intros z.
  - simpl. rewrite Z.mod_1_r. reflexivity.
  - cbn [be_bytes]. rewrite SetBytes_app, IH.
    change (SetBytes [z2b z]) with (0 * 256 + b2z (z2b z)).
    rewrite b2z_z2b, len_cons. change (len (@nil byte)) with 0.
    change (1 + 0) with 1. change (256 ^ 1) with 256.
    rewrite Nat2Z.inj_succ, Z.pow_succ_r by lia.
    rewrite (Z.rem_mul_r z 256 (256 ^ Z.of_nat n)) by lia. lia.
Qed.

Lemma SetBytes_U256Bytes (n : Z) : SetBytes (U256Bytes n) = n mod 2 ^ 256.
Proof.
  unfold U256Bytes. rewrite SetBytes_be_bytes.
  change (256 ^ Z.of_nat 32) with (2 ^ 256).
  apply Z.mod_mod. lia.
Qed.

Lemma be_bytes_add (a b : nat) (z : Z) :
  be_bytes (a + b) z = be_bytes a (z / 256 ^ Z.of_nat b) ++ be_bytes b z.
Proof.
  revert z. induction b as [|b IH]; intros z.
  - rewrite Nat.add_0_r. simpl. rewrite Z.div_1_r, app_nil_r. reflexivity.
  - rewrite Nat.add_succ_r. cbn [be_bytes]. rewrite IH, app_assoc.
    f_equal. f_equal. f_equal.
    rewrite Nat2Z.inj_succ, Z.pow_succ_r by lia.
    rewrite Z.div_div by lia. reflexivity.
Qed.

Lemma bytes_of_Values_of_bytes (bs : list byte) :
  bytes_of_Values (Values_of_bytes bs) = Ok bs.
Proof.
  induction bs as [|b bs IH]; simpl; [reflexivity|].
  rewrite IH. cbn [bind]. rewrite z2b_b2z. reflexivity.
Qed.

Lemma len_Values_of_bytes bs : len (Values_of_bytes bs) = len bs.
Proof. unfold len, Values_of_bytes. rewrite length_map. reflexivity. Qed.

(** ** Slices of lists *)

Lemma slice_app_mid {A} (pre mid post : list A) :
  slice (pre ++ mid ++ post) (len pre) (len pre + len mid) = Ok mid.
Proof.
  unfold slice.
  pose proof (len_nonneg pre). pose proof (len_nonneg mid).
  pose proof (len_nonneg post).
  replace ((0 <=? len pre) && (len pre <=? len pre + len mid)
           && (len pre + len mid <=? len (pre ++ mid ++ post))) with true.
  - f_equal. unfold len. rewrite Nat2Z.id.
    rewrite skipn_app, skipn_all, Nat.sub_diag. simpl.
    replace (Z.of_nat (List.length pre) + Z.of_nat (List.length mid)
             - Z.of_nat (List.length pre)) with (Z.of_nat (List.length mid))
      by lia.
    rewrite Nat2Z.id, firstn_app, firstn_all, Nat.sub_diag. simpl.
    apply app_nil_r.
  - symmetry. rewrite !andb_true_iff, !Z.leb_le, !len_app. lia.
Qed.

Lemma slice_from_app {A} (pre rest : list A) :
  slice_from (pre ++ rest) (len pre) = Ok rest.
Proof.
  unfold slice_from.
  pose proof (slice_app_mid pre rest []) as H.
  rewrite app_nil_r in H. rewrite len_app. exact H.
Qed.

Lemma slice_Ok {A} (s : list A) (a b : Z) (r : list A) :
  slice s a b = Ok r ->
  0 <= a /\ a <= b /\ b <= len s
  /\ exists pre post, s = pre ++ r ++ post /\ len pre = a /\ len r = b - a.
Proof.
  unfold slice. destruct (_ && _) eqn:E; [|discriminate].
  rewrite !andb_true_iff, !Z.leb_le in E. destruct E as [[H0 H1] H2].
  intros H. apply Ok_inj in H. subst r. repeat split; try assumption.
  exists (firstn (Z.to_nat a) s),
    (skipn (Z.to_nat (b - a)) (skipn (Z.to_nat a) s)).
  rewrite firstn_skipn, firstn_skipn. repeat split.
  - unfold len in *. rewrite length_firstn. lia.
  - unfold len in *. rewrite length_firstn, length_skipn. lia.
Qed.

(** ** Round trip *)

(** The invariants of the data model on a type: an integer has 8 to 256
    bits, a multiple of 8; fixed bytes have 1 to 32 bytes; an array has at
    least one element; there is no hash and no fixed-point type.  And, on
    top of them: a tuple has at least one field. *)
Fixpoint wfType (t : Type_) : Prop :=
  match t with
  | TyInt s _ | TyUint s _ => 8 <= s <= 256 /\ s mod 8 = 0
  | TyFixedBytes s _ => 1 <= s <= 32
  | TySlice elem _ => wfType elem
  | TyArray elem size _ => 0 < size /\ wfType elem
  | TyTuple _ elems _ _ _ =>
      elems <> []
      /\ (fix all (l : list Type_) : Prop :=
            match l with
            | [] => True
            | e :: r => wfType e /\ all r
            end) elems
  | TyHash _ | TyFixedPoint _ => False
  | _ => True
  end.

(* the number held by an integer value *)
Definition int_of (v : Value) : option Z :=
  match v with
  | VInt _ n | VUint _ n | VBig n => Some n
  | _ => None
  end.

Section conforms.
Variable m : list string -> Value -> option (string -> string).

(* the struct v has, for every position, the field that the encoder looks
   up for that position, holding the value of that position *)
Definition fields_found (names : list string) (v : Value) (vs : list Value)
  : Prop :=
  exists fm,
    m names v = Some fm
    /\ forall i vi, nth_error vs i = Some vi ->
                    exists name, nth_error names i = Some name
                                 /\ FieldByName v (fm name) = Ok (Some vi).

(** A value conforms to a type when it is what the decoder returns for that
    type: the machine integer for the widths 8, 16, 32 and 64 and a big
    integer otherwise, in the range of the type; a byte slice for bytes and
    a byte array of the right length for fixed bytes, an address and a
    function; a slice for a slice type and an array of the declared size
    for an array type, of conforming elements; for a tuple the struct of
    the tuple's reflect type with a conforming value in every field. *)
Fixpoint conforms (t : Type_) (v : Value) {struct t} : Prop :=
  match t with
  | TyInt s _ =>
      Kind_of v = reflectIntType false s
      /\ exists n, int_of v = Some n /\ - 2 ^ (s - 1) <= n < 2 ^ (s - 1)
  | TyUint s _ =>
      Kind_of v = reflectIntType true s
      /\ exists n, int_of v = Some n /\ 0 <= n < 2 ^ s
  | TyBool _ => exists b, v = VBool b
  | TyString _ => exists s, v = VString s
  | TyBytes _ => exists bs, v = VSlice (KUint W8) (Values_of_bytes bs)
  | TyFixedBytes s _ =>
      exists bs, v = VArray (KUint W8) (Values_of_bytes bs) /\ len bs = s
  | TyAddress _ =>
      exists bs, v = VArray (KUint W8) (Values_of_bytes bs) /\ len bs = 20
  | TyFunction _ =>
      exists bs, v = VArray (KUint W8) (Values_of_bytes bs) /\ len bs = 24
  | TySlice elem _ =>
      exists vs, v = VSlice (GetType_Kind elem) vs /\ Forall (conforms elem) vs
  | TyArray elem size _ =>
      exists vs, v = VArray (GetType_Kind elem) vs /\ len vs = size
                 /\ Forall (conforms elem) vs
  | TyTuple _ elems names fields _ =>
      exists vs,
        v = VStruct (combine fields vs)
        /\ List.length fields = List.length vs
        /\ fields_found names v vs
        /\ (fix all (l : list Type_) (vs : list Value) : Prop :=
              match l, vs with
              | [], [] => True
              | e :: r, x :: xs => conforms e x /\ all r xs
              | _, _ => False
              end) elems vs
  | TyHash _ | TyFixedPoint _ => False
  end.

(* a slice or array type *)
Definition is_sequence (t : Type_) : bool :=
  Kind_eqb (T t) SliceTy || Kind_eqb (T t) ArrayTy.

(** The values the encoder accepts for a type.  For a slice type and for an
    array type it takes a slice as well as an array, which for an array type
    has the declared number of elements; the kind of the elements that the
    Go type of the value declares is the one of the element type, and is not
    looked at when the elements are slices or arrays themselves and there is
    one to look at instead.  The elements, and the fields of the struct of a
    tuple, are accepted values of their types; for another type the accepted
    values are the conforming ones. *)
Fixpoint accepted (t : Type_) (v : Value) {struct t} : Prop :=
  match t with
  | TySlice elem _ =>
      exists ek vs,
        (v = VSlice ek vs \/ v = VArray ek vs)
        /\ (ek = GetType_Kind elem \/ is_sequence elem = true /\ vs <> [])
        /\ Forall (accepted elem) vs
  | TyArray elem size _ =>
      exists ek vs,
        (v = VSlice ek vs \/ v = VArray ek vs)
        /\ (ek = GetType_Kind elem \/ is_sequence elem = true /\ vs <> [])
        /\ len vs = size
        /\ Forall (accepted elem) vs
  | TyTuple _ elems names fields _ =>
      exists vs,
        v = VStruct (combine fields vs)
        /\ List.length fields = List.length vs
        /\ fields_found names v vs
        /\ (fix all (l : list Type_) (vs : list Value) : Prop :=
              match l, vs with
              | [], [] => True
              | e :: r, x :: xs => accepted e x /\ all r xs
              | _, _ => False
              end) elems vs
  | _ => conforms t v
  end.

End conforms.

(** The representation in which the decoder returns a value: a slice for a
    slice type and an array for an array type, whichever of the two the
    value is, of the elements in their own representation; a struct with its
    fields in theirs.  Every other value is returned as it is. *)
Fixpoint normal (t : Type_) (v : Value) {struct t} : Value :=
  match t with
  | TySlice elem _ =>
      match v with
      | VSlice _ vs | VArray _ vs =>
          VSlice (GetType_Kind elem) (map (normal elem) vs)
      | _ => v
      end
  | TyArray elem _ _ =>
      match v with
      | VSlice _ vs | VArray _ vs =>
          VArray (GetType_Kind elem) (map (normal elem) vs)
      | _ => v
      end
  | TyTuple _ elems _ _ _ =>
      match v with
      | VStruct fs =>
          VStruct
            (combine (map fst fs)
               ((fix each (l : list Type_) (xs : list Value) : list Value :=
                   match l, xs with
                   | e :: r, x :: xs' => normal e x :: each r xs'
                   | _, _ => []
                   end) elems (map snd fs)))
      | _ => v
      end
  | _ => v
  end.

(* the values of a list, each in the representation of its type *)
Fixpoint normal_each (ts : list Type_) (vs : list Value) : list Value :=
  match ts, vs with
  | t :: ts', v :: vs' => normal t v :: normal_each ts' vs'
  | _, _ => []
  end.

(** *** Elementary types *)

Lemma GoKind_eqb_refl k : GoKind_eqb k k = true.
Proof. destruct k as [|[]|[]| | | | |]; reflexivity. Qed.

Lemma word_at (pre enc post out : list byte) :
  out = pre ++ enc ++ post -> len enc = 32 -> len out < 2 ^ 63 ->
  (int_add (len pre) 32 >? len out) = false
  /\ slice out (len pre) (int_add (len pre) 32) = Ok enc.
Proof.
  intros -> He Hl. rewrite !len_app in Hl.
  pose proof (len_nonneg pre). pose proof (len_nonneg post).
  unfold int_add. rewrite wrap_small by (unfold in_int; lia).
  split.
  - rewrite !len_app, Z.gtb_ltb. apply Z.ltb_ge. lia.
  - rewrite <- He. apply slice_app_mid.
Qed.

Lemma testbit_255 (z : Z) :
  0 <= z < 2 ^ 256 -> Z.testbit z 255 = (2 ^ 255 <=? z).
Proof.
  intros H. pose proof (Z.testbit_spec' z 255 ltac:(lia)) as Hs.
  destruct (2 ^ 255 <=? z) eqn:E.
  - apply Z.leb_le in E.
    assert (z / 2 ^ 255 = 1).
    { symmetry. apply Z.div_unique with (r := z - 2 ^ 255); lia. }
    rewrite H0 in Hs. destruct (Z.testbit z 255); [reflexivity|discriminate].
  - apply Z.leb_gt in E. rewrite Z.div_small in Hs by lia.
    destruct (Z.testbit z 255); [discriminate|reflexivity].
Qed.

Lemma reflectIntType_cases unsigned s :
  (s = 8 /\ reflectIntType unsigned s = if unsigned then KUint W8 else KInt W8)
  \/ (s = 16 /\ reflectIntType unsigned s = if unsigned then KUint W16 else KInt W16)
  \/ (s = 32 /\ reflectIntType unsigned s = if unsigned then KUint W32 else KInt W32)
  \/ (s = 64 /\ reflectIntType unsigned s = if unsigned then KUint W64 else KInt W64)
  \/ (s <> 8 /\ s <> 16 /\ s <> 32 /\ s <> 64 /\ reflectIntType unsigned s = KPtr).
Proof.
  unfold reflectIntType.
  destruct (s =? 8) eqn:E8; [apply Z.eqb_eq in E8; auto|].
  destruct (s =? 16) eqn:E16; [apply Z.eqb_eq in E16; auto|].
  destruct (s =? 32) eqn:E32; [apply Z.eqb_eq in E32; auto 6|].
  destruct (s =? 64) eqn:E64; [apply Z.eqb_eq in E64; auto 6|].
  apply Z.eqb_neq in E8, E16, E32, E64. auto 10.
Qed.

Lemma ReadInteger_uint s k v n :
  Kind_of v = reflectIntType true s -> int_of v = Some n ->
  0 <= n < 2 ^ s -> 8 <= s <= 256 ->
  ReadInteger (TyUint s k) (U256Bytes n) = Ok v.
Proof.
  intros Hk Hn Hr Hs.
  assert (H256 : 0 <= n < 2 ^ 256).
  { split; [lia|]. apply Z.lt_le_trans with (2 ^ s); [lia|].
    apply Z.pow_le_mono_r; lia. }
  unfold ReadInteger. rewrite SetBytes_U256Bytes, Z.mod_small by exact H256.
  cbn [T Kind_eqb Size]. unfold big_Uint64.
  destruct (reflectIntType_cases true s)
    as [[-> E]|[[-> E]|[[-> E]|[[-> E]|(N8 & N16 & N32 & N64 & E)]]]];
    rewrite E in Hk.
  1-4: destruct v as [|w x|w x|x| | | |]; try discriminate Hk;
    injection Hk as ->; injection Hn as ->;
    rewrite Z.mod_small by lia; cbn [Z.eqb];
    repeat match goal with
      | |- context [?a <? ?b] => 
          let E := fresh in destruct (Z.ltb_spec a b) as [E|E]; [|lia]
      | |- context [?a >? ?b] =>
          rewrite (Z.gtb_ltb a b);
          let E := fresh in destruct (Z.ltb_spec b a) as [E|E]; [lia|]
      end; reflexivity.
  destruct v as [|w x|w x|x| | | |]; try discriminate Hk.
  injection Hn as ->.
  apply Z.eqb_neq in N8, N16, N32, N64. rewrite N8, N16, N32, N64.
  reflexivity.
Qed.

Lemma ReadInteger_int s k v n :
  Kind_of v = reflectIntType false s -> int_of v = Some n ->
  - 2 ^ (s - 1) <= n < 2 ^ (s - 1) -> 8 <= s <= 256 ->
  ReadInteger (TyInt s k) (U256Bytes n) = Ok v.
Proof.
  intros Hk Hn Hr Hs.
  assert (H255 : - 2 ^ 255 <= n < 2 ^ 255).
  { assert (2 ^ (s - 1) <= 2 ^ 255) by (apply Z.pow_le_mono_r; lia). lia. }
  unfold ReadInteger. rewrite SetBytes_U256Bytes.
  cbn [T Kind_eqb Size].
  assert (Hret : (if Z.testbit (n mod 2 ^ 256) 255
                  then - (MaxUint256 + - (n mod 2 ^ 256) + 1)
                  else n mod 2 ^ 256) = n).
  { rewrite testbit_255 by (apply Z.mod_pos_bound; lia).
    destruct (Z_lt_le_dec n 0) as [Hneg|Hpos].
    - assert (n mod 2 ^ 256 = n + 2 ^ 256).
      { symmetry. apply Z.mod_unique with (q := -1); lia. }
      rewrite H. destruct (Z.leb_spec (2 ^ 255) (n + 2 ^ 256)); [|lia].
      unfold MaxUint256. lia.
    - rewrite Z.mod_small by lia.
      destruct (Z.leb_spec (2 ^ 255) n); [lia|reflexivity]. }
  rewrite Hret. unfold big_Int64.
  destruct (reflectIntType_cases false s)
    as [[-> E]|[[-> E]|[[-> E]|[[-> E]|(N8 & N16 & N32 & N64 & E)]]]];
    rewrite E in Hk.
  1-4: destruct v as [|w x|w x|x| | | |]; try discriminate Hk;
    injection Hk as ->; injection Hn as ->;
    rewrite wrap_small by (unfold in_int; lia); cbn [Z.eqb];
    repeat match goal with
      | |- context [?a <=? ?b] => 
          let E := fresh in destruct (Z.leb_spec a b) as [E|E]; [|lia]
      | |- context [?a <? ?b] => 
          let E := fresh in destruct (Z.ltb_spec a b) as [E|E]; [|lia]
      | |- context [?a <? ?b] => 
          let E := fresh in destruct (Z.ltb_spec a b) as [E|E]; [lia|]
      | |- context [?a >? ?b] =>
          rewrite (Z.gtb_ltb a b);
          let E := fresh in destruct (Z.ltb_spec b a) as [E|E]; [lia|]
      end; reflexivity.
  destruct v as [|w x|w x|x| | | |]; try discriminate Hk.
  injection Hn as ->.
  apply Z.eqb_neq in N8, N16, N32, N64. rewrite N8, N16, N32, N64.
  reflexivity.
Qed.

Lemma slice_prefix_app {A} (a b : list A) :
  slice (a ++ b) 0 (len a) = Ok a.
Proof.
  pose proof (slice_app_mid [] a b) as H. simpl in H. exact H.
Qed.

Lemma RightPadBytes_le (bs : list byte) (l : Z) :
  len bs <= l ->
  RightPadBytes bs l = bs ++ repeat x00 (Z.to_nat (l - len bs)).
Proof.
  intros H. unfold RightPadBytes. destruct (l <=? len bs) eqn:E;
    [|reflexivity].
  apply Z.leb_le in E. replace (l - len bs) with 0 by lia.
  simpl. symmetry. apply app_nil_r.
Qed.

Lemma LeftPadBytes_le (bs : list byte) (l : Z) :
  len bs <= l ->
  LeftPadBytes bs l = repeat x00 (Z.to_nat (l - len bs)) ++ bs.
Proof.
  intros H. unfold LeftPadBytes. destruct (l <=? len bs) eqn:E;
    [|reflexivity].
  apply Z.leb_le in E. replace (l - len bs) with 0 by lia. reflexivity.
Qed.

Lemma readBool_packed (b : bool) :
  readBool (PaddedBigBytes (if b then 1 else 0) 32) = Ok b.
Proof. destruct b; reflexivity. Qed.

Lemma BytesToAddress_padded (bs : list byte) :
  len bs = 20 -> BytesToAddress (LeftPadBytes bs 32) = bs.
Proof.
  intros H. rewrite LeftPadBytes_le by lia. rewrite H.
  change (Z.to_nat (32 - 20)) with 12%nat.
  unfold BytesToAddress.
  assert (Hl : len (repeat x00 12 ++ bs) = 32)
    by (rewrite len_app, len_repeat; lia).
  rewrite Hl. change (32 >? 20) with true. cbv iota.
  change (Z.to_nat (32 - 20)) with 12%nat.
  assert (Hs : skipn 12 (repeat x00 12 ++ bs) = bs).
  { rewrite skipn_app, repeat_length, skipn_all2
      by (rewrite repeat_length; lia). reflexivity. }
  rewrite Hs, H. reflexivity.
Qed.

Lemma ReadFixedBytes_padded (s : Z) (k : string) (bs : list byte) :
  len bs = s -> s <= 32 ->
  ReadFixedBytes (TyFixedBytes s k) (RightPadBytes bs 32)
  = Ok (VArray (KUint W8) (Values_of_bytes bs)).
Proof.
  intros H Hs. unfold ReadFixedBytes. cbn [T Kind_eqb negb Size].
  rewrite RightPadBytes_le by lia. rewrite <- H.
  rewrite slice_prefix_app. reflexivity.
Qed.

Lemma readFunctionType_padded (k : string) (bs : list byte) :
  len bs = 24 ->
  readFunctionType (TyFunction k) (RightPadBytes bs 32)
  = Ok (VArray (KUint W8) (Values_of_bytes bs)).
Proof.
  intros H. unfold readFunctionType. cbn [T Kind_eqb negb].
  rewrite RightPadBytes_le by lia. rewrite H.
  change (Z.to_nat (32 - 24)) with 8%nat.
  pose proof (slice_app_mid bs (repeat x00 8) []) as H1.
  rewrite app_nil_r, H in H1. change (24 + len (repeat x00 8)) with 32 in H1.
  rewrite H1. cbn [bind].
  change (BigEndian_Uint64 (repeat x00 8)) with (Ok (A:=Z) 0). cbn [bind].
  change (negb (0 =? 0)) with false. cbv iota.
  rewrite <- H, slice_prefix_app. reflexivity.
Qed.

Section Roundtrip.
Variable m : list string -> Value -> option (string -> string).

(** [enc] decodes to [v] at type [t] wherever it sits in an input: in place
    for a static type, and behind an offset word for a dynamic type. *)
Definition decodes (t : Type_) (v : Value) (enc : list byte) : Prop :=
  forall out, len out < 2 ^ 63 ->
    (isDynamicType t = false ->
     forall pre post,
       out = pre ++ enc ++ post -> toGoType (len pre) t out = Ok v)
    /\ (isDynamicType t = true ->
        forall index pre post,
          slice out index (index + 32) = Ok (U256Bytes (len pre)) ->
          out = pre ++ enc ++ post -> toGoType index t out = Ok v).

(** What the round trip needs of an encoding: it decodes to [v]; it is made
    of whole words, at least one, as many as [getTypeSize] says for a static
    type; and reflect builds the Go type of [t], whose values do not take
    more memory than the encoding has bytes. *)
Definition good (t : Type_) (v : Value) (enc : list byte) : Prop :=
  decodes t v enc
  /\ aligned enc
  /\ 32 <= len enc
  /\ (isDynamicType t = false -> len enc = getTypeSize t)
  /\ GetType t = Ok (GoType_of t)
  /\ align_up (Size_ (GoType_of t)) 8 <= len enc.

(* the Go type of a type that is no slice, array or tuple *)
Lemma GetType_leaf t :
  T t <> SliceTy -> T t <> ArrayTy -> T t <> TupleTy -> wfType t ->
  GetType t = Ok (GoType_of t)
  /\ align_up (Size_ (GoType_of t)) 8 <= 32.
Proof.
  intros Hs Ha Ht Hwf.
  destruct t as [s k|s k|k|k|e k|e s k|rn el nm fl k|k|s k|k|k|k|k];
    simpl in Hs, Ha, Ht; try congruence; clear Hs Ha Ht;
    simpl in Hwf; try contradiction;
    try (split; [reflexivity | vm_compute; discriminate]).
  - split; [reflexivity|]. cbn [GoType_of]. unfold reflectIntType.
    repeat match goal with
           | |- context [if ?c then _ else _] => destruct c
           end; vm_compute; discriminate.
  - split; [reflexivity|]. cbn [GoType_of]. unfold reflectIntType.
    repeat match goal with
           | |- context [if ?c then _ else _] => destruct c
           end; vm_compute; discriminate.
  - split; [apply GetType_FixedBytes; lia|].
    cbn [GoType_of array_Type Size_ Type_byte]. unfold align_up.
    assert ((1 * s + 8 - 1) / 8 <= 4); [|lia].
    apply Z.lt_succ_r. apply Z.div_lt_upper_bound; lia.
Qed.

Lemma typeCheck_conforms_elementary t v :
  T t <> SliceTy -> T t <> ArrayTy -> T t <> TupleTy -> wfType t ->
  conforms m t v -> typeCheck t v = Ok tt.
Proof.
  intros Hs Ha Ht Hwf Hc. unfold typeCheck.
  rewrite (proj1 (GetType_leaf t Hs Ha Ht Hwf)). cbn [bind].
  rewrite Kind_GoType_of.
  destruct t; simpl in Hs, Ha, Ht; try congruence; clear Hs Ha Ht;
    cbn [T Kind_eqb orb GetType_Kind] in *; simpl in Hc.
  - destruct Hc as [Hk _]. rewrite Hk, GoKind_eqb_refl. reflexivity.
  - destruct Hc as [Hk _]. rewrite Hk, GoKind_eqb_refl. reflexivity.
  - destruct Hc as [b ->]. reflexivity.
  - destruct Hc as [s ->]. reflexivity.
  - destruct Hc as (bs & -> & H). reflexivity.
  - destruct Hc as (bs & -> & H). cbn. rewrite len_Values_of_bytes, H.
    rewrite Z.eqb_refl. reflexivity.
  - destruct Hc as (bs & ->). reflexivity.
  - destruct Hc.
  - destruct Hc.
  - destruct Hc as (bs & -> & H). reflexivity.
Qed.

Lemma packElement_int_value t v n :
  (T t = IntTy \/ T t = UintTy) -> int_of v = Some n -> 0 <= n \/ T t = IntTy ->
  packElement t v = Ok (U256Bytes n).
Proof.
  intros Ht Hn Hs. unfold packElement.
  destruct Ht as [Ht|Ht]; rewrite Ht.
  - destruct v; try discriminate Hn; injection Hn as ->; reflexivity.
  - destruct Hs as [Hs|Hs]; [|congruence].
    destruct v; try discriminate Hn; injection Hn as ->; try reflexivity.
    destruct (Z.ltb_spec n 0); [lia|reflexivity].
Qed.

Lemma decodes_static_word t v enc :
  T t <> ArrayTy -> T t <> TupleTy ->
  isDynamicType t = false -> len enc = 32 ->
  (forall index out,
      (int_add index 32 >? len out) = false ->
      slice out index (int_add index 32) = Ok enc ->
      toGoType index t out = Ok v) ->
  GetType t = Ok (GoType_of t)
  /\ align_up (Size_ (GoType_of t)) 8 <= 32 ->
  good t v enc.
Proof.
  intros Ha Ht Hd Hl Hdec [Hg Hsz].
  split; [|split; [|split; [|split; [|split; [exact Hg | lia]]]]].
  - intros out Hout. split.
    + intros _ pre post Heq.
      destruct (word_at pre enc post out Heq Hl Hout) as [H1 H2].
      apply Hdec; assumption.
    + congruence.
  - apply aligned_32. exact Hl.
  - lia.
  - intros _. rewrite Hl. symmetry.
    destruct t; try reflexivity; simpl in Ha, Ht; congruence.
Qed.

Lemma pack_good_elementary t v enc :
  T t <> SliceTy -> T t <> ArrayTy -> T t <> TupleTy ->
  T t <> StringTy -> T t <> BytesTy ->
  wfType t -> conforms m t v -> pack m t v = Ok enc ->
  good t v enc /\ len enc = 32 /\ getTypeSize t = 32.
Proof.
  intros Hs Ha Ht Hst Hby Hwf Hc Hp.
  rewrite pack_unfold in Hp.
  rewrite (typeCheck_conforms_elementary t v Hs Ha Ht Hwf Hc) in Hp.
  cbn [bind] in Hp.
  pose proof (GetType_leaf t Hs Ha Ht Hwf) as Hleaf.
  destruct t; simpl in Hs, Ha, Ht, Hst, Hby; try congruence;
    clear Hs Ha Ht Hst Hby; simpl in Hc, Hwf.
  - (* int *)
    destruct Hc as (Hk & n & Hn & Hr).
    rewrite (packElement_int_value _ v n) in Hp by (simpl; auto).
    apply Ok_inj in Hp. subst enc.
    split; [|split; [apply len_U256Bytes | reflexivity]].
    apply decodes_static_word;
      [discriminate | discriminate | reflexivity | apply len_U256Bytes| | exact Hleaf].
    intros index out H1 H2. cbn [toGoType]. rewrite H1, H2. cbn [bind].
    apply ReadInteger_int; try assumption; lia.
  - (* uint *)
    destruct Hc as (Hk & n & Hn & Hr).
    rewrite (packElement_int_value _ v n) in Hp by (simpl; auto; lia).
    apply Ok_inj in Hp. subst enc.
    split; [|split; [apply len_U256Bytes | reflexivity]].
    apply decodes_static_word;
      [discriminate | discriminate | reflexivity | apply len_U256Bytes| | exact Hleaf].
    intros index out H1 H2. cbn [toGoType]. rewrite H1, H2. cbn [bind].
    apply ReadInteger_uint; try assumption; lia.
  - (* bool *)
    destruct Hc as [b ->].
    assert (enc = PaddedBigBytes (if b then 1 else 0) 32).
    { destruct b; apply Ok_inj in Hp; subst enc; reflexivity. }
    subst enc. clear Hp.
    split; [|split; [apply len_PaddedBigBytes | reflexivity]].
    apply decodes_static_word;
      [discriminate | discriminate | reflexivity | apply len_PaddedBigBytes| | exact Hleaf].
    intros index out H1 H2. cbn [toGoType]. rewrite H1, H2. cbn [bind].
    rewrite readBool_packed. reflexivity.
  - (* address *)
    destruct Hc as (bs & -> & Hl).
    unfold packElement in Hp. cbn [T Kind_of GoKind_eqb mustArrayToByteSlice bind Bytes] in Hp.
    rewrite bytes_of_Values_of_bytes in Hp. cbn [bind] in Hp.
    apply Ok_inj in Hp. subst enc.
    assert (Hlen : len (LeftPadBytes bs 32) = 32)
      by (rewrite len_LeftPadBytes; lia).
    split; [|split; [exact Hlen | reflexivity]].
    apply decodes_static_word;
      [discriminate | discriminate | reflexivity | exact Hlen| | exact Hleaf].
    intros index out H1 H2. cbn [toGoType]. rewrite H1, H2. cbn [bind].
    rewrite BytesToAddress_padded by exact Hl. reflexivity.
  - (* fixed bytes *)
    destruct Hc as (bs & -> & Hl).
    unfold packElement in Hp. cbn [T Kind_of GoKind_eqb mustArrayToByteSlice bind Bytes] in Hp.
    rewrite bytes_of_Values_of_bytes in Hp. cbn [bind] in Hp.
    apply Ok_inj in Hp. subst enc.
    assert (Hlen : len (RightPadBytes bs 32) = 32)
      by (rewrite len_RightPadBytes; lia).
    split; [|split; [exact Hlen | reflexivity]].
    apply decodes_static_word;
      [discriminate | discriminate | reflexivity | exact Hlen| | exact Hleaf].
    intros index out H1 H2. cbn [toGoType]. rewrite H1, H2. cbn [bind].
    apply ReadFixedBytes_padded; [exact Hl | lia].
  - (* hash *) destruct Hc.
  - (* fixed point *) destruct Hc.
  - (* function *)
    destruct Hc as (bs & -> & Hl).
    unfold packElement in Hp. cbn [T Kind_of GoKind_eqb mustArrayToByteSlice bind Bytes] in Hp.
    rewrite bytes_of_Values_of_bytes in Hp. cbn [bind] in Hp.
    apply Ok_inj in Hp. subst enc.
    assert (Hlen : len (RightPadBytes bs 32) = 32)
      by (rewrite len_RightPadBytes; lia).
    split; [|split; [exact Hlen | reflexivity]].
    apply decodes_static_word;
      [discriminate | discriminate | reflexivity | exact Hlen| | exact Hleaf].
    intros index out H1 H2. cbn [toGoType]. rewrite H1, H2. cbn [bind].
    apply readFunctionType_padded. exact Hl.
Qed.

End Roundtrip.

(** *** Length-prefixed data *)

Lemma lengthPrefixPointsTo_spec index out pre l body post :
  out = pre ++ packNum_int l ++ body ++ post ->
  0 <= l <= len body -> len out < 2 ^ 63 ->
  slice out index (index + 32) = Ok (U256Bytes (len pre)) ->
  lengthPrefixPointsTo index out = Ok (len pre + 32, l).
Proof.
  intros Hout Hl Hlen Hs.
  destruct (slice_Ok _ _ _ _ Hs) as (Hi0 & _ & Hi1 & _).
  pose proof (len_nonneg pre) as Hp. pose proof (len_nonneg post) as Hq.
  assert (Ho : len out = len pre + 32 + len body + len post).
  { rewrite Hout, !len_app, len_packNum_int. lia. }
  unfold lengthPrefixPointsTo, int_add.
  rewrite (wrap_small (index + 32)) by (unfold in_int; lia).
  rewrite Hs. cbn [bind].
  rewrite SetBytes_U256Bytes, Z.mod_small by lia.
  replace (len pre + 32 >? len out) with false
    by (symmetry; rewrite Z.gtb_ltb; apply Z.ltb_ge; lia).
  unfold BitLen_gt_63, big_Uint64.
  replace (2 ^ 63 <=? len pre + 32) with false
    by (symmetry; apply Z.leb_gt; lia).
  rewrite (Z.mod_small (len pre + 32)) by lia.
  rewrite (wrap_small (len pre + 32)) by (unfold in_int; lia).
  unfold int_sub. replace (len pre + 32 - 32) with (len pre) by lia.
  rewrite (wrap_small (len pre)) by (unfold in_int; lia).
  assert (Hw : slice out (len pre) (len pre + 32) = Ok (packNum_int l)).
  { rewrite Hout.
    replace (len pre + 32) with (len pre + len (packNum_int l))
      by (rewrite len_packNum_int; reflexivity).
    apply slice_app_mid. }
  rewrite Hw. cbn [bind]. unfold packNum_int.
  rewrite SetBytes_U256Bytes, Z.mod_small by lia.
  replace (2 ^ 63 <=? len pre + 32 + l) with false
    by (symmetry; apply Z.leb_gt; lia).
  replace (len pre + 32 + l >? len out) with false
    by (symmetry; rewrite Z.gtb_ltb; apply Z.ltb_ge; lia).
  rewrite (Z.mod_small l) by lia.
  rewrite (wrap_small l) by (unfold in_int; lia). reflexivity.
Qed.

Lemma decodes_bytes (s : list byte) (read : list byte -> Value) (t : Type_) :
  isDynamicType t = true ->
  (forall index out,
      toGoType index t out
      = if int_add index 32 >? len out then Err errLengthInsufficient
        else ' (begin, length) <- lengthPrefixPointsTo index out ;;
             x <- slice out begin (int_add begin length) ;;
             Ok (read x)) ->
  len (packBytesSlice s (len s)) < 2 ^ 63 ->
  GetType t = Ok (GoType_of t)
  /\ align_up (Size_ (GoType_of t)) 8 <= 32 ->
  good t (read s) (packBytesSlice s (len s)).
Proof.
  intros Hd Hun Hlen [Hg Hsz].
  pose proof (len_nonneg s) as Hs0.
  assert (Hpad : packBytesSlice s (len s)
                 = packNum_int (len s)
                   ++ (s ++ repeat x00 (Z.to_nat ((len s + 31) / 32 * 32 - len s)))).
  { unfold packBytesSlice in *.
    rewrite len_app, len_packNum_int, len_RightPadBytes in Hlen.
    rewrite padded_length by lia.
    rewrite RightPadBytes_le; [reflexivity|].
    pose proof (Z.mod_pos_bound (len s + 31) 32 ltac:(lia)).
    pose proof (Z.div_mod (len s + 31) 32 ltac:(lia)). lia. }
  assert (H32 : 32 <= len (packBytesSlice s (len s))).
  { rewrite Hpad, len_app, len_packNum_int.
    pose proof (len_nonneg (s ++ repeat x00 (Z.to_nat ((len s + 31) / 32 * 32 - len s)))).
    lia. }
  split; [|split; [|split; [|split; [|split; [exact Hg | lia]]]]].
  - intros out Hout. split; [congruence|].
    intros _ index pre post Hsl Heq.
    destruct (slice_Ok _ _ _ _ Hsl) as (Hi0 & _ & Hi1 & _).
    rewrite Hun. unfold int_add at 1.
    rewrite (wrap_small (index + 32)) by (unfold in_int; lia).
    replace (index + 32 >? len out) with false
      by (symmetry; rewrite Z.gtb_ltb; apply Z.ltb_ge; lia).
    rewrite Hpad in Heq. rewrite <- !app_assoc in Heq.
    rewrite (lengthPrefixPointsTo_spec index out pre (len s)
               (s ++ repeat x00 (Z.to_nat ((len s + 31) / 32 * 32 - len s)))
               post); try assumption.
    + cbn [bind]. unfold int_add.
      assert (Hb : len out = len pre + 32 + len s
                             + len (repeat x00 (Z.to_nat ((len s + 31) / 32 * 32 - len s)))
                             + len post).
      { rewrite Heq, !len_app, len_packNum_int. lia. }
      pose proof (len_nonneg pre). pose proof (len_nonneg post).
      pose proof (len_nonneg (repeat x00 (Z.to_nat ((len s + 31) / 32 * 32 - len s)))).
      rewrite (wrap_small (len pre + 32 + len s)) by (unfold in_int; lia).
      assert (Hx : slice out (len pre + 32) (len pre + 32 + len s) = Ok s).
      { rewrite Heq.
        replace (pre ++ packNum_int (len s) ++ s ++ repeat x00 (Z.to_nat ((len s + 31) / 32 * 32 - len s)) ++ post)
          with ((pre ++ packNum_int (len s)) ++ s ++ (repeat x00 (Z.to_nat ((len s + 31) / 32 * 32 - len s)) ++ post))
          by (rewrite <- !app_assoc; reflexivity).
        replace (len pre + 32) with (len (pre ++ packNum_int (len s)))
          by (rewrite len_app, len_packNum_int; reflexivity).
        apply slice_app_mid. }
      rewrite Hx. reflexivity.
    + rewrite <- !app_assoc. exact Heq.
    + rewrite len_app. pose proof (len_nonneg (repeat x00 (Z.to_nat ((len s + 31) / 32 * 32 - len s)))). lia.
  - apply aligned_packBytesSlice. exact Hlen.
  - exact H32.
  - congruence.
Qed.

(** *** Heads and tails *)

Definition item : Type := (Type_ * Value * list byte)%type.
Definition it_type (it : item) : Type_ := fst (fst it).
Definition it_value (it : item) : Value := snd (fst it).
Definition it_enc (it : item) : list byte := snd it.

(* the head part and the tail part that the loops of the encoder write for a
   list of packed items, the first offset being [offset] *)
Fixpoint heads (offset : Z) (its : list item) : list byte :=
  match its with
  | [] => []
  | it :: r =>
      if isDynamicType (it_type it)
      then packNum_int offset ++ heads (int_add offset (len (it_enc it))) r
      else it_enc it ++ heads offset r
  end.

Fixpoint tails (its : list item) : list byte :=
  match its with
  | [] => []
  | it :: r =>
      if isDynamicType (it_type it) then it_enc it ++ tails r else tails r
  end.

Definition head_size (it : item) : Z :=
  if isDynamicType (it_type it) then 32 else len (it_enc it).

Fixpoint heads_len (its : list item) : Z :=
  match its with
  | [] => 0
  | it :: r => head_size it + heads_len r
  end.

Fixpoint run_offset (offset : Z) (its : list item) : Z :=
  match its with
  | [] => offset
  | it :: r =>
      run_offset (if isDynamicType (it_type it)
                  then int_add offset (len (it_enc it)) else offset) r
  end.

Lemma len_heads offset its : len (heads offset its) = heads_len its.
Proof.
  revert offset. induction its as [|it r IH]; intros offset; [reflexivity|].
  cbn [heads heads_len]. unfold head_size.
  destruct (isDynamicType (it_type it));
    rewrite len_app, IH, ?len_packNum_int; reflexivity.
Qed.

Lemma heads_app offset a b :
  heads offset (a ++ b) = heads offset a ++ heads (run_offset offset a) b.
Proof.
  revert offset. induction a as [|it r IH]; intros offset; [reflexivity|].
  cbn [heads run_offset app].
  destruct (isDynamicType (it_type it)); rewrite IH, app_assoc; reflexivity.
Qed.

Lemma tails_app a b : tails (a ++ b) = tails a ++ tails b.
Proof.
  induction a as [|it r IH]; [reflexivity|].
  cbn [tails app].
  destruct (isDynamicType (it_type it)); rewrite IH, ?app_assoc; reflexivity.
Qed.

Lemma heads_len_app a b : heads_len (a ++ b) = heads_len a + heads_len b.
Proof.
  induction a as [|it r IH]; [reflexivity|].
  cbn [heads_len app]. rewrite IH. lia.
Qed.

Lemma heads_len_nonneg its : 0 <= heads_len its.
Proof.
  induction its as [|it r IH]; cbn [heads_len]; [lia|].
  unfold head_size. destruct (isDynamicType _);
    pose proof (len_nonneg (it_enc it)); lia.
Qed.

Lemma run_offset_exact offset its :
  0 <= offset -> offset + len (tails its) < 2 ^ 63 ->
  run_offset offset its = offset + len (tails its).
Proof.
  revert offset. induction its as [|it r IH]; intros offset H0 H;
    cbn [run_offset tails] in *.
  - change (len (@nil byte)) with 0. lia.
  - pose proof (len_nonneg (it_enc it)). pose proof (len_nonneg (tails r)).
    destruct (isDynamicType (it_type it)).
    + rewrite len_app in H |- *. unfold int_add.
      rewrite wrap_small by (unfold in_int; lia).
      rewrite IH by lia. lia.
    + apply IH; assumption.
Qed.

Lemma heads_static offset offset' its :
  Forall (fun it => isDynamicType (it_type it) = false) its ->
  heads offset its = heads offset' its /\ tails its = [].
Proof.
  induction 1 as [|it r Hit _ IH]; [split; reflexivity|].
  cbn [heads tails]. rewrite Hit. destruct IH as [-> ->]. split; reflexivity.
Qed.

Section Layout.
Variable m : list string -> Value -> option (string -> string).

Definition packed (it : item) : Prop :=
  pack m (it_type it) (it_value it) = Ok (it_enc it).

Lemma pack_elements_layout elem vs :
  forall offset ret tail out,
    pack_elements (pack m elem) (isDynamicType elem) vs offset ret tail
    = Ok out ->
    exists its,
      Forall (fun it => it_type it = elem) its
      /\ map it_value its = vs
      /\ Forall packed its
      /\ out = (ret ++ heads offset its) ++ (tail ++ tails its).
Proof.
  induction vs as [|vi rest IH]; intros offset ret tail out H; simpl in H.
  - apply Ok_inj in H. subst out. exists []. simpl.
    rewrite !app_nil_r. auto.
  - destruct (pack m elem vi) as [val| |] eqn:E; cbn [bind] in H;
      try discriminate H.
    destruct (isDynamicType elem) eqn:Ed; cbn [negb] in H;
      apply IH in H; destruct H as (its & Ht & Hv & Hp & ->);
      exists ((elem, vi, val) :: its);
      (split; [constructor; [reflexivity | exact Ht]|]);
      (split; [simpl; rewrite Hv; reflexivity|]);
      (split; [constructor; [exact E | exact Hp]|]);
      cbn [heads tails it_type it_enc fst snd]; rewrite Ed;
      rewrite <- !app_assoc; reflexivity.
Qed.

Lemma skipn_nth_error {A} (l : list A) (i : nat) (x : A) :
  nth_error l i = Some x -> skipn i l = x :: skipn (S i) l.
Proof.
  revert i. induction l as [|a l IH]; intros [|i] H; simpl in H;
    try discriminate.
  - injection H as ->. reflexivity.
  - apply IH in H. exact H.
Qed.

Lemma pack_fields_layout names fm v vs_all elems :
  (forall j vj, nth_error vs_all j = Some vj ->
                exists name, nth_error names j = Some name
                             /\ FieldByName v (fm name) = Ok (Some vj)) ->
  forall i offset ret tail out,
    (List.length elems + i = List.length vs_all)%nat ->
    pack_fields (pack m) names fm v elems i offset ret tail = Ok out ->
    exists its,
      map it_type its = elems
      /\ map it_value its = skipn i vs_all
      /\ Forall packed its
      /\ out = (ret ++ heads offset its) ++ (tail ++ tails its).
Proof.
  intros Hfound.
  induction elems as [|elem rest IH]; intros i offset ret tail out Hl H;
    simpl in H.
  - apply Ok_inj in H. subst out. exists []. simpl in *.
    rewrite !app_nil_r, skipn_all2 by lia. auto.
  - simpl in Hl.
    destruct (nth_error vs_all i) as [vi|] eqn:Ev;
      [|apply nth_error_None in Ev; lia].
    destruct (Hfound i vi Ev) as (name & En & Ef).
    rewrite En, Ef in H. cbn [bind] in H.
    destruct (pack m elem vi) as [val| |] eqn:E; cbn [bind] in H;
      try discriminate H.
    rewrite (skipn_nth_error _ _ _ Ev).
    destruct (isDynamicType elem) eqn:Ed;
      apply IH in H; try lia; destruct H as (its & Ht & Hv & Hp & ->);
      exists ((elem, vi, val) :: its);
      (split; [simpl; rewrite Ht; reflexivity|]);
      (split; [simpl; rewrite Hv; reflexivity|]);
      (split; [constructor; [exact E | exact Hp]|]);
      cbn [heads tails it_type it_enc fst snd]; rewrite Ed;
      rewrite <- !app_assoc; reflexivity.
Qed.

End Layout.

(** *** Decoding what the loops of the encoder wrote *)

(* the value of an item as the decoder returns it *)
Definition it_dec (it : item) : Value := normal (it_type it) (it_value it).

Definition good_item (it : item) : Prop :=
  good (it_type it) (it_dec it) (it_enc it).

Lemma good_head_size it :
  good_item it ->
  head_size it = getTypeSize (it_type it)
  /\ 32 <= head_size it /\ exists k, head_size it = 32 * k.
Proof.
  intros (_ & Ha & H32 & Hs & _). unfold head_size.
  destruct (isDynamicType (it_type it)) eqn:Ed.
  - split; [|split; [lia | exists 1; lia]].
    symmetry. apply getTypeSize_dynamic. exact Ed.
  - split; [apply Hs; reflexivity|]. split; [exact H32 | exact Ha].
Qed.

Lemma heads_len_good its :
  Forall good_item its ->
  32 * len its <= heads_len its /\ exists k, heads_len its = 32 * k.
Proof.
  induction 1 as [|it r Hit _ IH]; cbn [heads_len].
  - change (len (@nil item)) with 0. split; [lia | exists 0; lia].
  - rewrite len_cons.
    destruct (good_head_size it Hit) as (_ & H32 & k & Hk).
    destruct IH as [IH1 [k' IH2]]. split; [lia | exists (k + k'); lia].
Qed.

Lemma slice_in_bounds {A} (s : list A) (a b : Z) :
  0 <= a -> a <= b -> b <= len s -> exists r, slice s a b = Ok r.
Proof.
  intros H0 H1 H2. unfold slice.
  replace ((0 <=? a) && (a <=? b) && (b <=? len s)) with true.
  - eexists. reflexivity.
  - symmetry. rewrite !andb_true_iff, !Z.leb_le. lia.
Qed.

Lemma decode_item its1 it its2 post out :
  out = heads (heads_len (its1 ++ it :: its2)) (its1 ++ it :: its2)
        ++ tails (its1 ++ it :: its2) ++ post ->
  len out < 2 ^ 63 ->
  decodes (it_type it) (it_dec it) (it_enc it) ->
  toGoType (heads_len its1) (it_type it) out = Ok (it_dec it).
Proof.
  intros Hout Hlen Hdec.
  remember (its1 ++ it :: its2) as its eqn:Hits.
  remember (heads_len its) as H eqn:HH.
  destruct (Hdec out Hlen) as [Hst Hdy].
  assert (Hl : len out = H + len (tails its) + len post).
  { rewrite Hout, !len_app, len_heads. lia. }
  pose proof (heads_len_nonneg its) as Hnn. rewrite <- HH in Hnn.
  pose proof (len_nonneg post) as Hp.
  assert (Ht : tails its = tails its1 ++ tails (it :: its2))
    by (rewrite Hits; apply tails_app).
  assert (Hh : heads H its
               = heads H its1 ++ heads (run_offset H its1) (it :: its2))
    by (rewrite Hits; apply heads_app).
  pose proof (len_nonneg (tails its1)) as Ht1.
  pose proof (len_nonneg (tails (it :: its2))) as Ht2.
  rewrite Ht, len_app in Hl.
  cbn [heads tails] in Hh, Ht.
  destruct (isDynamicType (it_type it)) eqn:Ed.
  - (* behind an offset word *)
    assert (Ho : run_offset H its1 = H + len (tails its1))
      by (apply run_offset_exact; lia).
    apply (Hdy eq_refl (heads_len its1) (heads H its ++ tails its1)
               (tails its2 ++ post)).
    + rewrite len_app, len_heads, <- HH.
      rewrite Hout, Hh, Ho, <- !app_assoc.
      rewrite <- (len_heads H its1).
      replace (len (heads H its1) + 32)
        with (len (heads H its1) + len (packNum_int (H + len (tails its1))))
        by (rewrite len_packNum_int; reflexivity).
      apply slice_app_mid.
    + rewrite Hout, Ht, <- !app_assoc. reflexivity.
  - (* in place *)
    rewrite <- (len_heads H its1).
    apply (Hst eq_refl (heads H its1)
               (heads (run_offset H its1) its2 ++ tails its ++ post)).
    rewrite Hout, Hh, <- !app_assoc. reflexivity.
Qed.

Lemma quot_32 (k : Z) : 0 <= k -> Z.quot (32 * k) 32 = k.
Proof.
  intros H. rewrite Z.quot_div_nonneg by lia.
  rewrite Z.mul_comm. apply Z.div_mul. lia.
Qed.

Lemma forTuple_loop_layout fields out its post :
  out = heads (heads_len its) its ++ tails its ++ post ->
  len out < 2 ^ 63 ->
  Forall good_item its ->
  forall its2 its1 fs1 fs2 n va,
    its = its1 ++ its2 -> fields = fs1 ++ fs2 ->
    List.length fs1 = List.length its1 ->
    List.length fs2 = List.length its2 ->
    n = List.length its1 ->
    32 * (Z.of_nat n + va) = heads_len its1 ->
    forTuple_loop toGoType fields out (map it_type its2) n va
    = Ok (combine fs2 (map it_dec its2)).
Proof.
  intros Hout Hlen Hgood.
  assert (Hbound : heads_len its <= len out).
  { rewrite Hout, !len_app, len_heads.
    pose proof (len_nonneg (tails its)). pose proof (len_nonneg post). lia. }
  induction its2 as [|it r IH]; intros its1 fs1 fs2 n va Hits Hf Hl1 Hl2 Hn Hva.
  - destruct fs2; [reflexivity | discriminate Hl2].
  - destruct fs2 as [|name fs2]; [discriminate Hl2|].
    assert (Hg1 : Forall good_item its1 /\ Forall good_item (it :: r)).
    { rewrite Hits in Hgood. apply Forall_app in Hgood. exact Hgood. }
    destruct Hg1 as [Hg1 Hg2]. inversion Hg2 as [|x y Hit Hr]; subst x y.
    destruct (heads_len_good its1 Hg1) as [Hn1 [k1 Hk1]].
    destruct (good_head_size it Hit) as (Hhs & H32 & k & Hk).
    assert (Hb2 : heads_len its1 + head_size it <= heads_len its).
    { rewrite Hits, heads_len_app. cbn [heads_len].
      pose proof (heads_len_nonneg r). lia. }
    pose proof (heads_len_nonneg its1) as Hnn.
    assert (Hnz : len its1 = Z.of_nat n) by (unfold len; lia).
    cbn [forTuple_loop map].
    assert (Hidx : int_mul (int_add (Z.of_nat n) va) 32 = heads_len its1).
    { unfold int_mul, int_add.
      rewrite (wrap_small (Z.of_nat n + va)) by (unfold in_int; lia).
      rewrite wrap_small by (unfold in_int; lia). lia. }
    rewrite Hidx.
    rewrite (decode_item its1 it r post out); try assumption;
      [|rewrite <- Hits; exact Hout | apply Hit].
    cbn [bind].
    assert (Hnth : nth_error fields n = Some name).
    { rewrite Hf, nth_error_app2 by lia.
      replace (n - List.length fs1)%nat with 0%nat by lia. reflexivity. }
    rewrite Hnth.
    assert (Hstep : forall va',
               32 * (Z.of_nat (S n) + va') = heads_len (its1 ++ [it]) ->
               forTuple_loop toGoType fields out (map it_type r) (S n) va'
               = Ok (combine fs2 (map it_dec r))).
    { intros va' Hva'.
      apply (IH (its1 ++ [it]) (fs1 ++ [name]) fs2 (S n) va').
      - rewrite <- app_assoc. exact Hits.
      - rewrite <- app_assoc. exact Hf.
      - rewrite !length_app. simpl. lia.
      - simpl in Hl2. lia.
      - rewrite length_app. simpl. lia.
      - exact Hva'. }
    assert (Hlen1 : heads_len (its1 ++ [it]) = heads_len its1 + head_size it).
    { rewrite heads_len_app. cbn [heads_len]. lia. }
    assert (Hgrow : int_add va (int_sub (int_div (getTypeSize (it_type it)) 32) 1)
                    = va + (k - 1)).
    { rewrite <- Hhs, Hk. unfold int_add, int_sub, int_div.
      rewrite quot_32 by lia.
      rewrite (wrap_small k) by (unfold in_int; lia).
      rewrite (wrap_small (k - 1)) by (unfold in_int; lia).
      apply wrap_small. unfold in_int. lia. }
    assert (Hword : (Kind_eqb (T (it_type it)) ArrayTy
                     && negb (isDynamicType (it_type it)) = false) ->
                    (Kind_eqb (T (it_type it)) TupleTy
                     && negb (isDynamicType (it_type it)) = false) ->
                    head_size it = 32).
    { intros Ha Ht. unfold head_size in *.
      destruct (isDynamicType (it_type it)) eqn:Ed; [reflexivity|].
      rewrite Hhs. rewrite andb_true_r in Ha, Ht.
      apply getTypeSize_elementary;
        intros E; apply Kind_eqb_eq in E; congruence. }
    destruct (Kind_eqb (T (it_type it)) ArrayTy
              && negb (isDynamicType (it_type it))) eqn:Ea.
    { rewrite Hgrow, Hstep by lia. reflexivity. }
    destruct (Kind_eqb (T (it_type it)) TupleTy
              && negb (isDynamicType (it_type it))) eqn:Et.
    { rewrite Hgrow, Hstep by lia. reflexivity. }
    rewrite Hstep; [reflexivity|].
    rewrite Hlen1, (Hword eq_refl eq_refl). lia.
Qed.

Lemma forEach_loop_layout elem out its post :
  out = heads (heads_len its) its ++ tails its ++ post ->
  len out < 2 ^ 63 ->
  Forall good_item its ->
  Forall (fun it => it_type it = elem) its ->
  forall its2 its1,
    its = its1 ++ its2 ->
    forEach_loop (fun i => toGoType i elem out) (getTypeSize elem)
                 (heads_len its1) (List.length its2)
    = Ok (map it_dec its2).
Proof.
  intros Hout Hlen Hgood Helem.
  assert (Hbound : heads_len its <= len out).
  { rewrite Hout, !len_app, len_heads.
    pose proof (len_nonneg (tails its)). pose proof (len_nonneg post). lia. }
  induction its2 as [|it r IH]; intros its1 Hits; [reflexivity|].
  assert (Hit : good_item it /\ it_type it = elem).
  { rewrite Hits in Hgood, Helem.
    apply Forall_app in Hgood, Helem.
    destruct Hgood as [_ Hg], Helem as [_ He].
    inversion Hg; inversion He; subst. auto. }
  destruct Hit as [Hit He].
  destruct (good_head_size it Hit) as (Hhs & H32 & _).
  cbn [forEach_loop List.length map].
  rewrite <- He at 1.
  rewrite (decode_item its1 it r post out); try assumption;
    [|rewrite <- Hits; exact Hout | apply Hit].
  cbn [bind].
  assert (Hnext : int_add (heads_len its1) (getTypeSize elem)
                  = heads_len (its1 ++ [it])).
  { rewrite heads_len_app. cbn [heads_len]. rewrite <- He, <- Hhs.
    unfold int_add. rewrite Z.add_0_r. apply wrap_small.
    pose proof (heads_len_nonneg its1). pose proof (heads_len_nonneg r).
    assert (heads_len its1 + head_size it <= heads_len its).
    { rewrite Hits, heads_len_app. cbn [heads_len]. lia. }
    unfold in_int. lia. }
  rewrite Hnext, (IH (its1 ++ [it])) by (rewrite <- app_assoc; exact Hits).
  reflexivity.
Qed.

Section Roundtrip_main.
Variable m : list string -> Value -> option (string -> string).

Lemma wfType_tuple rn elems names fields k :
  wfType (TyTuple rn elems names fields k)
  <-> elems <> [] /\ Forall wfType elems.
Proof.
  cbn [wfType].
  assert (H : (fix all (l : list Type_) : Prop :=
                 match l with
                 | [] => True
                 | e :: r => wfType e /\ all r
                 end) elems <-> Forall wfType elems).
  { induction elems as [|e r IH]; split; intros H; auto.
    - destruct H as [H1 H2]. constructor; [exact H1 | apply IH; exact H2].
    - inversion H; subst. split; [assumption | apply IH; assumption]. }
  rewrite H. reflexivity.
Qed.

Lemma conforms_tuple rn elems names fields k v :
  conforms m (TyTuple rn elems names fields k) v
  <-> exists vs,
      v = VStruct (combine fields vs)
      /\ List.length fields = List.length vs
      /\ fields_found m names v vs
      /\ Forall2 (conforms m) elems vs.
Proof.
  cbn [conforms].
  assert (H : forall vs,
             (fix all (l : list Type_) (vs : list Value) : Prop :=
                match l, vs with
                | [], [] => True
                | e :: r, x :: xs => conforms m e x /\ all r xs
                | _, _ => False
                end) elems vs <-> Forall2 (conforms m) elems vs).
  { induction elems as [|e r IH]; intros [|x xs]; split; intros H;
      try (inversion H; fail); auto.
    - destruct H as [H1 H2]. constructor; [exact H1 | apply IH; exact H2].
    - inversion H; subst. split; [assumption | apply IH; assumption]. }
  split; intros (vs & H1 & H2 & H3 & H4); exists vs;
    (split; [exact H1|]); (split; [exact H2|]); (split; [exact H3|]);
    apply H; exact H4.
Qed.

Lemma accepted_tuple rn elems names fields k v :
  accepted m (TyTuple rn elems names fields k) v
  <-> exists vs,
      v = VStruct (combine fields vs)
      /\ List.length fields = List.length vs
      /\ fields_found m names v vs
      /\ Forall2 (accepted m) elems vs.
Proof.
  cbn [accepted].
  assert (H : forall vs,
             (fix all (l : list Type_) (vs : list Value) : Prop :=
                match l, vs with
                | [], [] => True
                | e :: r, x :: xs => accepted m e x /\ all r xs
                | _, _ => False
                end) elems vs <-> Forall2 (accepted m) elems vs).
  { induction elems as [|e r IH]; intros [|x xs]; split; intros H;
      try (inversion H; fail); auto.
    - destruct H as [H1 H2]. constructor; [exact H1 | apply IH; exact H2].
    - inversion H; subst. split; [assumption | apply IH; assumption]. }
  split; intros (vs & H1 & H2 & H3 & H4); exists vs;
    (split; [exact H1|]); (split; [exact H2|]); (split; [exact H3|]);
    apply H; exact H4.
Qed.

Lemma map_fst_combine {A B} (l : list A) (l' : list B) :
  List.length l = List.length l' -> map fst (combine l l') = l.
Proof.
  revert l'. induction l as [|a l IH]; intros [|b l'] H; simpl in *;
    try discriminate; [reflexivity|]. rewrite IH by lia. reflexivity.
Qed.

Lemma map_snd_combine {A B} (l : list A) (l' : list B) :
  List.length l = List.length l' -> map snd (combine l l') = l'.
Proof.
  revert l'. induction l as [|a l IH]; intros [|b l'] H; simpl in *;
    try discriminate; [reflexivity|]. rewrite IH by lia. reflexivity.
Qed.

Lemma normal_tuple rn elems names fields k vs :
  List.length fields = List.length vs ->
  normal (TyTuple rn elems names fields k) (VStruct (combine fields vs))
  = VStruct (combine fields (normal_each elems vs)).
Proof.
  intros H. cbn [normal].
  rewrite (map_fst_combine fields vs H), (map_snd_combine fields vs H).
  reflexivity.
Qed.

Lemma normal_each_items its :
  normal_each (map it_type its) (map it_value its) = map it_dec its.
Proof.
  induction its as [|it r IH]; [reflexivity|].
  cbn [map normal_each]. rewrite IH. reflexivity.
Qed.

Lemma map_normal_items elem its :
  Forall (fun it => it_type it = elem) its ->
  map (normal elem) (map it_value its) = map it_dec its.
Proof.
  induction 1 as [|it r Hit _ IH]; [reflexivity|].
  cbn [map]. rewrite IH. unfold it_dec at 2. rewrite Hit. reflexivity.
Qed.

(* a conforming value is accepted, and is returned as it is *)
Lemma conforms_accepted t : forall v, conforms m t v -> accepted m t v.
Proof.
  induction t as [s k|s k|k|k|t k IHt|t s k IHt|rn elems names fields k IHe
                 |k|s k|k|k|k|k] using Type_tree_ind;
    intros v Hc; try exact Hc.
  - cbn [conforms] in Hc. destruct Hc as (vs & -> & Hc).
    exists (GetType_Kind t), vs. split; [left; reflexivity|].
    split; [left; reflexivity|].
    rewrite Forall_forall in *. auto.
  - cbn [conforms] in Hc. destruct Hc as (vs & -> & Hl & Hc).
    exists (GetType_Kind t), vs. split; [right; reflexivity|].
    split; [left; reflexivity|]. split; [exact Hl|].
    rewrite Forall_forall in *. auto.
  - apply conforms_tuple in Hc. apply accepted_tuple.
    destruct Hc as (vs & H1 & H2 & H3 & H4). exists vs.
    repeat (split; [assumption|]).
    clear - IHe H4. induction H4 as [|e x l1 l2 Hex _ IH]; [constructor|].
    inversion IHe; subst. constructor; auto.
Qed.

Lemma normal_conforms t : forall v, conforms m t v -> normal t v = v.
Proof.
  induction t as [s k|s k|k|k|t k IHt|t s k IHt|rn elems names fields k IHe
                 |k|s k|k|k|k|k] using Type_tree_ind;
    intros v Hc; try reflexivity.
  - cbn [conforms] in Hc. destruct Hc as (vs & -> & Hc). cbn [normal].
    f_equal. induction Hc as [|x l Hx _ IH]; [reflexivity|].
    cbn [map]. rewrite IH, (IHt x Hx). reflexivity.
  - cbn [conforms] in Hc. destruct Hc as (vs & -> & Hl & Hc). cbn [normal].
    f_equal. clear Hl. induction Hc as [|x l Hx _ IH]; [reflexivity|].
    cbn [map]. rewrite IH, (IHt x Hx). reflexivity.
  - apply conforms_tuple in Hc.
    destruct Hc as (vs & -> & H2 & _ & H4).
    rewrite normal_tuple by exact H2. f_equal. f_equal.
    clear - IHe H4. induction H4 as [|e x l1 l2 Hex _ IH]; [reflexivity|].
    inversion IHe as [|y z Hy Hz]; subst.
    cbn [normal_each]. rewrite (Hy x Hex), (IH Hz). reflexivity.
Qed.

(* the Go type of a type of the data model takes some memory *)
Lemma GoType_takes_memory t : wfType t -> takes_memory (GoType_of t).
Proof.
  induction t as [s k|s k|k|k|t k IHt|t s k IHt|rn elems names fields k IHe
                 |k|s k|k|k|k|k] using Type_tree_ind;
    intros Hwf; try (simpl in Hwf; contradiction);
    try (split; [reflexivity | cbn; unfold small_align; auto]; fail).
  - cbn [GoType_of]. unfold reflectIntType.
    repeat match goal with
           | |- context [if ?c then _ else _] => destruct c
           end; (split; [reflexivity | cbn; unfold small_align; auto]).
  - cbn [GoType_of]. unfold reflectIntType.
    repeat match goal with
           | |- context [if ?c then _ else _] => destruct c
           end; (split; [reflexivity | cbn; unfold small_align; auto]).
  - simpl in Hwf. destruct Hwf as [Hs Hwf]. destruct (IHt Hwf) as [H1 H2].
    split; [cbn [GoType_of array_Type Size_]; nia | exact H2].
  - apply wfType_tuple in Hwf. destruct Hwf as [Hne Hwf].
    rewrite GoType_of_tuple. apply struct_Type_bound.
    + rewrite Forall_map. rewrite Forall_forall in *. auto.
    + destruct elems; [congruence | discriminate].
  - simpl in Hwf.
    split; [cbn [GoType_of array_Type Size_ Type_byte]; lia
           | left; reflexivity].
Qed.

(* what the induction gives for a type *)
Definition pack_good_at (t : Type_) : Prop :=
  wfType t ->
  forall v enc,
    accepted m t v -> pack m t v = Ok enc -> len enc < 2 ^ 63 ->
    good t (normal t v) enc.

(* the bytes of the encodings of the items *)
Fixpoint encs_len (its : list item) : Z :=
  match its with
  | [] => 0
  | it :: r => len (it_enc it) + encs_len r
  end.

Lemma encs_len_layout its : encs_len its <= heads_len its + len (tails its).
Proof.
  induction its as [|x r IH]; cbn [encs_len heads_len tails];
    [change (len (@nil byte)) with 0; lia|].
  unfold head_size. pose proof (len_nonneg (it_enc x)).
  destruct (isDynamicType (it_type x)); rewrite ?len_app; lia.
Qed.

(* the values of the items do not take more memory than their encodings
   have bytes *)
Lemma words_of_items its :
  Forall good_item its ->
  words_of (map (fun it => GoType_of (it_type it)) its) <= encs_len its.
Proof.
  induction 1 as [|it r Hit _ IH]; cbn [map words_of encs_len]; [lia|].
  destruct Hit as (_ & _ & _ & _ & _ & Hsz). lia.
Qed.

Lemma words_of_repeat elem its :
  Forall (fun it => it_type it = elem) its ->
  words_of (map (fun it => GoType_of (it_type it)) its)
  = len its * align_up (Size_ (GoType_of elem)) 8.
Proof.
  induction 1 as [|it r Hit _ IH]; cbn [map words_of];
    [change (len (@nil item)) with 0; lia|].
  rewrite len_cons, IH, Hit. lia.
Qed.

Lemma enc_in_layout it its :
  In it its -> len (it_enc it) <= heads_len its + len (tails its).
Proof.
  induction its as [|x r IH]; intros Hin; [destruct Hin|].
  cbn [heads_len tails]. unfold head_size.
  pose proof (heads_len_nonneg r). pose proof (len_nonneg (tails r)).
  pose proof (len_nonneg (it_enc x)).
  destruct Hin as [->|Hin].
  - destruct (isDynamicType (it_type it)); rewrite ?len_app; lia.
  - specialize (IH Hin).
    destruct (isDynamicType (it_type x)); rewrite ?len_app; lia.
Qed.

Lemma items_good its :
  Forall (fun it => pack_good_at (it_type it) /\ wfType (it_type it)
                    /\ accepted m (it_type it) (it_value it)) its ->
  Forall (packed m) its ->
  heads_len its + len (tails its) < 2 ^ 63 ->
  Forall good_item its.
Proof.
  intros H1 H2 Hb. rewrite Forall_forall in *. intros it Hin.
  destruct (H1 it Hin) as (Hg & Hw & Hc).
  apply Hg; [exact Hw | exact Hc | exact (H2 it Hin)|].
  pose proof (enc_in_layout it its Hin). lia.
Qed.

Lemma layout_aligned offset its :
  Forall good_item its ->
  aligned (heads offset its) /\ aligned (tails its).
Proof.
  intros H. revert offset.
  induction H as [|it r Hit _ IH]; intros offset;
    [split; apply aligned_nil|].
  cbn [heads tails]. destruct Hit as (_ & Ha & _).
  destruct (isDynamicType (it_type it)).
  - destruct (IH (int_add offset (len (it_enc it)))) as [IH1 IH2].
    split; apply aligned_app; try assumption.
    apply aligned_32, len_packNum_int.
  - destruct (IH offset) as [IH1 IH2].
    split; [apply aligned_app|]; assumption.
Qed.

Lemma sum_TypeSize_layout its :
  Forall good_item its ->
  forall z, 0 <= z -> z + heads_len its < 2 ^ 63 ->
            sum_TypeSize (map it_type its) z = z + heads_len its.
Proof.
  induction 1 as [|it r Hit _ IH]; intros z Hz Hb; cbn [map sum_TypeSize heads_len] in *.
  - lia.
  - destruct (good_head_size it Hit) as (Hhs & H32 & _).
    pose proof (heads_len_nonneg r).
    rewrite <- Hhs. unfold int_add.
    rewrite wrap_small by (unfold in_int; lia).
    rewrite IH by lia. lia.
Qed.

Lemma heads_len_uniform its g :
  Forall (fun it => head_size it = g) its -> heads_len its = len its * g.
Proof.
  induction 1 as [|it r Hit _ IH]; cbn [heads_len].
  - reflexivity.
  - rewrite len_cons, IH, Hit. lia.
Qed.

Lemma len_map {A B} (f : A -> B) (l : list A) : len (map f l) = len l.
Proof. unfold len. rewrite length_map. reflexivity. Qed.

(* the items that the loop over the elements of a slice or array wrote *)
Lemma sequence_items elem vs ret enc :
  pack_good_at elem -> wfType elem ->
  Forall (accepted m elem) vs ->
  pack_elements (pack m elem) (isDynamicType elem) vs
                (if isDynamicType elem
                 then int_mul (getTypeSize elem) (len vs) else 0)
                ret [] = Ok enc ->
  len enc < 2 ^ 63 ->
  exists its,
    Forall (fun it => it_type it = elem) its
    /\ map it_value its = vs
    /\ Forall good_item its
    /\ enc = ret ++ heads (heads_len its) its ++ tails its.
Proof.
  intros IH Hwf Hc Hp Hlen.
  apply pack_elements_layout in Hp.
  destruct Hp as (its & Ht & Hv & Hpk & Henc).
  cbn [app] in Henc.
  assert (Hb : len enc = len ret + heads_len its + len (tails its)).
  { rewrite Henc, !len_app, len_heads. lia. }
  pose proof (len_nonneg ret) as Hr.
  pose proof (len_nonneg (tails its)) as Htl.
  assert (Hg : Forall good_item its).
  { apply items_good; [|exact Hpk | lia].
    rewrite Forall_forall in *. intros it Hin.
    rewrite (Ht it Hin). split; [exact IH|]. split; [exact Hwf|].
    apply Hc. rewrite <- Hv. apply in_map. exact Hin. }
  exists its. split; [exact Ht|]. split; [exact Hv|]. split; [exact Hg|].
  rewrite Henc, <- app_assoc. f_equal. f_equal.
  destruct (heads_len_good its Hg) as [H32 _].
  destruct (isDynamicType elem) eqn:Ed.
  - f_equal.
    rewrite (getTypeSize_dynamic elem Ed).
    rewrite <- Hv, len_map.
    assert (Hu : heads_len its = len its * 32).
    { apply heads_len_uniform. rewrite Forall_forall in *. intros it Hin.
      unfold head_size. rewrite (Ht it Hin), Ed. reflexivity. }
    pose proof (len_nonneg its).
    unfold int_mul. rewrite wrap_small by (unfold in_int; lia). lia.
  - apply heads_static. rewrite Forall_forall in *. intros it Hin.
    rewrite (Ht it Hin). exact Ed.
Qed.

Lemma Forall_map_eq {A B} (f : A -> B) (l : list A) (b : B) :
  Forall (fun x => f x = b) l -> map f l = repeat b (List.length l).
Proof.
  induction 1 as [|x r Hx _ IH]; simpl; [reflexivity|].
  rewrite Hx, IH. reflexivity.
Qed.

(* a slice or an array has a length and elements, and comes back as a slice
   for a slice type and as an array for an array type *)
Lemma sequence_value (v : Value) (ek : GoKind) (vs : list Value) :
  v = VSlice ek vs \/ v = VArray ek vs ->
  Len v = Ok (len vs) /\ Elements v = Ok vs /\ Elem_Kind v = Ok ek
  /\ negb (GoKind_eqb (Kind_of v) KSlice)
      && negb (GoKind_eqb (Kind_of v) KArray) = false
  /\ (forall elem k,
         normal (TySlice elem k) v
         = VSlice (GetType_Kind elem) (map (normal elem) vs))
  /\ (forall elem s k,
         normal (TyArray elem s k) v
         = VArray (GetType_Kind elem) (map (normal elem) vs)).
Proof. intros [->| ->]; repeat split; auto. Qed.

(* the type check of a sequence without elements builds the Go type of the
   element type *)
Lemma sliceTypeCheck_empty t elem v :
  (exists k, t = TySlice elem k) \/ (exists s k, t = TyArray elem s k) ->
  Len v = Ok 0 -> sliceTypeCheck t v = Ok tt ->
  GetType elem = Ok (GoType_of elem).
Proof.
  intros Ht Hl H.
  assert (Hx : (k <- Elem_Kind v ;;
                e <- GetType elem ;;
                if negb (GoKind_eqb k (Kind_ e)) then Err errTypeErr
                else Ok tt) = Ok tt ->
               GetType elem = Ok (GoType_of elem)).
  { intros Hx. destruct (Elem_Kind v); cbn [bind] in Hx; try discriminate Hx.
    destruct (GetType elem) as [e| |] eqn:E; cbn [bind] in Hx;
      try discriminate Hx.
    rewrite (GetType_Ok _ _ E). reflexivity. }
  destruct Ht as [[k ->]|[s [k ->]]]; cbn [sliceTypeCheck] in H;
    (destruct (negb _ && negb _); [destruct (GetType _); discriminate H|]);
    rewrite Hl in H; cbn [bind] in H.
  - cbn [T Kind_eqb andb] in H. change (0 >? 0) with false in H.
    rewrite andb_false_r in H. exact (Hx H).
  - destruct (Kind_eqb _ _ && negb _);
      [destruct (GetType elem); cbn [bind] in H; try discriminate H;
       destruct (Elem_Kind v); discriminate H|].
    change (0 >? 0) with false in H. rewrite andb_false_r in H. exact (Hx H).
Qed.

(* the Go type of the elements, from the first item *)
Lemma items_GetType elem its :
  its <> [] ->
  Forall (fun it => it_type it = elem) its -> Forall good_item its ->
  GetType elem = Ok (GoType_of elem).
Proof.
  intros Hne Ht Hg. destruct its as [|it r]; [congruence|].
  apply Forall_inv in Ht, Hg. destruct Hg as (_ & _ & _ & _ & HG & _).
  rewrite Ht in HG. exact HG.
Qed.

Lemma pack_good_slice elem k :
  pack_good_at elem -> pack_good_at (TySlice elem k).
Proof.
  intros IH Hwf v enc Hc Hp Hlen. simpl in Hwf.
  cbn [accepted] in Hc. destruct Hc as (ek & vs & Hv0 & Hk & Hc).
  destruct (sequence_value v ek vs Hv0) as (HL & HE & _ & _ & HN & _).
  rewrite HN. clear HN.
  rewrite pack_unfold in Hp.
  destruct (typeCheck _ _) as [[]| |] eqn:Etc; cbn [bind] in Hp;
    try discriminate Hp.
  rewrite HL, HE in Hp.
  cbn [bind requiresLengthPrefix T Kind_eqb orb] in Hp.
  apply sequence_items in Hp; try assumption.
  destruct Hp as (its & Ht & Hv & Hg & Henc).
  assert (Hdec : map (normal elem) vs = map it_dec its)
    by (rewrite <- Hv; apply map_normal_items; exact Ht).
  assert (HG : GetType (TySlice elem k) = Ok (GoType_of (TySlice elem k))).
  { rewrite GetType_slice.
    assert (He : GetType elem = Ok (GoType_of elem)).
    { destruct its as [|it r] eqn:Eits.
      - simpl in Hv. subst vs. unfold typeCheck in Etc.
        cbn [T Kind_eqb orb] in Etc.
        apply (sliceTypeCheck_empty _ elem v) in Etc;
          [exact Etc | left; eauto | exact HL].
      - apply (items_GetType elem (it :: r)); [discriminate | exact Ht | exact Hg]. }
    rewrite He. reflexivity. }
  destruct (heads_len_good its Hg) as [H32 _].
  destruct (layout_aligned (heads_len its) its Hg) as [Hah Hat].
  assert (Hn : len vs = len its) by (rewrite <- Hv, len_map; reflexivity).
  pose proof (len_nonneg its) as Hits0.
  pose proof (len_nonneg (tails its)) as Htl0.
  split; [|split; [|split; [|split; [|split]]]].
  - intros out Hout. split; [discriminate|].
    intros _ index pre post Hsl Heq.
    destruct (slice_Ok _ _ _ _ Hsl) as (Hi0 & _ & Hi1 & _).
    pose proof (len_nonneg pre) as Hpre. pose proof (len_nonneg post) as Hpost.
    assert (Hlo : len out = len pre + 32 + heads_len its + len (tails its)
                            + len post).
    { rewrite Heq, Henc, !len_app, len_packNum_int, len_heads. lia. }
    cbn [toGoType]. unfold int_add at 1.
    rewrite (wrap_small (index + 32)) by (unfold in_int; lia).
    replace (index + 32 >? len out) with false
      by (symmetry; rewrite Z.gtb_ltb; apply Z.ltb_ge; lia).
    rewrite (lengthPrefixPointsTo_spec index out pre (len vs)
               (heads (heads_len its) its ++ tails its) post);
      try assumption.
    + cbn [bind].
      assert (Hfrom : slice_from out (len pre + 32)
                      = Ok (heads (heads_len its) its ++ tails its ++ post)).
      { rewrite Heq, Henc.
        replace (pre ++ (packNum_int (len vs) ++ heads (heads_len its) its ++ tails its) ++ post)
          with ((pre ++ packNum_int (len vs))
                  ++ heads (heads_len its) its ++ tails its ++ post)
          by (rewrite <- !app_assoc; reflexivity).
        replace (len pre + 32) with (len (pre ++ packNum_int (len vs)))
          by (rewrite len_app, len_packNum_int; reflexivity).
        apply slice_from_app. }
      rewrite Hfrom. cbn [bind].
      unfold forEachUnpack_with.
      replace (len vs <? 0) with false by (symmetry; apply Z.ltb_ge; lia).
      unfold int_add, int_mul.
      rewrite (wrap_small (32 * len vs)) by (unfold in_int; lia).
      rewrite (wrap_small (0 + 32 * len vs)) by (unfold in_int; lia).
      replace (0 + 32 * len vs >? len (heads (heads_len its) its ++ tails its ++ post))
        with false
        by (symmetry; rewrite Z.gtb_ltb; apply Z.ltb_ge;
            rewrite !len_app, len_heads; lia).
      replace (Z.to_nat (len vs)) with (List.length its)
        by (rewrite Hn; unfold len; lia).
      rewrite HG. cbn [bind].
      change 0 with (heads_len []) at 1.
      rewrite (forEach_loop_layout elem _ its post eq_refl); try assumption.
      * cbn [bind]. rewrite Hdec. reflexivity.
      * rewrite !len_app, len_heads. lia.
      * reflexivity.
    + rewrite Heq, Henc, <- !app_assoc. reflexivity.
    + rewrite len_app, len_heads. lia.
  - rewrite Henc. apply aligned_app; [apply aligned_32, len_packNum_int|].
    apply aligned_app; assumption.
  - rewrite Henc, len_app, len_packNum_int.
    pose proof (len_nonneg (heads (heads_len its) its ++ tails its)). lia.
  - discriminate.
  - exact HG.
  - change (align_up (Size_ (GoType_of (TySlice elem k))) 8) with 24.
    rewrite Henc, len_app, len_packNum_int.
    pose proof (len_nonneg (heads (heads_len its) its ++ tails its)). lia.
Qed.

(* the offset word of an array of dynamic elements, as toGoType reads it *)
Lemma array_offset_word (z : Z) :
  0 <= z < 2 ^ 63 ->
  (w <- slice_from (U256Bytes z) (int_sub (len (U256Bytes z)) 8) ;;
   BigEndian_Uint64 w) = Ok z.
Proof.
  intros Hz. rewrite len_U256Bytes.
  change (int_sub 32 8) with 24.
  unfold U256Bytes. rewrite (Z.mod_small z) by lia.
  change 32%nat with (24 + 8)%nat. rewrite be_bytes_add.
  replace 24 with (len (be_bytes 24 (z / 256 ^ Z.of_nat 8)))
    by (rewrite len_be_bytes; reflexivity).
  rewrite slice_from_app. cbn [bind]. unfold BigEndian_Uint64.
  rewrite len_be_bytes. change (Z.of_nat 8 <? 8) with false. cbv iota.
  rewrite firstn_all2
    by (pose proof (len_be_bytes 8 z) as H; unfold len in H; lia).
  rewrite SetBytes_be_bytes. change (256 ^ Z.of_nat 8) with (2 ^ 64).
  rewrite Z.mod_small by lia. reflexivity.
Qed.

Lemma pack_good_array elem size k :
  pack_good_at elem -> pack_good_at (TyArray elem size k).
Proof.
  intros IH Hwf v enc Hc Hp Hlen. pose proof Hwf as Hwf0.
  simpl in Hwf. destruct Hwf as [Hsize Hwf].
  cbn [accepted] in Hc. destruct Hc as (ek & vs & Hv0 & Hk & Hvs & Hc).
  destruct (sequence_value v ek vs Hv0) as (HL & HE & _ & _ & _ & HN).
  rewrite HN. clear HN.
  rewrite pack_unfold in Hp.
  destruct (typeCheck _ _) as [u| |]; cbn [bind] in Hp; try discriminate Hp.
  rewrite HL, HE in Hp.
  cbn [bind requiresLengthPrefix T Kind_eqb orb] in Hp.
  apply sequence_items in Hp; try assumption.
  destruct Hp as (its & Ht & Hv & Hg & Henc). cbn [app] in Henc.
  destruct (heads_len_good its Hg) as [H32 _].
  destruct (layout_aligned (heads_len its) its Hg) as [Hah Hat].
  assert (Hn : len vs = len its) by (rewrite <- Hv, len_map; reflexivity).
  pose proof (len_nonneg (tails its)) as Htl0.
  assert (Hle : len enc = heads_len its + len (tails its))
    by (rewrite Henc, len_app, len_heads; reflexivity).
  assert (Hdec : map (normal elem) vs = map it_dec its)
    by (rewrite <- Hv; apply map_normal_items; exact Ht).
  (* the memory of the array *)
  destruct (GoType_takes_memory elem Hwf) as [Hmem _].
  pose proof (align_up_ge (Size_ (GoType_of elem)) 8 ltac:(lia)) as Hup.
  destruct (align_up_multiple (Size_ (GoType_of elem)) 8) as [qw Hqw].
  assert (Hwords : len its * align_up (Size_ (GoType_of elem)) 8 <= len enc).
  { rewrite <- (words_of_repeat elem its Ht).
    pose proof (words_of_items its Hg). pose proof (encs_len_layout its).
    lia. }
  assert (Hbytes : Size_ (GoType_of elem) * size <= len enc) by nia.
  assert (HG : GetType (TyArray elem size k)
               = Ok (GoType_of (TyArray elem size k))).
  { rewrite GetType_array.
    rewrite (items_GetType elem its); try assumption;
      [|intros ->; rewrite len_nil in Hn; lia].
    cbn [bind]. unfold reflect_ArrayOf.
    destruct (Z.ltb_spec size 0); [lia|].
    destruct (Z.gtb_spec size (MaxUintptr / Size_ (GoType_of elem)))
      as [Hgt|_]; [|rewrite andb_false_r; reflexivity].
    exfalso.
    assert (size <= MaxUintptr / Size_ (GoType_of elem)); [|lia].
    apply Z.div_le_lower_bound; [lia|]. unfold MaxUintptr. lia. }
  assert (Hloop : forall out post,
             out = enc ++ post -> len out < 2 ^ 63 ->
             forEachUnpack_with toGoType (TyArray elem size k) out 0 size
             = Ok (VArray (GetType_Kind elem) (map (normal elem) vs))).
  { intros out post Heq Hout. pose proof (len_nonneg post).
    assert (Heq' : out = heads (heads_len its) its ++ tails its ++ post)
      by (rewrite Heq, Henc, <- app_assoc; reflexivity).
    unfold forEachUnpack_with.
    replace (size <? 0) with false by (symmetry; apply Z.ltb_ge; lia).
    unfold int_add, int_mul.
    rewrite (wrap_small (32 * size)) by (unfold in_int; lia).
    rewrite (wrap_small (0 + 32 * size)) by (unfold in_int; lia).
    replace (0 + 32 * size >? len out) with false
      by (symmetry; rewrite Z.gtb_ltb; apply Z.ltb_ge;
          rewrite Heq, len_app; lia).
    replace (Z.to_nat size) with (List.length its)
      by (rewrite <- Hvs, Hn; unfold len; lia).
    rewrite HG. cbn [bind].
    change 0 with (heads_len []) at 1.
    rewrite (forEach_loop_layout elem out its post Heq'); try assumption.
    - cbn [bind]. rewrite Hdec. reflexivity.
    - reflexivity. }
  split; [|split; [|split; [|split; [|split]]]].
  - intros out Hout. split.
    + (* in place *)
      intros Hd pre post Heq. simpl in Hd.
      pose proof (len_nonneg pre) as Hpre. pose proof (len_nonneg post) as Hpost.
      assert (Hlo : len out = len pre + len enc + len post)
        by (rewrite Heq, !len_app; lia).
      cbn [toGoType]. unfold int_add.
      rewrite (wrap_small (len pre + 32)) by (unfold in_int; lia).
      replace (len pre + 32 >? len out) with false
        by (symmetry; rewrite Z.gtb_ltb; apply Z.ltb_ge; lia).
      destruct (slice_in_bounds out (len pre) (len pre + 32)) as [w Hw];
        try lia.
      rewrite Hw. cbn [bind]. rewrite Hd.
      rewrite Heq, slice_from_app. cbn [bind].
      apply (Hloop _ post eq_refl). rewrite len_app. lia.
    + (* behind an offset word *)
      intros Hd index pre post Hsl Heq. simpl in Hd.
      destruct (slice_Ok _ _ _ _ Hsl) as (Hi0 & _ & Hi1 & _).
      pose proof (len_nonneg pre) as Hpre. pose proof (len_nonneg post) as Hpost.
      assert (Hlo : len out = len pre + len enc + len post)
        by (rewrite Heq, !len_app; lia).
      cbn [toGoType]. unfold int_add.
      rewrite (wrap_small (index + 32)) by (unfold in_int; lia).
      replace (index + 32 >? len out) with false
        by (symmetry; rewrite Z.gtb_ltb; apply Z.ltb_ge; lia).
      rewrite Hsl. cbn [bind]. rewrite Hd.
      pose proof (array_offset_word (len pre) ltac:(lia)) as Hw.
      destruct (slice_from (U256Bytes (len pre)) _) as [w| |];
        cbn [bind] in Hw |- *; try discriminate Hw.
      rewrite Hw. cbn [bind].
      replace (len pre >? len out) with false
        by (symmetry; rewrite Z.gtb_ltb; apply Z.ltb_ge; lia).
      rewrite Heq, slice_from_app. cbn [bind].
      apply (Hloop _ post eq_refl). rewrite len_app. lia.
  - rewrite Henc. apply aligned_app; assumption.
  - pose proof (len_nonneg its). lia.
  - (* the static size *)
    intros Hd. simpl in Hd.
    assert (Hst : Forall (fun it => isDynamicType (it_type it) = false) its).
    { rewrite Forall_forall in *. intros it Hin. rewrite (Ht it Hin).
      exact Hd. }
    destruct (heads_static 0 0 its Hst) as [_ Htl].
    rewrite Htl in Hle. change (len (@nil byte)) with 0 in Hle.
    assert (Hu : heads_len its = len its * getTypeSize elem).
    { apply heads_len_uniform. rewrite Forall_forall in *. intros it Hin.
      destruct (good_head_size it (Hg it Hin)) as (Hhs & _).
      rewrite Hhs, (Ht it Hin). reflexivity. }
    rewrite (getTypeSize_array elem size k Hd).
    assert (Hsame : (if Kind_eqb (T elem) ArrayTy || Kind_eqb (T elem) TupleTy
                     then int_mul size (getTypeSize elem)
                     else int_mul size 32)
                    = int_mul size (getTypeSize elem)).
    { destruct (Kind_eqb (T elem) ArrayTy) eqn:Ea; [reflexivity|].
      destruct (Kind_eqb (T elem) TupleTy) eqn:Et; [reflexivity|].
      simpl. f_equal. symmetry.
      apply getTypeSize_elementary;
        intros E; apply Kind_eqb_eq in E; congruence. }
    rewrite Hsame. unfold int_mul.
    rewrite wrap_small by (unfold in_int; lia). lia.
  - exact HG.
  - cbn [GoType_of array_Type Size_].
    apply Z.le_trans with (len its * align_up (Size_ (GoType_of elem)) 8);
      [|exact Hwords].
    apply (align_up_le _ 8 _ (len its * qw)); nia.
Qed.

Lemma Forall2_items {R : Type_ -> Value -> Prop} its :
  forall elems vs,
    map it_type its = elems -> map it_value its = vs ->
    Forall2 R elems vs ->
    Forall (fun it => R (it_type it) (it_value it)) its.
Proof.
  induction its as [|it r IH]; intros elems vs He Hv H; [constructor|].
  simpl in He, Hv. subst elems vs. inversion H; subst.
  constructor; [assumption | eapply IH; eauto].
Qed.

Lemma Forall_items {P : Type_ -> Prop} its elems :
  map it_type its = elems -> Forall P elems ->
  Forall (fun it => P (it_type it)) its.
Proof.
  intros <- H. rewrite Forall_map in H. exact H.
Qed.

Lemma pack_good_tuple rn elems names fields k :
  Forall pack_good_at elems ->
  pack_good_at (TyTuple rn elems names fields k).
Proof.
  intros IH Hwf v enc Hc Hp Hlen.
  apply wfType_tuple in Hwf. destruct Hwf as [Hne Hwf].
  apply accepted_tuple in Hc.
  destruct Hc as (vs & Hv & Hfl & (fm & Hm & Hfound) & Hc).
  rewrite pack_unfold in Hp.
  destruct (typeCheck _ _) as [u| |]; cbn [bind] in Hp; try discriminate Hp.
  rewrite Hm in Hp.
  apply (pack_fields_layout m names fm v vs elems Hfound) in Hp;
    [|apply Forall2_length in Hc; lia].
  destruct Hp as (its & Ht & Hvs & Hpk & Henc). cbn [app skipn] in Henc, Hvs.
  assert (Hle : len enc = heads_len its + len (tails its))
    by (rewrite Henc, len_app, len_heads; reflexivity).
  pose proof (len_nonneg (tails its)) as Htl0.
  assert (Hg : Forall good_item its).
  { apply items_good; [|exact Hpk | lia].
    pose proof (Forall_items its elems Ht IH) as H1.
    pose proof (Forall_items its elems Ht Hwf) as H2.
    pose proof (Forall2_items its elems vs Ht Hvs Hc) as H3.
    rewrite Forall_forall in *. intros it Hin. auto. }
  destruct (heads_len_good its Hg) as [H32 _].
  destruct (layout_aligned (sum_TypeSize elems 0) its Hg) as [Hah Hat].
  assert (Hoff : sum_TypeSize elems 0 = heads_len its).
  { rewrite <- Ht, sum_TypeSize_layout by (try assumption; lia). lia. }
  assert (Hnl : List.length its = List.length vs)
    by (rewrite <- Hvs, length_map; reflexivity).
  assert (Hits : 1 <= len its).
  { destruct its as [|it r]; [simpl in Ht; congruence|].
    rewrite len_cons. pose proof (len_nonneg r). lia. }
  assert (Hloop : forall out post,
             out = enc ++ post -> len out < 2 ^ 63 ->
             forTupleUnpack_with toGoType (TyTuple rn elems names fields k) out
             = Ok (normal (TyTuple rn elems names fields k) v)).
  { intros out post Heq Hout.
    assert (Heq' : out = heads (heads_len its) its ++ tails its ++ post)
      by (rewrite Heq, Henc, Hoff, <- app_assoc; reflexivity).
    unfold forTupleUnpack_with. rewrite <- Ht at 1.
    rewrite (forTuple_loop_layout fields out its post Heq' Hout Hg
               its [] [] fields 0%nat 0); try reflexivity; try lia.
    cbn [bind]. rewrite Hv, normal_tuple by exact Hfl.
    rewrite <- Ht, <- Hvs, normal_each_items. reflexivity. }
  split; [|split; [|split; [|split; [|split]]]].
  - intros out Hout. split.
    + (* in place *)
      intros Hd pre post Heq.
      pose proof (len_nonneg pre) as Hpre. pose proof (len_nonneg post) as Hpost.
      assert (Hlo : len out = len pre + len enc + len post)
        by (rewrite Heq, !len_app; lia).
      cbn [toGoType]. unfold int_add.
      rewrite (wrap_small (len pre + 32)) by (unfold in_int; lia).
      replace (len pre + 32 >? len out) with false
        by (symmetry; rewrite Z.gtb_ltb; apply Z.ltb_ge; lia).
      destruct (slice_in_bounds out (len pre) (len pre + 32)) as [w Hw];
        try lia.
      rewrite Hw. cbn [bind]. rewrite Hd.
      rewrite Heq, slice_from_app. cbn [bind].
      apply (Hloop _ post eq_refl). rewrite len_app. lia.
    + (* behind an offset word *)
      intros Hd index pre post Hsl Heq.
      destruct (slice_Ok _ _ _ _ Hsl) as (Hi0 & _ & Hi1 & _).
      pose proof (len_nonneg pre) as Hpre. pose proof (len_nonneg post) as Hpost.
      assert (Hlo : len out = len pre + len enc + len post)
        by (rewrite Heq, !len_app; lia).
      cbn [toGoType]. unfold int_add.
      rewrite (wrap_small (index + 32)) by (unfold in_int; lia).
      replace (index + 32 >? len out) with false
        by (symmetry; rewrite Z.gtb_ltb; apply Z.ltb_ge; lia).
      rewrite Hsl. cbn [bind]. rewrite Hd.
      unfold tuplePointsTo, int_add.
      rewrite (wrap_small (index + 32)) by (unfold in_int; lia).
      rewrite Hsl. cbn [bind].
      rewrite SetBytes_U256Bytes, Z.mod_small by lia.
      replace (len pre >? len out) with false
        by (symmetry; rewrite Z.gtb_ltb; apply Z.ltb_ge; lia).
      unfold BitLen_gt_63, big_Uint64.
      replace (2 ^ 63 <=? len pre) with false
        by (symmetry; apply Z.leb_gt; lia).
      rewrite (Z.mod_small (len pre)) by lia.
      rewrite (wrap_small (len pre)) by (unfold in_int; lia).
      cbn [bind].
      rewrite Heq, slice_from_app. cbn [bind].
      apply (Hloop _ post eq_refl). rewrite len_app. lia.
  - rewrite Henc. apply aligned_app; assumption.
  - lia.
  - (* the static size *)
    intros Hd. rewrite getTypeSize_tuple, Hd, Hoff.
    rewrite isDynamicType_tuple in Hd.
    assert (Hst : Forall (fun it => isDynamicType (it_type it) = false) its).
    { rewrite Forall_forall. intros it Hin.
      destruct (isDynamicType (it_type it)) eqn:E; [|reflexivity].
      assert (existsb isDynamicType elems = true); [|congruence].
      apply existsb_exists. exists (it_type it). split; [|exact E].
      rewrite <- Ht. apply in_map. exact Hin. }
    destruct (heads_static 0 0 its Hst) as [_ Htl].
    rewrite Htl in Hle. change (len (@nil byte)) with 0 in Hle. lia.
  - reflexivity.
  - rewrite GoType_of_tuple.
    assert (Hmem : Forall takes_memory (map GoType_of elems)).
    { rewrite Forall_map. rewrite Forall_forall in *. intros e He.
      apply GoType_takes_memory. auto. }
    destruct (struct_Type_bound (map GoType_of elems) Hmem) as [_ Hb];
      [destruct elems; [congruence | discriminate]|].
    pose proof (words_of_items its Hg) as Hw.
    rewrite <- Ht, map_map in Hb |- *.
    pose proof (encs_len_layout its). lia.
Qed.

Lemma pack_good_string k : pack_good_at (TyString k).
Proof.
  intros Hwf v enc Hc Hp Hlen. cbn [accepted conforms] in Hc.
  destruct Hc as [s ->]. cbn [normal].
  rewrite pack_unfold in Hp.
  destruct (typeCheck _ _) as [u| |]; cbn [bind] in Hp; try discriminate Hp.
  apply Ok_inj in Hp. subst enc.
  apply (decodes_bytes s VString (TyString k));
    [reflexivity| |exact Hlen | split; [reflexivity | vm_compute; discriminate]].
  intros index out. reflexivity.
Qed.

Lemma pack_good_bytes k : pack_good_at (TyBytes k).
Proof.
  intros Hwf v enc Hc Hp Hlen. cbn [accepted conforms] in Hc.
  destruct Hc as [s ->]. cbn [normal].
  rewrite pack_unfold in Hp.
  destruct (typeCheck _ _) as [u| |]; cbn [bind] in Hp; try discriminate Hp.
  unfold packElement in Hp.
  cbn [T Kind_of GoKind_eqb bind Bytes Len] in Hp.
  rewrite bytes_of_Values_of_bytes, len_Values_of_bytes in Hp.
  cbn [bind] in Hp. apply Ok_inj in Hp. subst enc.
  apply (decodes_bytes s (fun x => VSlice (KUint W8) (Values_of_bytes x))
                       (TyBytes k));
    [reflexivity| |exact Hlen | split; [reflexivity | vm_compute; discriminate]].
  intros index out. reflexivity.
Qed.

Lemma pack_good t : pack_good_at t.
Proof.
  induction t using Type_tree_ind;
    try (intros Hwf v enc Hc Hp Hlen;
         apply (pack_good_elementary m) in Hp;
         [exact (proj1 Hp) | discriminate ..| assumption | assumption]; fail).
  - apply pack_good_string.
  - apply pack_good_slice. exact IHt.
  - apply pack_good_array. exact IHt.
  - apply pack_good_tuple. exact H.
  - apply pack_good_bytes.
Qed.

End Roundtrip_main.

Section Roundtrip_arguments.
Variable m : list string -> Value -> option (string -> string).

(** *** The encoder accepts conforming values *)





(** *** Argument lists *)




Lemma NonIndexed_all arguments :
  Forall (fun a => Indexed a = false) arguments ->
  NonIndexed arguments = arguments.
Proof.
  induction 1 as [|a r Ha _ IH]; simpl; [reflexivity|].
  rewrite Ha, IH. reflexivity.
Qed.



End Roundtrip_arguments.


(** A field map for the example below: the ABI names ok and data are those
    of the struct fields Ok and Data. *)
Definition capitalised_fields (names : list string) (v : Value)
  : option (string -> string) :=
  Some (fun name => if String.eqb name "ok" then "Ok"
                    else if String.eqb name "data" then "Data"
                    else name)%string.






(** * Further properties of the decoder *)

(** ** Offsets and lengths *)

Lemma slice_len {A} (s : list A) (a b : Z) (r : list A) :
  slice s a b = Ok r -> len r = b - a.
Proof.
  intros H.
  destruct (slice_Ok _ _ _ _ H) as (_ & _ & _ & pre & post & _ & _ & Hl).
  exact Hl.
Qed.

Lemma slice_total {A} (s : list A) (a b : Z) :
  0 <= a -> a <= b -> b <= len s -> exists r, slice s a b = Ok r.
Proof.
  intros H0 H1 H2. unfold slice.
  replace ((0 <=? a) && (a <=? b) && (b <=? len s)) with true.
  - eexists. reflexivity.
  - symmetry. rewrite !andb_true_iff, !Z.leb_le. auto.
Qed.

Lemma word_value (w : list byte) : len w = 32 -> 0 <= SetBytes w < 2 ^ 256.
Proof.
  intros H. pose proof (SetBytes_range w) as R. rewrite H in R.
  change (256 ^ 32) with (2 ^ 256) in R. exact R.
Qed.

(** X1.  When [lengthPrefixPointsTo] succeeds, the range it returns lies
    inside the output: the start is 32 past the offset read at the index,
    the length is the number stored in the word before the start, and
    start + length is at most the length of the output, so that the slice
    output[start : start+length] taken by the callers exists. *)
Theorem lengthPrefixPointsTo_in_bounds
        (index : Z) (output : list byte) (start length : Z) :
  lengthPrefixPointsTo index output = Ok (start, length) ->
  32 <= start /\ 0 <= length /\ start + length <= len output
  /\ (exists w, slice output index (int_add index 32) = Ok w
                /\ start = SetBytes w + 32)
  /\ (exists lw, slice output (start - 32) start = Ok lw
                 /\ length = SetBytes lw)
  /\ (exists data, slice output start (int_add start length) = Ok data
                   /\ len data = length).
Proof.
  unfold lengthPrefixPointsTo. intros H.
  destruct (slice output index (int_add index 32)) as [w| |] eqn:Ew;
    cbn [bind] in H; try discriminate H.
  pose proof (SetBytes_range w) as Rw.
  assert (0 <= SetBytes w) as Hw0 by lia.
  destruct (SetBytes w + 32 >? len output) eqn:E1; [discriminate H|].
  unfold BitLen_gt_63, big_Uint64 in H.
  destruct (2 ^ 63 <=? SetBytes w + 32) eqn:E2; [discriminate H|].
  rewrite Z.gtb_ltb in E1. apply Z.ltb_ge in E1. apply Z.leb_gt in E2.
  rewrite (Z.mod_small (SetBytes w + 32)) in H by lia.
  rewrite (wrap_small (SetBytes w + 32)) in H by (unfold in_int; lia).
  unfold int_sub in H.
  destruct (slice output (wrap (SetBytes w + 32 - 32)) (SetBytes w + 32))
    as [lw| |] eqn:El; cbn [bind] in H; try discriminate H.
  rewrite wrap_small in El by (unfold in_int; lia).
  pose proof (SetBytes_range lw) as Rl.
  destruct (2 ^ 63 <=? SetBytes w + 32 + SetBytes lw) eqn:E3;
    [discriminate H|].
  destruct (SetBytes w + 32 + SetBytes lw >? len output) eqn:E4;
    [discriminate H|].
  apply Z.leb_gt in E3. rewrite Z.gtb_ltb in E4. apply Z.ltb_ge in E4.
  rewrite (Z.mod_small (SetBytes lw)) in H by lia.
  rewrite (wrap_small (SetBytes lw)) in H by (unfold in_int; lia).
  apply Ok_inj in H. injection H as <- <-.
  repeat split; try lia.
  - exists w. split; reflexivity.
  - exists lw. split; [exact El | reflexivity].
  - unfold int_add. rewrite wrap_small by (unfold in_int; lia).
    destruct (slice_total output (SetBytes w + 32)
                (SetBytes w + 32 + SetBytes lw)) as [data Hd]; try lia.
    exists data. split; [exact Hd|].
    apply slice_len in Hd. lia.
Qed.

Lemma lengthPrefixPointsTo_in_bounds_witness :
  let output := U256Bytes 32 ++ U256Bytes 3 ++ repeat x01 32 in
  32 <= 64 /\ 0 <= 3 /\ 64 + 3 <= len output.
Proof.
  intros output.
  destruct (lengthPrefixPointsTo_in_bounds 0 output 64 3 eq_refl)
    as (H1 & H2 & H3 & _).
  auto.
Defined.

(** X2.  When [tuplePointsTo] succeeds, the start it returns is the number
    stored in the word at the index, read as a whole 256-bit number, and it
    lies inside the output, so that output[start:] exists; it fails if and
    only if that number is larger than the length of the output or does not
    fit 63 bits. *)
Theorem tuplePointsTo_in_bounds (index : Z) (output w : list byte) :
  slice output index (int_add index 32) = Ok w ->
  (SetBytes w <= len output -> SetBytes w < 2 ^ 63 ->
   tuplePointsTo index output = Ok (SetBytes w)
   /\ exists rest, slice_from output (SetBytes w) = Ok rest)
  /\ (len output < SetBytes w ->
      tuplePointsTo index output = Err errOffsetBoundary)
  /\ (SetBytes w <= len output -> 2 ^ 63 <= SetBytes w ->
      tuplePointsTo index output = Err errOffsetInt64).
Proof.
  intros Hs. unfold tuplePointsTo. rewrite Hs. cbn [bind].
  pose proof (SetBytes_range w) as Rw. unfold BitLen_gt_63, big_Uint64.
  repeat split.
  - replace (SetBytes w >? len output) with false
      by (symmetry; rewrite Z.gtb_ltb; apply Z.ltb_ge; lia).
    replace (2 ^ 63 <=? SetBytes w) with false
      by (symmetry; apply Z.leb_gt; lia).
    rewrite Z.mod_small by lia.
    rewrite wrap_small by (unfold in_int; lia). reflexivity.
  - unfold slice_from. apply slice_total; lia.
  - intros H. replace (SetBytes w >? len output) with true
      by (symmetry; rewrite Z.gtb_ltb; apply Z.ltb_lt; lia).
    reflexivity.
  - intros H1 H2. replace (SetBytes w >? len output) with false
      by (symmetry; rewrite Z.gtb_ltb; apply Z.ltb_ge; lia).
    replace (2 ^ 63 <=? SetBytes w) with true
      by (symmetry; apply Z.leb_le; lia).
    reflexivity.
Qed.

Lemma tuplePointsTo_in_bounds_witness :
  tuplePointsTo 0 (U256Bytes 32 ++ U256Bytes 7) = Ok 32.
Proof.
  destruct (tuplePointsTo_in_bounds 0 (U256Bytes 32 ++ U256Bytes 7)
              (U256Bytes 32) eq_refl) as (H & _).
  destruct H as [H _]; [vm_compute; discriminate | reflexivity |].
  exact H.
Defined.

(** ** Reading integers *)

(* decides a goal made of comparisons of integers by cases on each one *)
Ltac compare_cases :=
  repeat match goal with
         | |- context [?a >? ?b] => rewrite (Z.gtb_ltb a b)
         | |- context [?a <? ?b] => destruct (Z.ltb_spec a b)
         | |- context [?a <=? ?b] => destruct (Z.leb_spec a b)
         end;
  cbn [negb orb andb]; try reflexivity; lia.

(** X3.  On an unsigned type [ReadInteger] returns the big-endian value of
    the bytes: as a machine integer when the type has 8, 16, 32 or 64 bits
    and the value fits that width, with the error of the width when it does
    not; and as a big integer for every other size, where no range is
    checked, so that a uint24, a uint128 and a uint256 accept every word. *)
Theorem ReadInteger_unsigned (s : Z) (k : string) (b : list byte) :
  ReadInteger (TyUint s k) b
  = let n := SetBytes b in
    if s =? 8 then if n <? 2 ^ 8 then Ok (VUint W8 n) else Err errBadUint8
    else if s =? 16
         then if n <? 2 ^ 16 then Ok (VUint W16 n) else Err errBadUint16
    else if s =? 32
         then if n <? 2 ^ 32 then Ok (VUint W32 n) else Err errBadUint32
    else if s =? 64
         then if n <? 2 ^ 64 then Ok (VUint W64 n) else Err errBadUint64
    else Ok (VBig n).
Proof.
  unfold ReadInteger. cbn [T Kind_eqb Size]. cbv zeta.
  pose proof (SetBytes_range b) as R. assert (H0 : 0 <= SetBytes b) by lia.
  clear R. generalize dependent (SetBytes b). intros n H0.
  unfold big_Uint64.
  destruct (n <? 2 ^ 64) eqn:E64.
  - apply Z.ltb_lt in E64. rewrite (Z.mod_small n) by lia. cbn [negb orb].
    repeat match goal with
           | |- context [if ?c =? ?d then _ else _] => destruct (c =? d)
           end;
      try reflexivity; compare_cases.
  - apply Z.ltb_ge in E64. cbn [negb orb].
    assert ((n <? 2 ^ 8) = false) as -> by (apply Z.ltb_ge; lia).
    assert ((n <? 2 ^ 16) = false) as -> by (apply Z.ltb_ge; lia).
    assert ((n <? 2 ^ 32) = false) as -> by (apply Z.ltb_ge; lia).
    reflexivity.
Qed.

(* the number a 256-bit word stands for in two's complement *)
Definition signed256 (n : Z) : Z := if n <? 2 ^ 255 then n else n - 2 ^ 256.

(** X4.  On a signed type and a 32-byte word [ReadInteger] returns the value
    of the word in two's complement: as a machine integer when the type has
    8, 16, 32 or 64 bits and the value fits that width, with the error of
    the width when it does not; and as a big integer for every other size,
    where no range is checked. *)
Theorem ReadInteger_signed (s : Z) (k : string) (b : list byte) :
  len b = 32 ->
  ReadInteger (TyInt s k) b
  = let n := signed256 (SetBytes b) in
    if s =? 8
    then if (- 2 ^ 7 <=? n) && (n <? 2 ^ 7)
         then Ok (VInt W8 n) else Err errBadInt8
    else if s =? 16
         then if (- 2 ^ 15 <=? n) && (n <? 2 ^ 15)
              then Ok (VInt W16 n) else Err errBadInt16
    else if s =? 32
         then if (- 2 ^ 31 <=? n) && (n <? 2 ^ 31)
              then Ok (VInt W32 n) else Err errBadInt32
    else if s =? 64
         then if (- 2 ^ 63 <=? n) && (n <? 2 ^ 63)
              then Ok (VInt W64 n) else Err errBadInt64
    else Ok (VBig n).
Proof.
  intros Hl. pose proof (word_value b Hl) as R.
  unfold ReadInteger. cbn [T Kind_eqb Size]. cbv zeta.
  rewrite testbit_255 by exact R.
  assert (Hret : (if 2 ^ 255 <=? SetBytes b
                  then - (MaxUint256 + - SetBytes b + 1)
                  else SetBytes b) = signed256 (SetBytes b)).
  { unfold signed256, MaxUint256.
    destruct (2 ^ 255 <=? SetBytes b) eqn:E.
    - apply Z.leb_le in E.
      replace (SetBytes b <? 2 ^ 255) with false
        by (symmetry; apply Z.ltb_ge; lia).
      lia.
    - apply Z.leb_gt in E.
      replace (SetBytes b <? 2 ^ 255) with true
        by (symmetry; apply Z.ltb_lt; lia).
      reflexivity. }
  rewrite Hret. generalize (signed256 (SetBytes b)). intros n.
  unfold big_Int64.
  destruct ((- 2 ^ 63 <=? n) && (n <? 2 ^ 63)) eqn:E64.
  - apply andb_true_iff in E64. destruct E64 as [Ea Eb].
    apply Z.leb_le in Ea. apply Z.ltb_lt in Eb.
    rewrite (wrap_small n) by (unfold in_int; lia). cbn [negb orb].
    repeat match goal with
           | |- context [if ?c =? ?d then _ else _] => destruct (c =? d)
           end;
      try reflexivity; compare_cases.
  - cbn [negb orb].
    assert (Hout : n < - 2 ^ 63 \/ 2 ^ 63 <= n).
    { apply andb_false_iff in E64. destruct E64 as [E|E];
        [apply Z.leb_gt in E | apply Z.ltb_ge in E]; lia. }
    assert ((- 2 ^ 7 <=? n) && (n <? 2 ^ 7) = false) as ->
        by (apply andb_false_iff; rewrite Z.leb_gt, Z.ltb_ge; lia).
    assert ((- 2 ^ 15 <=? n) && (n <? 2 ^ 15) = false) as ->
        by (apply andb_false_iff; rewrite Z.leb_gt, Z.ltb_ge; lia).
    assert ((- 2 ^ 31 <=? n) && (n <? 2 ^ 31) = false) as ->
        by (apply andb_false_iff; rewrite Z.leb_gt, Z.ltb_ge; lia).
    reflexivity.
Qed.

Lemma ReadInteger_signed_witness :
  ReadInteger (TyInt 8 "int8") (U256Bytes (-1)) = Ok (VInt W8 (-1))
  /\ ReadInteger (TyInt 8 "int8") (U256Bytes 128) = Err errBadInt8.
Proof.
  split.
  - rewrite (ReadInteger_signed 8 "int8" (U256Bytes (-1)) eq_refl).
    reflexivity.
  - rewrite (ReadInteger_signed 8 "int8" (U256Bytes 128) eq_refl).
    reflexivity.
Defined.

(** ** Fixed bytes and function words *)

Lemma SetBytes_zero_iff (l : list byte) :
  SetBytes l = 0 <-> l = repeat x00 (List.length l).
Proof.
  induction l as [|b l IH] using rev_ind; [split; reflexivity|].
  rewrite SetBytes_app, length_app, repeat_app, len_cons.
  change (len (@nil byte)) with 0. change (1 + 0) with 1.
  change (256 ^ 1) with 256. change (SetBytes [b]) with (0 * 256 + b2z b).
  pose proof (SetBytes_range l) as Rl. pose proof (b2z_range b) as Rb.
  split.
  - intros H. assert (Hl : SetBytes l = 0) by lia.
    assert (Hb : b2z b = 0) by lia.
    apply IH in Hl. apply b2z_zero_iff in Hb. subst b.
    rewrite <- Hl. reflexivity.
  - intros H. apply app_inj_tail in H. destruct H as [Hl Hb].
    apply IH in Hl. subst b. rewrite Hl. reflexivity.
Qed.

(** X5.  [ReadFixedBytes] on a fixed-bytes type of N bytes returns the first
    N bytes of the word and does not look at the bytes that follow them: a
    word whose padding is not zero is accepted like the one with a zero
    padding.  On a type that is not fixed bytes it fails. *)
Theorem ReadFixedBytes_ignores_padding
        (t : Type_) (bs pad : list byte) :
  (T t = FixedBytesTy -> len bs = Size t ->
   ReadFixedBytes t (bs ++ pad) = Ok (VArray (KUint W8) (Values_of_bytes bs)))
  /\ (T t <> FixedBytesTy -> ReadFixedBytes t (bs ++ pad) = Err errInvalidCall).
Proof.
  unfold ReadFixedBytes. split.
  - intros Ht Hl. rewrite Ht. cbn [Kind_eqb negb]. rewrite <- Hl.
    rewrite slice_prefix_app. reflexivity.
  - intros Ht. destruct (Kind_eqb (T t) FixedBytesTy) eqn:E; [|reflexivity].
    apply Kind_eqb_eq in E. contradiction.
Qed.

Lemma ReadFixedBytes_ignores_padding_witness :
  ReadFixedBytes (TyFixedBytes 2 "bytes2") ([x01; x02] ++ repeat xff 30)
  = Ok (VArray (KUint W8) (Values_of_bytes [x01; x02]))
  /\ ReadFixedBytes (TyBool "bool") ([x01; x02] ++ repeat xff 30)
     = Err errInvalidCall.
Proof.
  split.
  - apply (proj1 (ReadFixedBytes_ignores_padding
                    (TyFixedBytes 2 "bytes2") [x01; x02] (repeat xff 30)));
      reflexivity.
  - apply (proj2 (ReadFixedBytes_ignores_padding
                    (TyBool "bool") [x01; x02] (repeat xff 30))).
    discriminate.
Defined.

(** X6.  [readFunctionType] on a function type and a 32-byte word made of 24
    bytes and 8 more returns the 24 bytes when the 8 others are all zero,
    and fails with the improperly-encoded-function error when one of them is
    not; on a type that is not a function it fails whatever the word. *)
Theorem readFunctionType_characterisation
        (t : Type_) (bs tail : list byte) :
  len bs = 24 -> len tail = 8 ->
  (T t = FunctionTy -> tail = repeat x00 8 ->
   readFunctionType t (bs ++ tail)
   = Ok (VArray (KUint W8) (Values_of_bytes bs)))
  /\ (T t = FunctionTy -> tail <> repeat x00 8 ->
      readFunctionType t (bs ++ tail) = Err errBadFunction)
  /\ (T t <> FunctionTy ->
      readFunctionType t (bs ++ tail) = Err errInvalidCall).
Proof.
  intros Hb Ht8.
  assert (Hs : slice (bs ++ tail) 24 32 = Ok tail).
  { pose proof (slice_app_mid bs tail []) as H.
    rewrite app_nil_r, Hb, Ht8 in H. exact H. }
  assert (Hp : slice (bs ++ tail) 0 24 = Ok bs).
  { rewrite <- Hb. apply slice_prefix_app. }
  assert (Hn : List.length tail = 8%nat) by (unfold len in Ht8; lia).
  assert (Hg : BigEndian_Uint64 tail = Ok (SetBytes tail)).
  { unfold BigEndian_Uint64. rewrite Ht8. cbn [Z.ltb Z.compare Pos.compare
                                                Pos.compare_cont].
    rewrite <- Hn, firstn_all. reflexivity. }
  unfold readFunctionType. repeat split.
  - intros HT Hz. rewrite HT. cbn [Kind_eqb negb]. rewrite Hs. cbn [bind].
    rewrite Hg. cbn [bind].
    replace (SetBytes tail =? 0) with true
      by (symmetry; apply Z.eqb_eq; rewrite Hz; reflexivity).
    cbn [negb]. rewrite Hp. reflexivity.
  - intros HT Hz. rewrite HT. cbn [Kind_eqb negb]. rewrite Hs. cbn [bind].
    rewrite Hg. cbn [bind].
    destruct (SetBytes tail =? 0) eqn:E; [|reflexivity].
    apply Z.eqb_eq in E. apply SetBytes_zero_iff in E. rewrite Hn in E.
    contradiction.
  - intros HT. destruct (Kind_eqb (T t) FunctionTy) eqn:E; [|reflexivity].
    apply Kind_eqb_eq in E. contradiction.
Qed.

Lemma readFunctionType_characterisation_witness :
  readFunctionType (TyFunction "function")
                   (repeat x01 24 ++ repeat x00 7 ++ [x01])
  = Err errBadFunction.
Proof.
  apply (proj1 (proj2 (readFunctionType_characterisation
                         (TyFunction "function") (repeat x01 24)
                         (repeat x00 7 ++ [x01]) eq_refl eq_refl)));
    [reflexivity | discriminate].
Defined.

(** ** What the decoder returns *)

Lemma UnpackValues_loop_length data arguments :
  forall index virtualArgs vs,
    UnpackValues_loop data arguments index virtualArgs = Ok vs ->
    List.length vs = List.length (NonIndexed arguments).
Proof.
  induction arguments as [|a r IH]; intros index va vs H; simpl in H.
  - apply Ok_inj in H. subst vs. reflexivity.
  - simpl. destruct (Indexed a); cbn [negb].
    + exact (IH _ _ _ H).
    + destruct (toGoType _ _ _) as [x| |]; cbn [bind] in H;
        try discriminate H.
      destruct (UnpackValues_loop _ _ _ _) as [rest| |] eqn:E;
        cbn [bind] in H; try discriminate H.
      apply Ok_inj in H. subst vs. simpl. f_equal. exact (IH _ _ _ E).
Qed.

(** X7.  A successful [UnpackValues] or [Unpack] returns exactly one value
    for each argument that is not indexed, in the order of the list. *)
Theorem Unpack_length (arguments : Arguments) (data : list byte)
        (vs : list Value) :
  (UnpackValues arguments data = Ok vs ->
   List.length vs = List.length (NonIndexed arguments))
  /\ (Unpack arguments data = Ok vs ->
      List.length vs = List.length (NonIndexed arguments)).
Proof.
  split.
  - apply UnpackValues_loop_length.
  - unfold Unpack. destruct (len data =? 0).
    + destruct (negb (len (NonIndexed arguments) =? 0)) eqn:E;
        [discriminate|].
      intros H. apply Ok_inj in H. subst vs.
      apply negb_false_iff, Z.eqb_eq in E. unfold len in E. simpl. lia.
    + apply UnpackValues_loop_length.
Qed.

Lemma Unpack_length_witness :
  let arguments := [mkArgument "a" (TyBool "bool") true;
                    mkArgument "b" (TyUint 8 "uint8") false] in
  List.length [VUint W8 7] = List.length (NonIndexed arguments).
Proof.
  intros arguments.
  apply (proj2 (Unpack_length arguments (U256Bytes 7) [VUint W8 7])).
  reflexivity.
Defined.

Lemma forEach_loop_elements (dec_elem : Z -> Result Value) (elemSize : Z)
      (P : Value -> Prop) :
  (forall i v, dec_elem i = Ok v -> P v) ->
  forall n i vs,
    forEach_loop dec_elem elemSize i n = Ok vs ->
    List.length vs = n /\ Forall P vs.
Proof.
  intros HP. induction n as [|n IH]; intros i vs H; simpl in H.
  - apply Ok_inj in H. subst vs. split; [reflexivity | constructor].
  - destruct (dec_elem i) as [x| |] eqn:Ex; cbn [bind] in H;
      try discriminate H.
    destruct (forEach_loop _ _ _ _) as [rest| |] eqn:Er; cbn [bind] in H;
      try discriminate H.
    apply Ok_inj in H. subst vs. destruct (IH _ _ Er) as [Hl Hf].
    split; [simpl; congruence | constructor; eauto].
Qed.

Lemma ReadInteger_kind (unsigned : bool) (s : Z) (k : string)
      (b : list byte) (v : Value) :
  ReadInteger (if unsigned then TyUint s k else TyInt s k) b = Ok v ->
  Kind_of v = reflectIntType unsigned s.
Proof.
  intros H. unfold ReadInteger in H. unfold reflectIntType.
  destruct unsigned; cbn [T Kind_eqb Size] in H;
    (destruct (s =? 8); [|destruct (s =? 16); [|destruct (s =? 32);
                                               [|destruct (s =? 64)]]]);
    repeat match type of H with
           | (if ?c then _ else _) = _ => destruct c; try discriminate H
           end;
    apply Ok_inj in H; subst v; reflexivity.
Qed.

Lemma typeCheck_sequence (t elem : Type_) (ek : GoKind) (vs : list Value)
      (v : Value) :
  (t = TySlice elem (String_ t) /\ v = VSlice ek vs
   \/ t = TyArray elem (len vs) (String_ t) /\ v = VArray ek vs) ->
  ek = GetType_Kind elem ->
  GetType elem = Ok (GoType_of elem) ->
  Forall (fun x => typeCheck elem x = Ok tt) vs ->
  typeCheck t v = Ok tt.
Proof.
  intros Ht Hk Hg Hf.
  assert (Hn : (Kind_eqb (T elem) SliceTy || Kind_eqb (T elem) ArrayTy)
               && (len vs >? 0) = true ->
               match vs with
               | v0 :: _ => sliceTypeCheck elem v0
               | [] => Panic
               end = Ok tt).
  { intros E. apply andb_true_iff in E. destruct E as [E E0].
    destruct vs as [|v0 vs]; [discriminate E0|].
    inversion Hf as [|x l Hx _]; subst.
    unfold typeCheck in Hx. rewrite E in Hx. exact Hx. }
  destruct Ht as [[-> ->]|[-> ->]]; unfold typeCheck;
    cbn [T Kind_eqb orb sliceTypeCheck Kind_of GoKind_eqb negb andb Len bind
           Elements Elem_Kind Size].
  - destruct ((Kind_eqb (T elem) SliceTy || Kind_eqb (T elem) ArrayTy)
              && (len vs >? 0)) eqn:E.
    + apply Hn. reflexivity.
    + rewrite Hg. cbn [bind].
      rewrite Kind_GoType_of, Hk, GoKind_eqb_refl. reflexivity.
  - rewrite Z.eqb_refl. cbn [negb].
    destruct ((Kind_eqb (T elem) SliceTy || Kind_eqb (T elem) ArrayTy)
              && (len vs >? 0)) eqn:E.
    + apply Hn. reflexivity.
    + rewrite Hg. cbn [bind].
      rewrite Kind_GoType_of, Hk, GoKind_eqb_refl. reflexivity.
Qed.

(** The type check of the encoder, made on a value and on everything in it:
    the value passes typeCheck for its type, a slice or an array holds
    elements that pass it for the element type, all the way down, and so do
    the fields of the struct of a tuple for the types of the tuple. *)
Fixpoint typeCheck_deep (t : Type_) (v : Value) {struct t} : Prop :=
  typeCheck t v = Ok tt
  /\ match t with
     | TySlice elem _ | TyArray elem _ _ =>
         exists vs, Elements v = Ok vs /\ Forall (typeCheck_deep elem) vs
     | TyTuple _ elems _ _ _ =>
         exists fs,
           v = VStruct fs
           /\ (fix all (l : list Type_) (xs : list (string * Value)) : Prop :=
                 match l, xs with
                 | [], [] => True
                 | e :: r, x :: xs' => typeCheck_deep e (snd x) /\ all r xs'
                 | _, _ => False
                 end) elems fs
     | _ => True
     end.

Lemma typeCheck_deep_typeCheck (t : Type_) (v : Value) :
  typeCheck_deep t v -> typeCheck t v = Ok tt.
Proof. intros H. destruct t; exact (proj1 H). Qed.

Lemma typeCheck_deep_fields (elems : list Type_) (fs : list (string * Value)) :
  Forall2 (fun e x => typeCheck_deep e (snd x)) elems fs ->
  (fix all (l : list Type_) (xs : list (string * Value)) : Prop :=
     match l, xs with
     | [], [] => True
     | e :: r, x :: xs' => typeCheck_deep e (snd x) /\ all r xs'
     | _, _ => False
     end) elems fs.
Proof. intros H. induction H; [exact I | split; assumption]. Qed.

Lemma forTuple_loop_elements (fields : list string) (output : list byte)
      (P : Type_ -> Value -> Prop) (elems : list Type_) :
  Forall (fun e => forall i out x, toGoType i e out = Ok x -> P e x) elems ->
  forall index virtualArgs fs,
    forTuple_loop toGoType fields output elems index virtualArgs = Ok fs ->
    Forall2 (fun e x => P e (snd x)) elems fs.
Proof.
  intros HP. induction HP as [|e r He _ IH]; intros index virtualArgs fs H;
    cbn [forTuple_loop] in H.
  - apply Ok_inj in H. subst fs. constructor.
  - destruct (toGoType _ e output) as [x| |] eqn:Ex; cbn [bind] in H;
      try discriminate H.
    destruct (nth_error fields index) as [name|]; [|discriminate H].
    destruct (forTuple_loop _ _ _ _ _ _) as [rest| |] eqn:Er;
      cbn [bind] in H; try discriminate H.
    apply Ok_inj in H. subst fs. constructor.
    + exact (He _ _ _ Ex).
    + exact (IH _ _ _ Er).
Qed.

Lemma forEachUnpack_typeCheck (t : Type_) (output : list byte)
      (start size : Z) (v : Value) :
  (forall elem k, t = TySlice elem k ->
                  forall i out x, toGoType i elem out = Ok x ->
                                  typeCheck_deep elem x) ->
  (forall elem s k, t = TyArray elem s k ->
                    s = size
                    /\ forall i out x, toGoType i elem out = Ok x ->
                                       typeCheck_deep elem x) ->
  forEachUnpack_with toGoType t output start size = Ok v ->
  typeCheck_deep t v.
Proof.
  intros Hs Ha H. unfold forEachUnpack_with in H.
  destruct (size <? 0) eqn:E0; [discriminate H|].
  apply Z.ltb_ge in E0.
  destruct (_ >? _); [discriminate H|].
  destruct t as [| | | |t k|t s k| | | | | | |]; try discriminate H.
  - rewrite GetType_slice in H.
    destruct (GetType t) as [e| |] eqn:Eg; cbn [bind] in H;
      try discriminate H.
    apply GetType_Ok in Eg as Ee. subst e.
    destruct (forEach_loop _ _ _ _) as [vs| |] eqn:El; cbn [bind] in H;
      try discriminate H.
    apply Ok_inj in H. subst v.
    apply (forEach_loop_elements _ _ (typeCheck_deep t)) in El;
      [|intros i x Hx; exact (Hs t k eq_refl i output x Hx)].
    destruct El as [_ Hf]. cbn [typeCheck_deep]. split.
    + apply (typeCheck_sequence _ t (GetType_Kind t) vs);
        [left; split; reflexivity | reflexivity | exact Eg|].
      eapply Forall_impl; [|exact Hf].
      intros x. apply typeCheck_deep_typeCheck.
    + exists vs. split; [reflexivity | exact Hf].
  - rewrite GetType_array in H.
    destruct (GetType t) as [e| |] eqn:Eg; cbn [bind] in H;
      try discriminate H.
    apply GetType_Ok in Eg as Ee. subst e.
    destruct (reflect_ArrayOf _ _) as [a| |]; cbn [bind] in H;
      try discriminate H.
    destruct (forEach_loop _ _ _ _) as [vs| |] eqn:El; cbn [bind] in H;
      try discriminate H.
    apply Ok_inj in H. subst v.
    destruct (Ha t s k eq_refl) as [-> Helem].
    apply (forEach_loop_elements _ _ (typeCheck_deep t)) in El;
      [|intros i x Hx; exact (Helem i output x Hx)].
    destruct El as [Hl Hf].
    assert (Hsz : size = len vs) by (unfold len; lia).
    cbn [typeCheck_deep]. split.
    + apply (typeCheck_sequence _ t (GetType_Kind t) vs);
        [right; split; [cbn [String_]; congruence | reflexivity]
        | reflexivity | exact Eg|].
      eapply Forall_impl; [|exact Hf].
      intros x. apply typeCheck_deep_typeCheck.
    + exists vs. split; [reflexivity | exact Hf].
Qed.

(** X8.  Every value the decoder returns for a type passes the type check
    the encoder makes for that type, and so does everything in it: the value
    has the kind of the type's Go type, a fixed-bytes value has the declared
    number of bytes, an array has the declared number of elements, every
    element of a slice or an array passes the check of the element type, and
    every field of the struct of a tuple the check of the type at its
    position. *)
Theorem toGoType_typeCheck (t : Type_) :
  forall (index : Z) (output : list byte) (v : Value),
    toGoType index t output = Ok v -> typeCheck_deep t v.
Proof.
  induction t as [s k|s k|k|k|t k IHt|t s k IHt|rn elems names fields k IHe
                 |k|s k|k|k|k|k] using Type_tree_ind;
    intros index output v H; cbn [toGoType] in H;
    (destruct (int_add index 32 >? len output); [discriminate H|]).
  - destruct (slice _ _ _) as [w| |]; cbn [bind] in H; try discriminate H.
    apply (ReadInteger_kind false) in H. split; [|exact I].
    unfold typeCheck. cbn [T Kind_eqb orb].
    change (GetType (TyInt s k)) with (Ok (GoType_of (TyInt s k))).
    cbn [bind]. rewrite Kind_GoType_of. cbn [GetType_Kind].
    rewrite H, GoKind_eqb_refl. reflexivity.
  - destruct (slice _ _ _) as [w| |]; cbn [bind] in H; try discriminate H.
    apply (ReadInteger_kind true) in H. split; [|exact I].
    unfold typeCheck. cbn [T Kind_eqb orb].
    change (GetType (TyUint s k)) with (Ok (GoType_of (TyUint s k))).
    cbn [bind]. rewrite Kind_GoType_of. cbn [GetType_Kind].
    rewrite H, GoKind_eqb_refl. reflexivity.
  - destruct (slice _ _ _) as [w| |]; cbn [bind] in H; try discriminate H.
    destruct (readBool w) as [b| |]; cbn [bind] in H; try discriminate H.
    apply Ok_inj in H. subst v. split; [reflexivity | exact I].
  - destruct (lengthPrefixPointsTo _ _) as [[b l]| |]; cbn [bind] in H;
      try discriminate H.
    destruct (slice _ _ _) as [w| |]; cbn [bind] in H; try discriminate H.
    apply Ok_inj in H. subst v. split; [reflexivity | exact I].
  - destruct (lengthPrefixPointsTo _ _) as [[b l]| |]; cbn [bind] in H;
      try discriminate H.
    destruct (slice_from _ _) as [out| |]; cbn [bind] in H;
      try discriminate H.
    apply forEachUnpack_typeCheck in H; [exact H | |discriminate].
    intros elem k' E. injection E as -> _. exact IHt.
  - destruct (slice _ _ _) as [w| |]; cbn [bind] in H; try discriminate H.
    assert (Ha : forall elem s' k', TyArray t s k = TyArray elem s' k' ->
                   s' = s /\ forall i out x, toGoType i elem out = Ok x ->
                                             typeCheck_deep elem x).
    { intros elem s' k' E. injection E as -> -> _. split; [reflexivity|].
      exact IHt. }
    destruct (isDynamicType t).
    + destruct (slice_from w _) as [w8| |]; cbn [bind] in H;
        try discriminate H.
      destruct (BigEndian_Uint64 w8) as [offset| |]; cbn [bind] in H;
        try discriminate H.
      destruct (offset >? len output); [discriminate H|].
      destruct (slice_from _ _) as [out| |]; cbn [bind] in H;
        try discriminate H.
      apply forEachUnpack_typeCheck in H; [exact H | discriminate | exact Ha].
    + destruct (slice_from _ _) as [out| |]; cbn [bind] in H;
        try discriminate H.
      apply forEachUnpack_typeCheck in H; [exact H | discriminate | exact Ha].
  - destruct (slice _ _ _) as [w| |]; cbn [bind] in H; try discriminate H.
    assert (Hv : forall out, forTupleUnpack_with toGoType
                               (TyTuple rn elems names fields k) out = Ok v ->
                             typeCheck_deep (TyTuple rn elems names fields k)
                                            v).
    { intros out Hf. unfold forTupleUnpack_with in Hf.
      destruct (forTuple_loop _ _ _ _ _ _) as [fs| |] eqn:El;
        cbn [bind] in Hf; try discriminate Hf.
      apply Ok_inj in Hf. subst v. cbn [typeCheck_deep]. split.
      - unfold typeCheck. cbn [T Kind_eqb orb]. rewrite GetType_tuple.
        cbn [bind]. rewrite Kind_GoType_of. reflexivity.
      - exists fs. split; [reflexivity|]. apply typeCheck_deep_fields.
        apply (forTuple_loop_elements fields out typeCheck_deep elems)
          with (index := O) (virtualArgs := 0); [|exact El].
        eapply Forall_impl; [|exact IHe].
        intros e He i out' x Hx. exact (He i out' x Hx). }
    destruct (isDynamicType _).
    + destruct (tuplePointsTo _ _) as [b| |]; cbn [bind] in H;
        try discriminate H.
      destruct (slice_from _ _) as [out| |]; cbn [bind] in H;
        try discriminate H.
      exact (Hv _ H).
    + destruct (slice_from _ _) as [out| |]; cbn [bind] in H;
        try discriminate H.
      exact (Hv _ H).
  - destruct (slice _ _ _) as [w| |]; cbn [bind] in H; try discriminate H.
    apply Ok_inj in H. subst v. split; [reflexivity | exact I].
  - destruct (slice _ _ _) as [w| |] eqn:Ew; cbn [bind] in H;
      try discriminate H.
    unfold ReadFixedBytes in H. cbn [T Kind_eqb negb Size] in H.
    destruct (slice w 0 s) as [bs| |] eqn:Eb; cbn [bind] in H;
      try discriminate H.
    apply Ok_inj in H. subst v. apply slice_len in Eb as Hb.
    destruct (slice_Ok _ _ _ _ Eb) as (_ & Hs0 & Hsw & _).
    destruct (slice_Ok _ _ _ _ Ew) as (Hi0 & _ & _ & _).
    apply slice_len in Ew.
    pose proof (wrap_range (index + 32)) as Hr. unfold in_int in Hr.
    fold (int_add index 32) in Hr.
    split; [|exact I]. unfold typeCheck. cbn [T Kind_eqb orb].
    rewrite GetType_FixedBytes.
    + cbn [bind].
      cbn [GoType_of array_Type Kind_ Kind_of GoKind_eqb negb Len bind Size
           T Kind_eqb].
      rewrite len_Values_of_bytes, Hb, Z.sub_0_r, Z.eqb_refl. reflexivity.
    + lia.
  - destruct (lengthPrefixPointsTo _ _) as [[b l]| |]; cbn [bind] in H;
      try discriminate H.
    destruct (slice _ _ _) as [w| |]; cbn [bind] in H; try discriminate H.
    apply Ok_inj in H. subst v. split; [reflexivity | exact I].
  - destruct (slice _ _ _) as [w| |]; cbn [bind] in H; try discriminate H.
    apply Ok_inj in H. subst v. split; [reflexivity | exact I].
  - destruct (slice _ _ _) as [w| |]; cbn [bind] in H; discriminate H.
  - destruct (slice _ _ _) as [w| |]; cbn [bind] in H; try discriminate H.
    unfold readFunctionType in H. cbn [T Kind_eqb negb] in H.
    destruct (slice w 24 32) as [t8| |]; cbn [bind] in H; try discriminate H.
    destruct (BigEndian_Uint64 t8) as [g| |]; cbn [bind] in H;
      try discriminate H.
    destruct (negb (g =? 0)); [discriminate H|].
    destruct (slice w 0 24) as [bs| |]; cbn [bind] in H; try discriminate H.
    apply Ok_inj in H. subst v. split; [reflexivity | exact I].
Qed.

Lemma toGoType_typeCheck_witness :
  typeCheck_deep (TyArray (TyUint 8 "uint8") 2 "uint8[2]")
                 (VArray (KUint W8) [VUint W8 1; VUint W8 2]).
Proof.
  apply (toGoType_typeCheck (TyArray (TyUint 8 "uint8") 2 "uint8[2]") 0
           (U256Bytes 1 ++ U256Bytes 2)).
  reflexivity.
Defined.

(** ** Bytes after the encoding *)

Lemma slice_app_l {A} (s e : list A) (a b : Z) (r : list A) :
  slice s a b = Ok r -> slice (s ++ e) a b = Ok r.
Proof.
  intros H.
  destruct (slice_Ok _ _ _ _ H) as (_ & _ & _ & pre & post & -> & <- & Hl).
  replace b with (len pre + len r) by lia.
  rewrite <- !app_assoc. apply slice_app_mid.
Qed.

Lemma slice_from_app_l {A} (s e : list A) (a : Z) (r : list A) :
  slice_from s a = Ok r -> slice_from (s ++ e) a = Ok (r ++ e).
Proof.
  unfold slice_from at 1. intros H.
  destruct (slice_Ok _ _ _ _ H) as (_ & _ & _ & pre & post & Hs & <- & Hl).
  assert (Hp : post = []).
  { rewrite Hs, !len_app in Hl. apply len_zero_iff.
    pose proof (len_nonneg post). lia. }
  subst post. rewrite app_nil_r in Hs. subst s.
  rewrite <- app_assoc. apply slice_from_app.
Qed.

Lemma gtb_len_app {A} (s e : list A) (x : Z) :
  (x >? len s) = false -> (x >? len (s ++ e)) = false.
Proof.
  rewrite !Z.gtb_ltb, !Z.ltb_ge, len_app. pose proof (len_nonneg e). lia.
Qed.

Lemma lengthPrefixPointsTo_app (index : Z) (output extra : list byte)
      (p : Z * Z) :
  lengthPrefixPointsTo index output = Ok p ->
  lengthPrefixPointsTo index (output ++ extra) = Ok p.
Proof.
  unfold lengthPrefixPointsTo. intros H.
  destruct (slice output index (int_add index 32)) as [w| |] eqn:Ew;
    cbn [bind] in H; try discriminate H.
  rewrite (slice_app_l _ extra _ _ _ Ew). cbn [bind].
  destruct (SetBytes w + 32 >? len output) eqn:E1; [discriminate H|].
  rewrite (gtb_len_app _ extra _ E1).
  destruct (BitLen_gt_63 (SetBytes w + 32)); [discriminate H|].
  destruct (slice output (int_sub _ _) _) as [lw| |] eqn:El; cbn [bind] in H;
    try discriminate H.
  rewrite (slice_app_l _ extra _ _ _ El). cbn [bind].
  destruct (BitLen_gt_63 (SetBytes w + 32 + SetBytes lw));
    [discriminate H|].
  destruct (SetBytes w + 32 + SetBytes lw >? len output) eqn:E2;
    [discriminate H|].
  rewrite (gtb_len_app _ extra _ E2). exact H.
Qed.

Lemma tuplePointsTo_app (index : Z) (output extra : list byte) (b : Z) :
  tuplePointsTo index output = Ok b ->
  tuplePointsTo index (output ++ extra) = Ok b.
Proof.
  unfold tuplePointsTo. intros H.
  destruct (slice output index (int_add index 32)) as [w| |] eqn:Ew;
    cbn [bind] in H; try discriminate H.
  rewrite (slice_app_l _ extra _ _ _ Ew). cbn [bind].
  destruct (SetBytes w >? len output) eqn:E1; [discriminate H|].
  rewrite (gtb_len_app _ extra _ E1). exact H.
Qed.

Lemma forEach_loop_ext (dec dec' : Z -> Result Value) (elemSize : Z) :
  (forall i v, dec i = Ok v -> dec' i = Ok v) ->
  forall n i vs,
    forEach_loop dec elemSize i n = Ok vs ->
    forEach_loop dec' elemSize i n = Ok vs.
Proof.
  intros Hd. induction n as [|n IH]; intros i vs H; simpl in *;
    [exact H|].
  destruct (dec i) as [x| |] eqn:Ex; cbn [bind] in H; try discriminate H.
  rewrite (Hd _ _ Ex). cbn [bind].
  destruct (forEach_loop dec _ _ _) as [rest| |] eqn:Er; cbn [bind] in H;
    try discriminate H.
  rewrite (IH _ _ Er). exact H.
Qed.

(* decoding does not depend on the bytes that follow the output *)
Definition ignores_trailing_bytes (t : Type_) : Prop :=
  forall (index : Z) (output extra : list byte) (v : Value),
    toGoType index t output = Ok v ->
    toGoType index t (output ++ extra) = Ok v.

Lemma forEachUnpack_app (t elem : Type_) (output extra : list byte)
      (start size : Z) (v : Value) :
  (exists k, t = TySlice elem k) \/ (exists s k, t = TyArray elem s k) ->
  ignores_trailing_bytes elem ->
  forEachUnpack_with toGoType t output start size = Ok v ->
  forEachUnpack_with toGoType t (output ++ extra) start size = Ok v.
Proof.
  intros Ht IH H. unfold forEachUnpack_with in *.
  destruct (size <? 0); [discriminate H|].
  destruct (_ >? len output) eqn:E; [discriminate H|].
  rewrite (gtb_len_app _ extra _ E).
  destruct Ht as [[k ->]|[s [k ->]]];
    (destruct (GetType _) as [typ| |]; cbn [bind] in H |- *;
     try discriminate H);
    (destruct (forEach_loop _ _ _ _) as [vs| |] eqn:El; cbn [bind] in H;
     try discriminate H);
    rewrite (forEach_loop_ext _ (fun i => toGoType i elem (output ++ extra))
               _ (fun i x Hx => IH i output extra x Hx) _ _ _ El);
    exact H.
Qed.

Lemma forTuple_loop_app (fields : list string) (output extra : list byte) :
  forall elems, Forall ignores_trailing_bytes elems ->
  forall index virtualArgs fs,
    forTuple_loop toGoType fields output elems index virtualArgs = Ok fs ->
    forTuple_loop toGoType fields (output ++ extra) elems index virtualArgs
    = Ok fs.
Proof.
  induction elems as [|elem rest IH]; intros Hf index va fs H; simpl in *;
    [exact H|].
  inversion Hf as [|x l Hx Hl]; subst.
  destruct (toGoType _ elem output) as [x| |] eqn:Ex; cbn [bind] in H;
    try discriminate H.
  rewrite (Hx _ _ extra _ Ex). cbn [bind].
  destruct (nth_error fields index) as [name|]; [|exact H].
  destruct (forTuple_loop _ _ output _ _ _) as [r| |] eqn:Er;
    cbn [bind] in H; try discriminate H.
  rewrite (IH Hl _ _ _ Er). exact H.
Qed.

Lemma toGoType_app (t : Type_) : ignores_trailing_bytes t.
Proof.
  induction t as [s k|s k|k|k|t k IHt|t s k IHt|rn elems names fields k IHe
                 |k|s k|k|k|k|k] using Type_tree_ind;
    intros index output extra v H; cbn [toGoType] in *;
    (destruct (int_add index 32 >? len output) eqn:E0; [discriminate H|]);
    rewrite (gtb_len_app _ extra _ E0);
    try (destruct (slice output index (int_add index 32)) as [w| |] eqn:Ew;
         cbn [bind] in H; try discriminate H;
         rewrite (slice_app_l _ extra _ _ _ Ew); cbn [bind]);
    try (destruct (lengthPrefixPointsTo index output) as [[b l]| |] eqn:Ep;
         cbn [bind] in H; try discriminate H;
         rewrite (lengthPrefixPointsTo_app _ _ extra _ Ep); cbn [bind]);
    try exact H.
  - destruct (slice output b _) as [w| |] eqn:Ew; cbn [bind] in H;
      try discriminate H.
    rewrite (slice_app_l _ extra _ _ _ Ew). exact H.
  - destruct (slice_from output b) as [out| |] eqn:Eo; cbn [bind] in H;
      try discriminate H.
    rewrite (slice_from_app_l _ extra _ _ Eo). cbn [bind].
    apply (forEachUnpack_app _ t); [left; eauto | exact IHt | exact H].
  - destruct (isDynamicType t).
    + destruct (slice_from w _) as [w8| |]; cbn [bind] in *;
        try discriminate H.
      destruct (BigEndian_Uint64 w8) as [offset| |]; cbn [bind] in *;
        try discriminate H.
      destruct (offset >? len output) eqn:E1; [discriminate H|].
      rewrite (gtb_len_app _ extra _ E1).
      destruct (slice_from output offset) as [out| |] eqn:Eo;
        cbn [bind] in H; try discriminate H.
      rewrite (slice_from_app_l _ extra _ _ Eo). cbn [bind].
      apply (forEachUnpack_app _ t); [right; eauto | exact IHt | exact H].
    + destruct (slice_from output index) as [out| |] eqn:Eo;
        cbn [bind] in H; try discriminate H.
      rewrite (slice_from_app_l _ extra _ _ Eo). cbn [bind].
      apply (forEachUnpack_app _ t); [right; eauto | exact IHt | exact H].
  - assert (Hv : forall out,
               forTupleUnpack_with toGoType
                 (TyTuple rn elems names fields k) out = Ok v ->
               forTupleUnpack_with toGoType
                 (TyTuple rn elems names fields k) (out ++ extra) = Ok v).
    { intros out Hf. unfold forTupleUnpack_with in *.
      destruct (forTuple_loop _ _ out _ _ _) as [fs| |] eqn:Ef;
        cbn [bind] in Hf; try discriminate Hf.
      rewrite (forTuple_loop_app _ _ extra _ IHe _ _ _ Ef). exact Hf. }
    destruct (isDynamicType _).
    + destruct (tuplePointsTo index output) as [b| |] eqn:Eb;
        cbn [bind] in H; try discriminate H.
      rewrite (tuplePointsTo_app _ _ extra _ Eb). cbn [bind].
      destruct (slice_from output b) as [out| |] eqn:Eo; cbn [bind] in H;
        try discriminate H.
      rewrite (slice_from_app_l _ extra _ _ Eo). cbn [bind].
      exact (Hv _ H).
    + destruct (slice_from output index) as [out| |] eqn:Eo;
        cbn [bind] in H; try discriminate H.
      rewrite (slice_from_app_l _ extra _ _ Eo). cbn [bind].
      exact (Hv _ H).
  - destruct (slice output b _) as [w| |] eqn:Ew; cbn [bind] in H;
      try discriminate H.
    rewrite (slice_app_l _ extra _ _ _ Ew). exact H.
Qed.

Lemma UnpackValues_loop_app (data extra : list byte) (arguments : Arguments) :
  forall index virtualArgs vs,
    UnpackValues_loop data arguments index virtualArgs = Ok vs ->
    UnpackValues_loop (data ++ extra) arguments index virtualArgs = Ok vs.
Proof.
  induction arguments as [|a r IH]; intros index va vs H; simpl in *;
    [exact H|].
  destruct (Indexed a); [exact (IH _ _ _ H)|].
  destruct (toGoType _ _ data) as [x| |] eqn:Ex; cbn [bind] in H;
    try discriminate H.
  rewrite (toGoType_app _ _ _ extra _ Ex). cbn [bind].
  destruct (UnpackValues_loop data _ _ _) as [rest| |] eqn:Er;
    cbn [bind] in H; try discriminate H.
  rewrite (IH _ _ _ Er). exact H.
Qed.

Lemma UnpackValues_loop_all_indexed (data : list byte)
      (arguments : Arguments) (index virtualArgs : Z) :
  NonIndexed arguments = [] ->
  UnpackValues_loop data arguments index virtualArgs = Ok [].
Proof.
  intros H. rewrite UnpackValues_loop_NonIndexed, H. reflexivity.
Qed.

(** X9.  The decoder ignores what follows a valid encoding: when
    [toGoType], [UnpackValues] or [Unpack] succeeds on some bytes, it
    succeeds with the same values on those bytes followed by any others. *)
Theorem Unpack_ignores_trailing_bytes
        (arguments : Arguments) (data extra : list byte) (vs : list Value) :
  (forall t index v, toGoType index t data = Ok v ->
                     toGoType index t (data ++ extra) = Ok v)
  /\ (UnpackValues arguments data = Ok vs ->
      UnpackValues arguments (data ++ extra) = Ok vs)
  /\ (Unpack arguments data = Ok vs ->
      Unpack arguments (data ++ extra) = Ok vs).
Proof.
  split; [|split].
  - intros t index v. apply toGoType_app.
  - apply UnpackValues_loop_app.
  - unfold Unpack. destruct (len data =? 0) eqn:E0.
    + apply Z.eqb_eq, len_zero_iff in E0. subst data. simpl.
      destruct (negb (len (NonIndexed arguments) =? 0)) eqn:E;
        [discriminate|].
      intros H. apply Ok_inj in H. subst vs.
      apply negb_false_iff, Z.eqb_eq, len_zero_iff in E.
      destruct (len extra =? 0); [reflexivity|].
      apply UnpackValues_loop_all_indexed. exact E.
    + intros H. apply UnpackValues_loop_app with (extra := extra) in H.
      destruct (len (data ++ extra) =? 0) eqn:E1; [|exact H].
      apply Z.eqb_eq in E1. apply Z.eqb_neq in E0. rewrite len_app in E1.
      pose proof (len_nonneg data). pose proof (len_nonneg extra). lia.
Qed.

Lemma Unpack_ignores_trailing_bytes_witness :
  Unpack [mkArgument "s" (TyString "string") false]
         ((U256Bytes 32 ++ U256Bytes 1 ++ x41 :: repeat x00 31)
            ++ repeat xff 5)
  = Ok [VString [x41]].
Proof.
  apply (proj2 (proj2 (Unpack_ignores_trailing_bytes
                         [mkArgument "s" (TyString "string") false]
                         (U256Bytes 32 ++ U256Bytes 1 ++ x41 :: repeat x00 31)
                         (repeat xff 5) [VString [x41]]))).
  reflexivity.
Defined.

(** * Further properties of the encoder *)

(** ** Sizes *)

Lemma wrap_mod_32 (z : Z) : wrap z mod 32 = z mod 32.
Proof.
  unfold wrap.
  pose proof (Z.div_mod (z + 2 ^ 63) (2 ^ 64) ltac:(lia)) as H.
  replace ((z + 2 ^ 63) mod 2 ^ 64 - 2 ^ 63)
    with (z + (- ((z + 2 ^ 63) / 2 ^ 64) * 2 ^ 59) * 32) by lia.
  apply Z_mod_plus_full.
Qed.

Lemma getTypeSize_in_int (t : Type_) : in_int (getTypeSize t).
Proof.
  assert (H32 : in_int 32) by (unfold in_int; lia).
  destruct t as [| | | |e k|e s k|rn elems names fields k| | | | | |];
    try exact H32.
  - cbn [getTypeSize]. destruct (negb (isDynamicType e)); [|exact H32].
    destruct (_ || _); apply wrap_range.
  - rewrite getTypeSize_tuple. destruct (isDynamicType _); [exact H32|].
    rewrite sum_TypeSize_fold.
    assert (G : forall l z, in_int z -> in_int (fold_left int_add l z)).
    { induction l as [|x l IH]; intros z Hz; simpl; [exact Hz|].
      apply IH. apply wrap_range. }
    apply G. unfold in_int. lia.
Qed.

Lemma getTypeSize_mod_32 (t : Type_) : getTypeSize t mod 32 = 0.
Proof.
  induction t as [s k|s k|k|k|t k IHt|t s k IHt
                 |rn elems names fields k IHe|k|s k|k|k|k|k]
    using Type_tree_ind; try reflexivity.
  - cbn [getTypeSize]. destruct (negb (isDynamicType t)); [|reflexivity].
    destruct (_ || _); unfold int_mul; rewrite wrap_mod_32.
    + rewrite <- Z.mul_mod_idemp_r, IHt, Z.mul_0_r by lia. reflexivity.
    + apply Z_mod_mult.
  - rewrite getTypeSize_tuple. destruct (isDynamicType _); [reflexivity|].
    assert (G : forall z, z mod 32 = 0 -> sum_TypeSize elems z mod 32 = 0).
    { induction IHe as [|e r He _ IH]; intros z Hz; simpl; [exact Hz|].
      apply IH. unfold int_add. rewrite wrap_mod_32.
      rewrite Z.add_mod, Hz, He by lia. reflexivity. }
    apply G. reflexivity.
Qed.

Lemma getTypeSize_div_32 (t : Type_) :
  exists q, getTypeSize t = 32 * q /\ int_div (getTypeSize t) 32 = q.
Proof.
  pose proof (getTypeSize_in_int t) as Hi. unfold in_int in Hi.
  pose proof (getTypeSize_mod_32 t) as Hm.
  apply Z.mod_divide in Hm; [|lia]. destruct Hm as [q Hq].
  exists q. split; [lia|].
  rewrite Hq. unfold int_div. rewrite Z.quot_mul by lia.
  apply wrap_small. unfold in_int. lia.
Qed.

(** X10.  [getTypeSize] is a multiple of 32 on every type, also when a
    product or a sum inside it has wrapped around, so that the division
    getTypeSize(t)/32 made by the decoders of tuples and of argument lists
    is exact. *)
Theorem getTypeSize_multiple_of_32 (t : Type_) :
  getTypeSize t mod 32 = 0
  /\ 32 * int_div (getTypeSize t) 32 = getTypeSize t.
Proof.
  split; [apply getTypeSize_mod_32|].
  destruct (getTypeSize_div_32 t) as (q & Hq & ->). lia.
Qed.

(** ** Argument lists of static types *)

Section Encoder_static.
Variable m : list string -> Value -> option (string -> string).

(* the encodings of the values, one after the other *)
Fixpoint pack_each (abiArgs : Arguments) (args : list Value)
  : Result (list byte) :=
  match abiArgs, args with
  | input :: abiArgs', a :: args' =>
      packed <- pack m (Type_of input) a ;;
      rest <- pack_each abiArgs' args' ;;
      Ok (packed ++ rest)
  | _, _ => Ok []
  end.

Lemma Pack_loop_static (abiArgs : Arguments) (args : list Value) :
  forall i inputOffset ret variableInput,
    List.length args = List.length (skipn i abiArgs) ->
    Forall (fun a => isDynamicType (Type_of a) = false) (skipn i abiArgs) ->
    Pack_loop m abiArgs args i inputOffset ret variableInput
    = (r <- pack_each (skipn i abiArgs) args ;;
       Ok ((ret ++ r) ++ variableInput)).
Proof.
  induction args as [|a rest IH]; intros i off ret vi Hl Hs.
  - simpl. destruct (skipn i abiArgs); [|discriminate Hl]. simpl.
    rewrite app_nil_r. reflexivity.
  - destruct (nth_error abiArgs i) as [input|] eqn:En.
    + pose proof (skipn_nth_error _ _ _ En) as Esk. rewrite Esk in Hl, Hs.
      remember (skipn (S i) abiArgs) as tl eqn:Etl.
      inversion Hs as [|x l Hx Hr]; subst x l. cbn [List.length] in Hl.
      cbn [Pack_loop]. rewrite En, Esk. cbn [pack_each].
      destruct (pack m (Type_of input) a) as [packed| |]; cbn [bind];
        try reflexivity.
      rewrite Hx, IH by (rewrite <- Etl; try assumption; lia).
      rewrite <- Etl.
      destruct (pack_each tl rest) as [r| |]; cbn [bind]; try reflexivity.
      rewrite <- !app_assoc. reflexivity.
    + apply nth_error_None in En. rewrite skipn_all2 in Hl by lia.
      discriminate Hl.
Qed.

Lemma pack_each_app (a1 a2 : Arguments) (v1 v2 : list Value) :
  List.length v1 = List.length a1 ->
  pack_each (a1 ++ a2) (v1 ++ v2)
  = (e1 <- pack_each a1 v1 ;; e2 <- pack_each a2 v2 ;; Ok (e1 ++ e2)).
Proof.
  revert v1. induction a1 as [|x a1 IH]; intros [|y v1] Hl;
    try discriminate Hl; simpl.
  - destruct (pack_each a2 v2); reflexivity.
  - destruct (pack m (Type_of x) y) as [p| |]; cbn [bind]; try reflexivity.
    rewrite IH by (simpl in Hl; lia).
    destruct (pack_each a1 v1) as [e1| |]; cbn [bind]; try reflexivity.
    destruct (pack_each a2 v2) as [e2| |]; cbn [bind]; try reflexivity.
    rewrite app_assoc. reflexivity.
Qed.

Lemma Pack_static (arguments : Arguments) (args : list Value) :
  List.length args = List.length arguments ->
  Forall (fun a => isDynamicType (Type_of a) = false) arguments ->
  Pack m arguments args = pack_each arguments args.
Proof.
  intros Hl Hs. unfold Pack.
  replace (len args =? len arguments) with true
    by (symmetry; apply Z.eqb_eq; unfold len; lia).
  cbn [negb]. rewrite Pack_loop_static by assumption. cbn [skipn].
  destruct (pack_each arguments args); cbn [bind]; try reflexivity.
  rewrite app_nil_r. reflexivity.
Qed.

(** X11.  For arguments of static types [Pack] is a concatenation: the
    encoding of two lists of values one after the other is the encoding of
    the first list followed by the encoding of the second, and it fails with
    the error of the first list when that one fails, else with the error of
    the second. *)
Theorem Pack_static_app (a1 a2 : Arguments) (v1 v2 : list Value) :
  Forall (fun a => isDynamicType (Type_of a) = false) (a1 ++ a2) ->
  List.length v1 = List.length a1 ->
  List.length v2 = List.length a2 ->
  Pack m (a1 ++ a2) (v1 ++ v2)
  = (e1 <- Pack m a1 v1 ;; e2 <- Pack m a2 v2 ;; Ok (e1 ++ e2)).
Proof.
  intros Hs H1 H2. pose proof Hs as Hs'. apply Forall_app in Hs'.
  destruct Hs' as [Hs1 Hs2].
  rewrite !Pack_static by (try assumption; rewrite !length_app; lia).
  apply pack_each_app. exact H1.
Qed.

End Encoder_static.

Lemma Pack_static_app_witness :
  Pack same_name_fields
       ([mkArgument "a" (TyBool "bool") false]
          ++ [mkArgument "b" (TyUint 8 "uint8") false])
       ([VBool true] ++ [VUint W8 7])
  = Ok (U256Bytes 1 ++ U256Bytes 7).
Proof.
  rewrite (Pack_static_app same_name_fields
             [mkArgument "a" (TyBool "bool") false]
             [mkArgument "b" (TyUint 8 "uint8") false]
             [VBool true] [VUint W8 7]).
  - reflexivity.
  - repeat constructor.
  - reflexivity.
  - reflexivity.
Defined.

(** ** One type at a time *)

Section Encoder_types.
Variable m : list string -> Value -> option (string -> string).

(** X12.  The encoding [Type.pack] makes of a conforming value of a static
    type has exactly [getTypeSize] bytes, and the one of a dynamic type has
    at least 32 bytes; in both cases the number of bytes is a multiple of
    32. *)
Theorem pack_length (t : Type_) (v : Value) (enc : list byte) :
  wfType t -> conforms m t v -> pack m t v = Ok enc -> len enc < 2 ^ 63 ->
  (isDynamicType t = false -> len enc = getTypeSize t)
  /\ 32 <= len enc /\ len enc mod 32 = 0.
Proof.
  intros Hwf Hc Hp Hl.
  destruct (pack_good m t Hwf v enc (conforms_accepted m t v Hc) Hp Hl)
    as (_ & Ha & H32 & Hs & _).
  split; [exact Hs|]. split; [exact H32|].
  destruct Ha as [q Hq]. rewrite Hq, Z.mul_comm. apply Z_mod_mult.
Qed.

(** X13.  An encoding decodes where it lies.  The encoding [Type.pack]
    makes of a conforming value of a static type, put anywhere inside a
    buffer, is decoded by [toGoType] at its position to that value; the one
    of a dynamic type is decoded to that value at every index whose word
    holds the position of the encoding as its offset. *)
Theorem toGoType_pack_in_place
        (t : Type_) (v : Value) (enc pre post : list byte) :
  wfType t -> conforms m t v -> pack m t v = Ok enc ->
  len (pre ++ enc ++ post) < 2 ^ 63 ->
  (isDynamicType t = false ->
   toGoType (len pre) t (pre ++ enc ++ post) = Ok v)
  /\ (isDynamicType t = true ->
      forall index,
        slice (pre ++ enc ++ post) index (index + 32)
        = Ok (U256Bytes (len pre)) ->
        toGoType index t (pre ++ enc ++ post) = Ok v).
Proof.
  intros Hwf Hc Hp Hl.
  assert (He : len enc < 2 ^ 63).
  { rewrite !len_app in Hl. pose proof (len_nonneg pre).
    pose proof (len_nonneg post). lia. }
  destruct (pack_good m t Hwf v enc (conforms_accepted m t v Hc) Hp He)
    as (Hd & _).
  rewrite (normal_conforms m t v Hc) in Hd.
  destruct (Hd (pre ++ enc ++ post) Hl) as [Hs Hdyn]. split.
  - intros E. exact (Hs E pre post eq_refl).
  - intros E index Hi. exact (Hdyn E index pre post Hi eq_refl).
Qed.

Lemma GoKind_eqb_eq (a b : GoKind) : GoKind_eqb a b = true -> a = b.
Proof.
  destruct a as [|[]|[]| | | | |], b as [|[]|[]| | | | |]; simpl;
    congruence.
Qed.

(** X14.  [Type.pack] rejects a value that does not fit the type before it
    encodes anything, whenever reflect can build the Go type that the check
    asks for (the type check panics where it cannot): a value whose kind is
    not the kind of the type's Go type, and an array whose number of elements
    is not the size of a fixed-bytes type, when [GetType] of the type does
    not panic; an array whose number of elements is not the size of an array
    type, when [GetType] of the element type does not panic; each with the
    type error; and a negative big integer for an unsigned type, with the
    sign error. *)
Theorem pack_rejects (t : Type_) (v : Value) :
  (T t <> SliceTy -> T t <> ArrayTy -> GetType t <> Panic ->
   Kind_of v <> GetType_Kind t -> pack m t v = Err errTypeErr)
  /\ (forall ek vs, T t = FixedBytesTy -> GetType t <> Panic ->
                    v = VArray ek vs -> len vs <> Size t ->
                    pack m t v = Err errTypeErr)
  /\ (forall elem s k ek vs, t = TyArray elem s k ->
                             GetType elem <> Panic ->
                             v = VArray ek vs -> len vs <> s ->
                             pack m t v = Err errTypeErr)
  /\ (forall n, T t = UintTy -> GetType_Kind t = KPtr -> v = VBig n ->
                n < 0 -> pack m t v = Err errInvalidSign).
Proof.
  assert (Hg : GetType t <> Panic -> GetType t = Ok (GoType_of t)).
  { intros Hn. destruct (GetType t) as [typ|e|] eqn:E.
    - rewrite (GetType_Ok t typ E). reflexivity.
    - exfalso. exact (GetType_no_error t e E).
    - contradiction. }
  repeat split.
  - intros Hs Ha Hn Hk. rewrite pack_unfold. unfold typeCheck.
    destruct (Kind_eqb (T t) SliceTy) eqn:E1;
      [apply Kind_eqb_eq in E1; contradiction|].
    destruct (Kind_eqb (T t) ArrayTy) eqn:E2;
      [apply Kind_eqb_eq in E2; contradiction|].
    cbn [orb]. rewrite (Hg Hn). cbn [bind]. rewrite Kind_GoType_of.
    destruct (GoKind_eqb (GetType_Kind t) (Kind_of v)) eqn:E;
      [apply GoKind_eqb_eq in E; congruence|].
    reflexivity.
  - intros ek vs Ht Hn -> Hl. rewrite pack_unfold. unfold typeCheck.
    rewrite (Hg Hn).
    destruct t as [| | | | | | | |s k| | | |]; try discriminate Ht.
    cbn [T Kind_eqb orb GoType_of array_Type Kind_ Kind_of GoKind_eqb negb
           Len bind Size] in *.
    destruct (Z.eqb_spec s (len vs)); [congruence|]. reflexivity.
  - intros elem s k ek vs -> Hn -> Hl. rewrite pack_unfold. unfold typeCheck.
    cbn [T Kind_eqb orb sliceTypeCheck Kind_of GoKind_eqb negb andb Len bind
           Size Elem_Kind].
    destruct (Z.eqb_spec (len vs) s); [congruence|]. cbn [negb].
    destruct (GetType elem) as [typ|e|] eqn:E.
    + reflexivity.
    + exfalso. exact (GetType_no_error elem e E).
    + contradiction.
  - intros n Ht Hk -> Hn. rewrite pack_unfold. unfold typeCheck.
    destruct t as [|s k| | | | | | | | | | |]; try discriminate Ht.
    change (GetType (TyUint s k)) with (Ok (GoType_of (TyUint s k))).
    cbn [T Kind_eqb orb Kind_of bind]. rewrite Kind_GoType_of, Hk.
    cbn [GoKind_eqb negb bind].
    unfold packElement. cbn [T].
    destruct (Z.ltb_spec n 0); [reflexivity | lia].
Qed.

End Encoder_types.

Lemma pack_length_witness :
  len (U256Bytes 1 ++ U256Bytes 2)
  = getTypeSize (TyArray (TyUint 8 "uint8") 2 "uint8[2]").
Proof.
  refine (proj1 (pack_length same_name_fields
                   (TyArray (TyUint 8 "uint8") 2 "uint8[2]")
                   (VArray (KUint W8) [VUint W8 1; VUint W8 2])
                   (U256Bytes 1 ++ U256Bytes 2) _ _ _ _) _).
  - repeat split; try reflexivity; discriminate.
  - exists [VUint W8 1; VUint W8 2]. repeat split.
    repeat constructor; [exists 1 | exists 2];
      repeat split; try reflexivity; discriminate.
  - reflexivity.
  - reflexivity.
  - reflexivity.
Defined.

Lemma toGoType_pack_in_place_witness :
  toGoType 32 (TyBool "bool") (U256Bytes 9 ++ U256Bytes 1 ++ [xff])
  = Ok (VBool true).
Proof.
  apply (proj1 (toGoType_pack_in_place same_name_fields (TyBool "bool")
                  (VBool true) (U256Bytes 1) (U256Bytes 9) [xff]
                  I (ex_intro _ true eq_refl) eq_refl eq_refl)).
  reflexivity.
Defined.

Lemma pack_rejects_witness :
  pack same_name_fields (TyUint 256 "uint256") (VBig (-1))
  = Err errInvalidSign
  /\ pack same_name_fields (TyFixedBytes 4 "bytes4")
          (VArray (KUint W8) (Values_of_bytes [x01; x02]))
     = Err errTypeErr
  /\ pack same_name_fields (TyArray (TyUint 8 "uint8") 2 "uint8[2]")
          (VArray (KUint W8) [VUint W8 1])
     = Err errTypeErr
  /\ pack same_name_fields (TyBool "bool") (VString []) = Err errTypeErr.
Proof.
  pose proof (pack_rejects same_name_fields (TyUint 256 "uint256")
                (VBig (-1))) as (_ & _ & _ & H1).
  pose proof (pack_rejects same_name_fields (TyFixedBytes 4 "bytes4")
                (VArray (KUint W8) (Values_of_bytes [x01; x02])))
    as (_ & H2 & _).
  pose proof (pack_rejects same_name_fields
                (TyArray (TyUint 8 "uint8") 2 "uint8[2]")
                (VArray (KUint W8) [VUint W8 1])) as (_ & _ & H3 & _).
  pose proof (pack_rejects same_name_fields (TyBool "bool") (VString []))
    as (H4 & _).
  split; [|split; [|split]].
  - apply (H1 (-1)); try reflexivity.
  - apply (H2 (KUint W8) (Values_of_bytes [x01; x02])); try reflexivity.
    + vm_compute. discriminate.
    + vm_compute. discriminate.
  - apply (H3 (TyUint 8 "uint8") 2 "uint8[2]"%string (KUint W8)
              [VUint W8 1]);
      try reflexivity.
    + vm_compute. discriminate.
    + vm_compute. discriminate.
  - apply H4; vm_compute; discriminate.
Defined.

(** ** How the encodings compose *)

Section Composition.
Variable m : list string -> Value -> option (string -> string).

Lemma pack_elements_prefix (pk : Value -> Result (list byte)) (req : bool)
      (pre : list byte) (vs : list Value) :
  forall offset ret tail,
    pack_elements pk req vs offset (pre ++ ret) tail
    = (out <- pack_elements pk req vs offset ret tail ;; Ok (pre ++ out)).
Proof.
  induction vs as [|x vs IH]; intros offset ret tail; simpl.
  - rewrite app_assoc. reflexivity.
  - destruct (pk x) as [val| |]; cbn [bind]; try reflexivity.
    destruct (negb req); rewrite <- app_assoc; apply IH.
Qed.

(** X26.  The encoding of a slice is its length followed by the encoding of
    the array of its elements: on a slice or an array v of l elements
    [Type.pack] for the slice type returns the word of l followed by what
    it returns for the array type of size l on v, and fails as that one
    fails.  The same holds on any other value that has a length l (a string)
    when reflect can build the array type of size l, which the type check
    asks for in the error it returns for such a value. *)
Theorem pack_slice_as_array (elem : Type_) (k k' : string) (v : Value)
        (l : Z) :
  Len v = Ok l ->
  Kind_of v = KSlice \/ Kind_of v = KArray
  \/ GetType (TyArray elem l k') <> Panic ->
  pack m (TySlice elem k) v
  = (enc <- pack m (TyArray elem l k') v ;; Ok (packNum_int l ++ enc)).
Proof.
  intros Hl Hv. rewrite !pack_unfold. unfold typeCheck.
  cbn [T Kind_eqb orb sliceTypeCheck Size]. rewrite Hl. cbn [bind].
  rewrite Z.eqb_refl. cbn [andb negb].
  destruct (negb (GoKind_eqb (Kind_of v) KSlice)
            && negb (GoKind_eqb (Kind_of v) KArray)) eqn:Ek.
  - destruct Hv as [Hv|[Hv|Hv]];
      [rewrite Hv in Ek; discriminate Ek
      |rewrite Hv in Ek; discriminate Ek|].
    destruct (GetType (TyArray elem l k')) as [a|e|] eqn:Ea;
      [|exfalso; exact (GetType_no_error _ e Ea) | contradiction].
    rewrite GetType_array in Ea. rewrite GetType_slice.
    destruct (GetType elem) as [e| |]; cbn [bind] in Ea |- *;
      try discriminate Ea.
    reflexivity.
  - match goal with
    | |- bind ?c _ = _ => destruct c as [[]| |]; cbn [bind]; try reflexivity
    end.
    destruct (Elements v) as [vs| |]; cbn [bind]; try reflexivity.
    change (requiresLengthPrefix (TySlice elem k)) with true.
    change (requiresLengthPrefix (TyArray elem l k')) with false. cbv iota.
    rewrite <- (app_nil_r (packNum_int l)) at 1.
    apply pack_elements_prefix.
Qed.

Lemma pack_fields_Pack_loop (names : list string) (fm : string -> string)
      (v : Value) (abiArgs : Arguments) (all_args : list Value) :
  (forall j vj, nth_error all_args j = Some vj ->
                exists name, nth_error names j = Some name
                             /\ FieldByName v (fm name) = Ok (Some vj)) ->
  List.length all_args = List.length abiArgs ->
  forall i offset ret tail,
    pack_fields (pack m) names fm v (map Type_of (skipn i abiArgs)) i
                offset ret tail
    = Pack_loop m abiArgs (skipn i all_args) i offset ret tail.
Proof.
  intros Hfound Hlen i.
  remember (List.length abiArgs - i)%nat as n eqn:Hn.
  revert i Hn. induction n as [|n IH]; intros i Hn offset ret tail.
  - rewrite !skipn_all2 by lia. reflexivity.
  - destruct (nth_error abiArgs i) as [input|] eqn:Ei;
      [|apply nth_error_None in Ei; lia].
    destruct (nth_error all_args i) as [a|] eqn:Ea;
      [|apply nth_error_None in Ea; lia].
    rewrite (skipn_nth_error _ _ _ Ei), (skipn_nth_error _ _ _ Ea).
    cbn [map pack_fields Pack_loop]. rewrite Ei.
    destruct (Hfound i a Ea) as (name & En & Ef). rewrite En, Ef.
    cbn [bind].
    destruct (pack m (Type_of input) a) as [val| |]; cbn [bind];
      try reflexivity.
    destruct (isDynamicType (Type_of input)); apply IH; lia.
Qed.

(** X27.  [Arguments.Pack] encodes the values as the fields of a tuple:
    its output is the one of [Type.pack] for the tuple type whose elements
    are the types of the arguments, on a struct that holds the values as its
    fields, and it fails as that one fails. *)
Theorem Pack_as_tuple (arguments : Arguments) (args : list Value)
        (v : Value) (rn : string) (names fields : list string) (k : string) :
  Kind_of v = KStruct ->
  List.length args = List.length arguments ->
  fields_found m names v args ->
  pack m (TyTuple rn (map Type_of arguments) names fields k) v
  = Pack m arguments args.
Proof.
  intros Hk Hl (fm & Hm & Hfound). rewrite pack_unfold. unfold typeCheck.
  cbn [T Kind_eqb orb]. rewrite GetType_tuple. cbn [bind].
  rewrite Kind_GoType_of. cbn [GetType_Kind].
  rewrite Hk. cbn [GoKind_eqb negb bind].
  rewrite Hm. unfold Pack.
  replace (len args =? len arguments) with true
    by (symmetry; apply Z.eqb_eq; unfold len; lia).
  cbn [negb].
  exact (pack_fields_Pack_loop names fm v arguments args Hfound Hl 0 _ _ _).
Qed.

End Composition.

Lemma Pack_as_tuple_witness :
  pack capitalised_fields
       (TyTuple "" [TyBool "bool"; TyBytes "bytes"]
                ["ok"; "data"]%string ["Ok"; "Data"]%string "(bool,bytes)")
       (VStruct [("Ok", VBool true);
                 ("Data", VSlice (KUint W8) (Values_of_bytes [x01]))]%string)
  = Pack capitalised_fields
         [mkArgument "ok" (TyBool "bool") false;
          mkArgument "data" (TyBytes "bytes") false]
         [VBool true; VSlice (KUint W8) (Values_of_bytes [x01])].
Proof.
  apply (Pack_as_tuple capitalised_fields
           [mkArgument "ok" (TyBool "bool") false;
            mkArgument "data" (TyBytes "bytes") false]
           [VBool true; VSlice (KUint W8) (Values_of_bytes [x01])]).
  - reflexivity.
  - reflexivity.
  - eexists. split; [reflexivity|].
    intros [|[|i]] vi Hi; simpl in Hi; try (destruct i; discriminate Hi);
      injection Hi as <-; eexists; split; reflexivity.
Defined.

Lemma pack_slice_as_array_witness :
  pack same_name_fields (TySlice (TyBool "bool") "bool[]")
       (VSlice KBool [VBool true])
  = Ok (packNum_int 1 ++ U256Bytes 1)
  /\ pack same_name_fields (TySlice (TyBool "bool") "bool[]") (VString [x01])
     = Err errTypeErr.
Proof.
  split.
  - rewrite (pack_slice_as_array same_name_fields (TyBool "bool") "bool[]"
               "bool[1]" (VSlice KBool [VBool true]) 1 eq_refl
               (or_introl eq_refl)).
    reflexivity.
  - rewrite (pack_slice_as_array same_name_fields (TyBool "bool") "bool[]"
               "bool[1]" (VString [x01]) 1 eq_refl);
      [reflexivity | right; right; vm_compute; discriminate].
Defined.

Lemma forTuple_loop_UnpackValues_loop (fields : list string)
      (data : list byte) :
  len fields < 2 ^ 63 ->
  forall arguments,
    Forall (fun a => Indexed a = false) arguments ->
    forall index virtualArgs,
      (index + List.length arguments = List.length fields)%nat ->
      forTuple_loop toGoType fields data (map Type_of arguments) index
                    virtualArgs
      = (vs <- UnpackValues_loop data arguments (Z.of_nat index) virtualArgs ;;
         Ok (combine (skipn index fields) vs)).
Proof.
  intros Hlf. induction arguments as [|arg rest IH];
    intros Hni index va Hlen;
    [simpl; rewrite combine_nil; reflexivity|].
  inversion Hni as [|x l Hi Hr]; subst.
  cbn [map forTuple_loop UnpackValues_loop]. rewrite Hi.
  destruct (toGoType _ _ data) as [x| |]; cbn [bind]; try reflexivity.
  simpl in Hlen.
  destruct (nth_error fields index) as [name|] eqn:En;
    [|apply nth_error_None in En; lia].
  assert (Hidx : int_add (Z.of_nat index) 1 = Z.of_nat (S index)).
  { unfold int_add, len in *. rewrite wrap_small by (unfold in_int; lia).
    lia. }
  rewrite Hidx, IH by (try assumption; lia).
  destruct (UnpackValues_loop data rest _ _) as [vs| |]; cbn [bind];
    try reflexivity.
  rewrite (skipn_nth_error _ _ _ En). reflexivity.
Qed.

(** X28.  [UnpackValues] decodes the arguments as [forTupleUnpack] decodes
    the fields of a tuple: for arguments that are not indexed, the tuple
    type whose elements are the types of the arguments is decoded to the
    struct that holds, field by field, the values [UnpackValues] returns,
    and the one fails as the other fails. *)
Theorem UnpackValues_as_tuple (arguments : Arguments) (data : list byte)
        (rn : string) (names fields : list string) (k : string) :
  Forall (fun a => Indexed a = false) arguments ->
  List.length fields = List.length arguments ->
  len fields < 2 ^ 63 ->
  forTupleUnpack (TyTuple rn (map Type_of arguments) names fields k) data
  = (vs <- UnpackValues arguments data ;; Ok (VStruct (combine fields vs))).
Proof.
  intros Hni Hl Hlf. unfold forTupleUnpack, forTupleUnpack_with, UnpackValues.
  rewrite (forTuple_loop_UnpackValues_loop fields data Hlf arguments Hni 0 0)
    by (simpl; lia).
  change (Z.of_nat 0) with 0.
  destruct (UnpackValues_loop data arguments 0 0); reflexivity.
Qed.

Lemma UnpackValues_as_tuple_witness :
  forTupleUnpack
    (TyTuple "" [TyBool "bool"; TyUint 8 "uint8"] ["a"; "b"]%string
             ["A"; "B"]%string "(bool,uint8)")
    (U256Bytes 1 ++ U256Bytes 7)
  = Ok (VStruct [("A", VBool true); ("B", VUint W8 7)]%string).
Proof.
  exact (UnpackValues_as_tuple
           [mkArgument "a" (TyBool "bool") false;
            mkArgument "b" (TyUint 8 "uint8") false]
           (U256Bytes 1 ++ U256Bytes 7) "" ["a"; "b"]%string
           ["A"; "B"]%string "(bool,uint8)"
           ltac:(repeat constructor) eq_refl eq_refl).
Defined.

Local Open Scope string_scope.

(** * Names (utils.go, argument.go) *)


Lemma to_uint_not_Nil (n : nat) : Nat.to_uint n <> Decimal.Nil.
Proof.
  rewrite DecimalNat.Unsigned.to_uint_alt. intros H.
  apply DecimalFacts.rev_nil_inv in H. destruct n as [|n].
  - discriminate H.
  - rewrite DecimalNat.Unsigned.to_lu_succ in H.
    destruct (DecimalNat.Unsigned.to_lu n); discriminate H.
Qed.

Lemma Sprintf_d_inj (i j : nat) : Sprintf_d i = Sprintf_d j -> i = j.
Proof.
  unfold Sprintf_d. intros H.
  apply (f_equal NilZero.uint_of_string) in H.
  rewrite !NilZero.usu in H by apply to_uint_not_Nil.
  injection H as H. apply DecimalNat.Unsigned.to_uint_inj. exact H.
Qed.

Lemma string_app_inv_head (s a b : string) : s ++ a = s ++ b -> a = b.
Proof.
  induction s as [|c s IH]; simpl; intros H; [exact H|].
  injection H as H. exact (IH H).
Qed.

Lemma indexed_name_inj (rawName : string) (i j : nat) :
  rawName ++ Sprintf_d i = rawName ++ Sprintf_d j -> i = j.
Proof.
  intros H. apply Sprintf_d_inj. exact (string_app_inv_head _ _ _ H).
Qed.

Lemma ResolveNameConflict_loop_first rawName used :
  forall rounds idx k,
    (forall j, (idx <= j < idx + k)%nat ->
               used (rawName ++ Sprintf_d j) = true) ->
    used (rawName ++ Sprintf_d (idx + k)) = false ->
    (k <= rounds)%nat ->
    ResolveNameConflict_loop rawName used rounds idx
    = rawName ++ Sprintf_d (idx + k).
Proof.
  induction rounds as [|rounds IH]; intros idx k Hused Hfree Hk.
  - assert (k = 0)%nat by lia. subst k. rewrite Nat.add_0_r. reflexivity.
  - cbn [ResolveNameConflict_loop]. destruct k as [|k].
    + rewrite Nat.add_0_r in *. rewrite Hfree. reflexivity.
    + rewrite Hused by lia.
      replace (idx + S k)%nat with (S idx + k)%nat in * by lia.
      apply IH; [|exact Hfree | lia].
      intros j Hj. apply Hused. lia.
Qed.

(** X15.  [ResolveNameConflict] returns the raw name when it is not in use;
    when it is, it returns the raw name followed by the first of the numbers
    0, 1, 2, ... that gives a name not in use.  The number of rounds the
    loop is allowed only has to reach that number. *)
Theorem ResolveNameConflict_first_unused
        (rawName : string) (used : string -> bool) (rounds : nat) :
  (used rawName = false -> ResolveNameConflict rawName used rounds = rawName)
  /\ (forall idx,
         used rawName = true ->
         (forall j, (j < idx)%nat -> used (rawName ++ Sprintf_d j) = true) ->
         used (rawName ++ Sprintf_d idx) = false ->
         (idx <= rounds)%nat ->
         ResolveNameConflict rawName used rounds = rawName ++ Sprintf_d idx).
Proof.
  unfold ResolveNameConflict. split.
  - intros ->. reflexivity.
  - intros idx -> Hused Hfree Hr.
    apply (ResolveNameConflict_loop_first rawName used rounds 0 idx);
      [|exact Hfree | exact Hr].
    intros j Hj. apply Hused. lia.
Qed.

Lemma ResolveNameConflict_first_unused_witness :
  ResolveNameConflict "Value"
    (fun s => existsb (String.eqb s) ["Value"; "Value0"]) 2
  = "Value1".
Proof.
  apply (proj2 (ResolveNameConflict_first_unused "Value"
                  (fun s => existsb (String.eqb s) ["Value"; "Value0"]) 2)
               1%nat).
  - reflexivity.
  - intros [|j] Hj; [reflexivity | lia].
  - reflexivity.
  - lia.
Defined.

Lemma NoDup_map_injective {A B} (f : A -> B) (l : list A) :
  (forall x y, f x = f y -> x = y) -> NoDup l -> NoDup (map f l).
Proof.
  intros Hf Hl. induction Hl as [|x l Hx Hl IH]; simpl; constructor.
  - intros Hin. apply in_map_iff in Hin. destruct Hin as (y & Hy & Hin).
    apply Hf in Hy. subst y. contradiction.
  - exact IH.
Qed.

(* the first unused index exists below the number of used names *)
Lemma first_unused_index (rawName : string) (used : list string) :
  exists idx,
    (idx <= List.length used)%nat
    /\ existsb (String.eqb (rawName ++ Sprintf_d idx)) used = false
    /\ forall j, (j < idx)%nat ->
                 existsb (String.eqb (rawName ++ Sprintf_d j)) used = true.
Proof.
  set (P := fun j => existsb (String.eqb (rawName ++ Sprintf_d j)) used).
  assert (Hsearch : forall n,
             (forall j, (j < n)%nat -> P j = true)
             \/ exists idx, (idx < n)%nat /\ P idx = false
                            /\ forall j, (j < idx)%nat -> P j = true).
  { induction n as [|n [IH|IH]].
    - left. intros j Hj. lia.
    - destruct (P n) eqn:En.
      + left. intros j Hj. destruct (Nat.eq_dec j n); [subst; exact En|].
        apply IH. lia.
      + right. exists n. auto.
    - right. destruct IH as (idx & Hi & Hp & Hm). exists idx.
      split; [lia | auto]. }
  destruct (Hsearch (S (List.length used))) as [Hall|(idx & Hi & Hp & Hm)].
  - exfalso.
    set (names := map (fun j => rawName ++ Sprintf_d j)
                      (seq 0 (S (List.length used)))).
    assert (Hnd : NoDup names).
    { apply NoDup_map_injective; [|apply seq_NoDup].
      intros i j. apply indexed_name_inj. }
    assert (Hincl : incl names used).
    { intros x Hx. apply in_map_iff in Hx. destruct Hx as (j & <- & Hj).
      apply in_seq in Hj. specialize (Hall j ltac:(lia)). unfold P in Hall.
      apply existsb_exists in Hall. destruct Hall as (y & Hy & E).
      apply String.eqb_eq in E. subst y. exact Hy. }
    pose proof (NoDup_incl_length Hnd Hincl) as Hlen.
    unfold names in Hlen. rewrite length_map, length_seq in Hlen. lia.
  - exists idx. split; [lia | auto].
Qed.

Lemma ResolveNameConflict_fresh (rawName : string) (used : list string) :
  ~ In (ResolveNameConflict rawName
          (fun s => existsb (String.eqb s) used) (List.length used)) used.
Proof.
  set (u := fun s => existsb (String.eqb s) used).
  assert (Hu : forall s, u s = false -> ~ In s used).
  { intros s Hs Hin. unfold u in Hs.
    assert (existsb (String.eqb s) used = true); [|congruence].
    apply existsb_exists. exists s. split; [exact Hin|].
    apply String.eqb_refl. }
  destruct (u rawName) eqn:E.
  - destruct (first_unused_index rawName used) as (idx & Hi & Hp & Hm).
    unfold ResolveNameConflict. fold u. rewrite E.
    rewrite (ResolveNameConflict_loop_first rawName u (List.length used)
               0 idx).
    + apply Hu. exact Hp.
    + intros j Hj. apply Hm. lia.
    + exact Hp.
    + exact Hi.
  - unfold ResolveNameConflict. fold u. rewrite E. apply Hu. exact E.
Qed.

(** ** Camel case *)

(* the string is made of underscores only *)
Fixpoint only_underscores (s : string) : bool :=
  match s with
  | EmptyString => true
  | String a r => Ascii.eqb a "_" && only_underscores r
  end.

Lemma string_app_empty (a b : string) : a ++ b = "" <-> a = "" /\ b = "".
Proof.
  split.
  - destruct a; simpl; [auto | discriminate].
  - intros [-> ->]. reflexivity.
Qed.

Lemma concat_empty (l : list string) :
  String.concat "" l = "" <-> Forall (fun p => p = "") l.
Proof.
  induction l as [|x l IH]; [split; [constructor | reflexivity]|].
  destruct l as [|y l].
  - simpl. split; [intros ->; repeat constructor|].
    intros H. inversion H. assumption.
  - change (String.concat "" (x :: y :: l))
      with (x ++ "" ++ String.concat "" (y :: l)).
    cbn [append]. rewrite string_app_empty, IH. split.
    + intros [-> H]. constructor; [reflexivity | exact H].
    + intros H. inversion H; subst. auto.
Qed.

Lemma Split_all_empty (s : string) :
  Forall (fun p => p = "") (Split s "_") <-> only_underscores s = true.
Proof.
  induction s as [|a r IH]; simpl.
  - split; [reflexivity | repeat constructor].
  - destruct (Ascii.eqb a "_"); simpl.
    + rewrite <- IH. split.
      * intros H. inversion H. assumption.
      * intros H. constructor; [reflexivity | exact H].
    + split; [|discriminate].
      intros H. destruct (Split r "_"); inversion H; discriminate.
Qed.

(** X16.  [ToCamelCase] returns the empty string exactly on the inputs made
    of underscores only, the empty input among them: these are the names
    that NewType rejects as purely anonymous or underscored.  Go's
    [strings.ToUpper] maps a string of one character to a string that is
    not empty. *)
Theorem ToCamelCase_empty (strings_ToUpper : string -> string)
        (input : string) :
  (forall s, String.length s = 1%nat -> strings_ToUpper s <> "") ->
  ToCamelCase strings_ToUpper input = "" <-> only_underscores input = true.
Proof.
  intros Hup. unfold ToCamelCase.
  rewrite concat_empty, <- Split_all_empty, Forall_map.
  assert (Hf : forall p,
             (if (0 <? String.length p)%nat
              then strings_ToUpper (str_to p 1) ++ str_from p 1
              else p) = "" <-> p = "").
  { intros p. destruct p as [|a r]; [split; reflexivity|].
    cbn [String.length Nat.ltb Nat.leb]. split; [|discriminate].
    intros H. apply string_app_empty in H. destruct H as [H _].
    exfalso. apply (Hup (str_to (String a r) 1)); [|exact H].
    unfold str_to. simpl. destruct r; reflexivity. }
  rewrite !Forall_forall. split; intros H x Hx; apply Hf, H, Hx.
Qed.

Lemma ToCamelCase_empty_witness :
  ToCamelCase ToUpper_ascii "__" = "".
Proof.
  apply (ToCamelCase_empty ToUpper_ascii "__"); [|reflexivity].
  intros [|a [|b s]] H; try discriminate H. discriminate.
Defined.

(** * The type parser *)

(** ** Slices and arrays *)

Lemma Count_app (a b : string) (c : ascii) :
  Count (a ++ b) c = (Count a c + Count b c)%nat.
Proof.
  induction a as [|x a IH]; simpl; [reflexivity|].
  destruct (Ascii.eqb x c); simpl; rewrite IH; reflexivity.
Qed.

Lemma LastIndex_None (s : string) (c : ascii) :
  Count s c = 0%nat -> LastIndex s c = None.
Proof.
  induction s as [|x s IH]; simpl; [reflexivity|].
  destruct (Ascii.eqb x c); [discriminate|].
  intros H. rewrite (IH H). reflexivity.
Qed.

Lemma LastIndex_app (a r : string) (c : ascii) :
  Count r c = 0%nat ->
  LastIndex (a ++ String c r) c = Some (String.length a).
Proof.
  intros Hr. induction a as [|x a IH]; simpl.
  - rewrite (LastIndex_None r c Hr), Ascii.eqb_refl. reflexivity.
  - rewrite IH. reflexivity.
Qed.

Lemma str_to_app (a b : string) : str_to (a ++ b) (String.length a) = a.
Proof.
  unfold str_to. induction a as [|x a IH]; simpl.
  - destruct b; reflexivity.
  - rewrite IH. reflexivity.
Qed.

Lemma str_from_app (a b : string) : str_from (a ++ b) (String.length a) = b.
Proof.
  induction a as [|x a IH]; simpl.
  - apply str_from_0.
  - rewrite str_from_S. exact IH.
Qed.

(* the string is a run of decimal digits *)
Fixpoint all_digits (s : string) : bool :=
  match s with
  | EmptyString => true
  | String a r => is_digit a && all_digits r
  end.

Lemma Count_digits (ds : string) (c : ascii) :
  all_digits ds = true -> is_digit c = false -> Count ds c = 0%nat.
Proof.
  intros Hd Hc. induction ds as [|a r IH]; simpl; [reflexivity|].
  simpl in Hd. apply andb_true_iff in Hd. destruct Hd as [Ha Hr].
  destruct (Ascii.eqb_spec a c); [congruence|]. exact (IH Hr).
Qed.

Lemma sliceSizeRegex_digits (ds : string) :
  all_digits ds = true ->
  forall cur, cur ++ ds <> "" ->
              sliceSizeRegex_all (ds ++ "]") cur = [cur ++ ds].
Proof.
  induction ds as [|a r IH]; intros Hd cur Hne; simpl.
  - rewrite string_app_nil_r in *.
    destruct (String.eqb_spec cur ""); [contradiction | reflexivity].
  - simpl in Hd. apply andb_true_iff in Hd. destruct Hd as [Ha Hr].
    rewrite Ha, (IH Hr).
    + rewrite string_app_assoc. reflexivity.
    + rewrite string_app_assoc. simpl. destruct cur; discriminate.
Qed.

(* the internal type passed down to the element: the text before the last
   opening bracket *)
Definition subInternal (internalType : string) : string :=
  match LastIndex internalType "[" with
  | Some i => str_to internalType i
  | None => internalType
  end.

Section TypeParser_brackets.
Variable strings_ToUpper : string -> string.
Variable runes : string -> list Z.
Variable unicode_IsLetter : Z -> bool.
Variable unicode_IsDigit : Z -> bool.

Lemma NewType_body_unbalanced NewType_of components depth t internalType :
  (Count t "[" =? Count t "]")%nat = false ->
  NewType_body strings_ToUpper runes unicode_IsLetter unicode_IsDigit
               NewType_of components depth t internalType
  = Err errInvalidArgType.
Proof.
  intros E. destruct depth; cbn [NewType_body]; rewrite E; reflexivity.
Qed.

Lemma NewType_suffix (t cell internalType : string)
      (components : list ArgumentMarshaling) :
  Count cell "[" = 0%nat -> Count cell "]" = 1%nat ->
  NewType strings_ToUpper runes unicode_IsLetter unicode_IsDigit
    (t ++ String "[" cell) internalType components
  = (embeddedType <-
       NewType strings_ToUpper runes unicode_IsLetter unicode_IsDigit
               t (subInternal internalType) components ;;
     match sliceSizeRegex_all (String "[" cell) "" with
     | [] => Ok (TySlice embeddedType
                         (String_ embeddedType ++ String "[" cell))
     | [size] =>
         match Atoi size with
         | Ok n => Ok (TyArray embeddedType n
                               (String_ embeddedType ++ String "[" cell))
         | _ => Err errParseSize
         end
     | _ => Err errInvalidArrayFormat
     end).
Proof.
  intros Hc1 Hc2. unfold NewType. cbn [NewType_rec].
  rewrite !Count_app. cbn [Count]. rewrite Ascii.eqb_refl, Hc1.
  replace (Count t "[" + 1)%nat with (S (Count t "[")) by lia.
  cbn [NewType_body]. rewrite !Count_app. cbn [Count].
  rewrite Ascii.eqb_refl, Hc1, Hc2.
  change (Ascii.eqb "[" "]") with false. cbv iota.
  destruct (Count t "[" =? Count t "]")%nat eqn:E.
  - replace (Count t "[" + 1 =? Count t "]" + 1)%nat with true
      by (symmetry; apply Nat.eqb_eq; apply Nat.eqb_eq in E; lia).
    cbn [negb].
    replace (Count t "[" + 1 =? 0)%nat with false
      by (symmetry; apply Nat.eqb_neq; lia).
    cbn [negb]. rewrite (LastIndex_app t cell "[" Hc1).
    rewrite str_to_app, str_from_app. fold (subInternal internalType).
    reflexivity.
  - replace (Count t "[" + 1 =? Count t "]" + 1)%nat with false
      by (symmetry; apply Nat.eqb_neq; apply Nat.eqb_neq in E; lia).
    cbn [negb]. rewrite NewType_body_unbalanced by exact E. reflexivity.
Qed.

(** X17.  [NewType] builds slices and arrays from the inside out.  On a
    type string followed by [[]] it returns the slice of what it returns on
    the type string; followed by a number in brackets, the array of that
    size; the canonical string of the result is the one of the element
    followed by the brackets, and the element is parsed with the internal
    type cut at its last opening bracket.  When the element is rejected the
    whole is rejected with the same error, and a number that is not an int
    is a size error. *)
Theorem NewType_brackets (t internalType : string)
        (components : list ArgumentMarshaling) :
  NewType strings_ToUpper runes unicode_IsLetter unicode_IsDigit
    (t ++ "[]") internalType components
  = (embeddedType <-
       NewType strings_ToUpper runes unicode_IsLetter unicode_IsDigit
               t (subInternal internalType) components ;;
     Ok (TySlice embeddedType (String_ embeddedType ++ "[]")))
  /\ forall ds,
      all_digits ds = true -> ds <> "" ->
      NewType strings_ToUpper runes unicode_IsLetter unicode_IsDigit
    (t ++ "[" ++ ds ++ "]") internalType components
      = (embeddedType <-
           NewType strings_ToUpper runes unicode_IsLetter unicode_IsDigit
                   t (subInternal internalType) components ;;
         match Atoi ds with
         | Ok n => Ok (TyArray embeddedType n
                               (String_ embeddedType ++ "[" ++ ds ++ "]"))
         | _ => Err errParseSize
         end).
Proof.
  split.
  - rewrite (NewType_suffix t "]") by reflexivity. reflexivity.
  - intros ds Hd Hne.
    change (t ++ "[" ++ ds ++ "]") with (t ++ String "[" (ds ++ "]")).
    rewrite (NewType_suffix t (ds ++ "]")).
    + cbn [sliceSizeRegex_all]. change (is_digit "[") with false. cbv iota.
      rewrite (sliceSizeRegex_digits ds Hd "") by exact Hne.
      reflexivity.
    + rewrite Count_app, (Count_digits ds "[" Hd) by reflexivity.
      reflexivity.
    + rewrite Count_app, (Count_digits ds "]" Hd) by reflexivity.
      reflexivity.
Qed.

End TypeParser_brackets.

Lemma NewType_brackets_witness :
  NewType_ascii ("bool" ++ "[" ++ "3" ++ "]") "" []
  = Ok (TyArray (TyBool "bool") 3 "bool[3]").
Proof.
  unfold NewType_ascii.
  rewrite (proj2 (NewType_brackets ToUpper_ascii runes_ascii (fun _ => false)
                    (fun ch => (48 <=? ch) && (ch <=? 57))%Z "bool" "" [])
                 "3" eq_refl).
  - reflexivity.
  - discriminate.
Defined.

(** ** Tuples *)

(* the fields of an ArgumentMarshaling *)
Definition AM_Name (c : ArgumentMarshaling) : string :=
  match c with mkArgumentMarshaling n _ _ _ _ => n end.
Definition AM_Type (c : ArgumentMarshaling) : string :=
  match c with mkArgumentMarshaling _ t _ _ _ => t end.
Definition AM_InternalType (c : ArgumentMarshaling) : string :=
  match c with mkArgumentMarshaling _ _ i _ _ => i end.
Definition AM_Components (c : ArgumentMarshaling) : list ArgumentMarshaling :=
  match c with mkArgumentMarshaling _ _ _ cs _ => cs end.

Lemma NoDup_snoc {A} (l : list A) (x : A) :
  NoDup l -> ~ In x l -> NoDup (l ++ [x]).
Proof.
  intros Hl Hx. induction Hl as [|y l Hy Hl IH]; simpl.
  - constructor; [intros [] | constructor].
  - constructor.
    + rewrite in_app_iff. intros [H|[H|[]]]; [contradiction|].
      subst. apply Hx. left. reflexivity.
    + apply IH. intros H. apply Hx. right. exact H.
Qed.

Section TypeParser_tuples.
Variable strings_ToUpper : string -> string.
Variable runes : string -> list Z.
Variable unicode_IsLetter : Z -> bool.
Variable unicode_IsDigit : Z -> bool.

(* what NewType keeps of a tuple: the field names are pairwise different
   valid names, and there is one name, one element and one raw name for
   each component, the element being the type of the component *)
Definition tuple_of (NewType_of : ArgumentMarshaling -> Result Type_)
           (cs : list ArgumentMarshaling)
           (fields : list string) (elems : list Type_) (names : list string)
  : Prop :=
  NoDup fields
  /\ Forall (fun f => isValidFieldName runes unicode_IsLetter
                                        unicode_IsDigit f = true) fields
  /\ List.length fields = List.length cs
  /\ names = map AM_Name cs
  /\ Forall2 (fun c e => NewType_of c = Ok e) cs elems.

Lemma tuple_loop_fields NewType_of count cs :
  forall idx fields types elems names expression used done
         fields' types' elems' names' expression',
    tuple_loop strings_ToUpper runes unicode_IsLetter unicode_IsDigit
               NewType_of count cs idx fields types elems names expression
               used
    = Ok (fields', types', elems', names', expression') ->
    used = rev fields ->
    tuple_of NewType_of done fields elems names ->
    tuple_of NewType_of (done ++ cs) fields' elems' names'.
Proof.
  induction cs as [|c rest IH];
    intros idx fields types elems names expression used done
           fields' types' elems' names' expression' H Hu Hd; simpl in H.
  - injection H as <- _ <- <- _. rewrite List.app_nil_r. exact Hd.
  - destruct c as [cName cT cI cC cX].
    destruct (NewType_of _) as [cType| |] eqn:Ec; cbn [bind] in H;
      try discriminate H.
    destruct (String.eqb _ ""); [discriminate H|].
    destruct (negb (isValidFieldName _ _ _ _)) eqn:Ev; [discriminate H|].
    apply negb_false_iff in Ev.
    destruct (GetType cType) as [gt| |]; cbn [bind] in H;
      try discriminate H.
    apply (IH _ _ _ _ _ _ _
              (done ++ [mkArgumentMarshaling cName cT cI cC cX])%list) in H.
    + rewrite <- app_assoc in H. exact H.
    + rewrite List.rev_app_distr. simpl. rewrite Hu. reflexivity.
    + destruct Hd as (Hnd & Hv & Hl & Hn & Hf).
      repeat split.
      * apply NoDup_snoc; [exact Hnd|].
        rewrite List.in_rev, <- Hu. apply ResolveNameConflict_fresh.
      * apply Forall_app. split; [exact Hv|]. constructor; [exact Ev|].
        constructor.
      * rewrite !length_app, Hl. reflexivity.
      * rewrite Hn, map_app. reflexivity.
      * apply Forall2_app; [exact Hf|]. constructor; [exact Ec|].
        constructor.
Qed.

Lemma NewType_body_tuple NewType_of components depth :
  forall t internalType typ rn elems names fields k,
    NewType_body strings_ToUpper runes unicode_IsLetter unicode_IsDigit
                 NewType_of components depth t internalType = Ok typ ->
    base_type typ = TyTuple rn elems names fields k ->
    tuple_of NewType_of components fields elems names.
Proof.
  induction depth as [|depth IH];
    intros t it typ rn elems names fields k H Hb; simpl in H.
  all: destruct (negb (Count t "[" =? Count t "]")%nat); [discriminate H|].
  all: destruct (Count t "[" =? 0)%nat eqn:Ec; simpl in H;
    try discriminate H.
  3: { destruct (LastIndex t "[") as [i|] eqn:Ei; [|discriminate H].
       destruct (NewType_body _ _ _ _ _ _ depth _ _) as [emb| |] eqn:Ee;
         cbn [bind] in H; try discriminate H.
       destruct (sliceSizeRegex_all _ _) as [|size [|]]; try discriminate H.
       - apply Ok_inj in H. subst typ. exact (IH _ _ _ _ _ _ _ _ Ee Hb).
       - destruct (Atoi size); try discriminate H.
         apply Ok_inj in H. subst typ. exact (IH _ _ _ _ _ _ _ _ Ee Hb). }
  all: destruct (typeRegex_first t) as [[[[p0 p1] p2] p3]|]; [|discriminate H].
  all: match type of H with
       | bind ?r _ = _ => destruct r as [varSize| |]; cbn [bind] in H;
                          try discriminate H
       end.
  all: repeat match type of H with
         | (if ?c then _ else _) = _ => destruct c
         end;
    try discriminate H;
    try (apply Ok_inj in H; subst typ; discriminate Hb).
  all: destruct (tuple_loop _ _ _ _ _ _ _ _ _ _ _ _ _ _)
    as [[[[[f ty] e] n] x]| |] eqn:El;
    cbn [bind] in H; try discriminate H.
  all: destruct (reflect_StructOf _ _ _ _) as [st| |]; cbn [bind] in H;
    try discriminate H.
  all: apply Ok_inj in H; subst typ; simpl in Hb.
  all: injection Hb as _ <- <- <- _.
  all: apply (tuple_loop_fields _ _ _ _ _ _ _ _ _ _ []%list) in El;
    [exact El | reflexivity |].
  all: repeat split; constructor.
Qed.

(** X18.  When [NewType] accepts a tuple, alone or under slices and arrays,
    the tuple has one field for each component, in their order: its raw
    names are the names of the components, its elements are the types
    [NewType] returns on the components, and its Go field names are valid
    identifiers that are pairwise different, so that the struct type built
    from them has no duplicate field. *)
Theorem NewType_tuple_fields
        (t internalType : string) (components : list ArgumentMarshaling)
        (typ : Type_) (rn : string) (elems : list Type_)
        (names fields : list string) (k : string) :
  NewType strings_ToUpper runes unicode_IsLetter unicode_IsDigit
          t internalType components = Ok typ ->
  base_type typ = TyTuple rn elems names fields k ->
  NoDup fields
  /\ Forall (fun f => isValidFieldName runes unicode_IsLetter
                                        unicode_IsDigit f = true) fields
  /\ List.length fields = List.length components
  /\ names = map AM_Name components
  /\ Forall2 (fun c e =>
                NewType strings_ToUpper runes unicode_IsLetter unicode_IsDigit
                        (AM_Type c) (AM_InternalType c) (AM_Components c)
                = Ok e) components elems.
Proof.
  unfold NewType at 1. cbn [NewType_rec]. intros H Hb.
  destruct (NewType_body_tuple _ _ _ _ _ _ _ _ _ _ _ H Hb)
    as (Hnd & Hv & Hl & Hn & Hf).
  repeat split; try assumption.
  clear - Hf. induction Hf as [|c e cs es Hc _ IH]; constructor; [|exact IH].
  destruct c as [cName cT cI cC cX]. exact Hc.
Qed.

End TypeParser_tuples.

Lemma NewType_tuple_fields_witness :
  NoDup ["A"; "A0"]
  /\ ["a"; "A"] = map AM_Name
                      [mkArgumentMarshaling "a" "bool" "" [] false;
                       mkArgumentMarshaling "A" "uint8" "" [] false].
Proof.
  destruct (NewType_tuple_fields
              ToUpper_ascii runes_ascii (fun _ => false)
              (fun ch => (48 <=? ch) && (ch <=? 57))%Z
              "tuple[]" ""
              [mkArgumentMarshaling "a" "bool" "" [] false;
               mkArgumentMarshaling "A" "uint8" "" [] false]
              (TySlice (TyTuple "" [TyBool "bool"; TyUint 8 "uint8"]
                                ["a"; "A"] ["A"; "A0"] "(bool,uint8)")
                       "(bool,uint8)[]")
              "" [TyBool "bool"; TyUint 8 "uint8"] ["a"; "A"] ["A"; "A0"]
              "(bool,uint8)" eq_refl eq_refl) as (H1 & _ & _ & H2 & _).
  split; assumption.
Defined.

(** ** Sizes in type strings *)

Lemma digit_not_letter (a : ascii) : is_digit a = true -> is_letter a = false.
Proof.
  unfold is_digit, is_letter. intros H.
  apply andb_true_iff in H. destruct H as [H1 H2].
  apply Nat.leb_le in H1, H2.
  apply orb_false_iff. split; apply andb_false_iff; left;
    apply Nat.leb_gt; lia.
Qed.

Lemma span_letter_digits (ds : string) :
  all_digits ds = true -> span is_letter ds = ("", ds).
Proof.
  destruct ds as [|a r]; [reflexivity|]. simpl. intros H.
  apply andb_true_iff in H. destruct H as [Ha _].
  rewrite (digit_not_letter a Ha). reflexivity.
Qed.

Lemma span_digit_digits (ds : string) :
  all_digits ds = true -> span is_digit ds = (ds, "").
Proof.
  induction ds as [|a r IH]; [reflexivity|]. simpl. intros H.
  apply andb_true_iff in H. destruct H as [Ha Hr].
  rewrite Ha, (IH Hr). reflexivity.
Qed.

(* the match of typeRegex on letters followed by digits *)
Lemma typeRegex_first_sized (letters ds : string) (a : ascii) :
  is_letter a = true ->
  span is_letter (String a letters ++ ds) = (String a letters, ds) ->
  all_digits ds = true -> ds <> "" ->
  typeRegex_first (String a letters ++ ds)
  = Some (String a letters ++ ds, String a letters, ds, ds).
Proof.
  intros Ha Hs Hd Hne. unfold typeRegex_first.
  change (String a letters ++ ds) with (String a (letters ++ ds)) in *.
  cbn [from_first_letter]. rewrite Ha, Hs, (span_digit_digits ds Hd).
  destruct (String.eqb_spec ds ""); [contradiction|].
  rewrite !string_app_nil_r. reflexivity.
Qed.

Section TypeParser_sizes.
Variable strings_ToUpper : string -> string.
Variable runes : string -> list Z.
Variable unicode_IsLetter : Z -> bool.
Variable unicode_IsDigit : Z -> bool.

(** X29.  [NewType] does not check the size of an integer type: it accepts
    uintN and intN for every decimal number N that fits an int, with Size
    N, whether or not N is a multiple of 8 between 8 and 256, and rejects
    uint and int without a size.  For bytesN it accepts N from 1 to 32 as
    fixed bytes, takes bytes0 for the dynamic bytes type like bytes alone,
    and rejects every larger N. *)
Theorem NewType_sizes (ds internalType : string)
        (components : list ArgumentMarshaling) :
  all_digits ds = true -> ds <> "" ->
  NewType strings_ToUpper runes unicode_IsLetter unicode_IsDigit
          ("uint" ++ ds) internalType components
  = match Atoi ds with
    | Ok n => Ok (TyUint n ("uint" ++ ds))
    | _ => Err errParseSize
    end
  /\ NewType strings_ToUpper runes unicode_IsLetter unicode_IsDigit
             ("int" ++ ds) internalType components
     = match Atoi ds with
       | Ok n => Ok (TyInt n ("int" ++ ds))
       | _ => Err errParseSize
       end
  /\ NewType strings_ToUpper runes unicode_IsLetter unicode_IsDigit
             ("bytes" ++ ds) internalType components
     = match Atoi ds with
       | Ok n => if (n =? 0)%Z then Ok (TyBytes ("bytes" ++ ds))
                 else if (n >? 32)%Z then Err errUnsupportedArgType
                      else Ok (TyFixedBytes n ("bytes" ++ ds))
       | _ => Err errParseSize
       end
  /\ NewType strings_ToUpper runes unicode_IsLetter unicode_IsDigit
             "uint" internalType components = Err errUnsupportedArgType
  /\ NewType strings_ToUpper runes unicode_IsLetter unicode_IsDigit
             "int" internalType components = Err errUnsupportedArgType.
Proof.
  intros Hd Hne.
  assert (Hc : forall c, is_digit c = false -> Count ds c = 0%nat)
    by (intros c Hc; exact (Count_digits ds c Hd Hc)).
  assert (Hr : forall a letters,
             is_letter a = true ->
             span is_letter (String a letters ++ ds) = (String a letters, ds) ->
             typeRegex_first (String a letters ++ ds)
             = Some (String a letters ++ ds, String a letters, ds, ds))
    by (intros a letters Ha Hs;
        exact (typeRegex_first_sized _ _ _ Ha Hs Hd Hne)).
  assert (Hl : (0 <? String.length ds)%nat = true)
    by (destruct ds; [contradiction | reflexivity]).
  pose proof (span_letter_digits ds Hd) as Hsp.
  repeat split.
  - unfold NewType. cbn [NewType_rec]. rewrite Count_app, Hc by reflexivity.
    cbn [Count Ascii.eqb Bool.eqb Nat.add NewType_body].
    rewrite !Count_app, !Hc by reflexivity.
    cbn [Count Ascii.eqb Bool.eqb Nat.add Nat.eqb negb].
    rewrite (Hr "u"%char "int" eq_refl) by (simpl; rewrite Hsp; reflexivity).
    rewrite Hl. destruct (Atoi ds); reflexivity.
  - unfold NewType. cbn [NewType_rec]. rewrite Count_app, Hc by reflexivity.
    cbn [Count Ascii.eqb Bool.eqb Nat.add NewType_body].
    rewrite !Count_app, !Hc by reflexivity.
    cbn [Count Ascii.eqb Bool.eqb Nat.add Nat.eqb negb].
    rewrite (Hr "i"%char "nt" eq_refl) by (simpl; rewrite Hsp; reflexivity).
    rewrite Hl. destruct (Atoi ds); reflexivity.
  - unfold NewType. cbn [NewType_rec]. rewrite Count_app, Hc by reflexivity.
    cbn [Count Ascii.eqb Bool.eqb Nat.add NewType_body].
    rewrite !Count_app, !Hc by reflexivity.
    cbn [Count Ascii.eqb Bool.eqb Nat.add Nat.eqb negb].
    rewrite (Hr "b"%char "ytes" eq_refl) by (simpl; rewrite Hsp; reflexivity).
    rewrite Hl. destruct (Atoi ds); reflexivity.
Qed.

End TypeParser_sizes.

Lemma NewType_sizes_witness :
  NewType_ascii ("uint" ++ "7") "" [] = Ok (TyUint 7 "uint7").
Proof.
  unfold NewType_ascii.
  rewrite (proj1 (NewType_sizes ToUpper_ascii runes_ascii (fun _ => false)
                    (fun ch => (48 <=? ch) && (ch <=? 57))%Z "7" "" []
                    eq_refl ltac:(discriminate))).
  reflexivity.
Defined.

(** * The binding generator *)

Section Binding_properties.
Variable strings_ToUpper : string -> string.

Lemma structured_loop_spec (args : Arguments) :
  forall exists_,
    structured_loop strings_ToUpper args exists_ = true
    <-> Forall (fun a => Name a <> ""
                         /\ ToCamelCase strings_ToUpper (Name a) <> ""
                         /\ exists_ (ToCamelCase strings_ToUpper (Name a))
                            = false) args
        /\ NoDup (map (fun a => ToCamelCase strings_ToUpper (Name a)) args).
Proof.
  induction args as [|out rest IH]; intros ex; simpl.
  - split; [intros _; split; constructor | reflexivity].
  - destruct (String.eqb_spec (Name out) "") as [En|En].
    { split; [discriminate|]. intros [H _]. inversion H as [|x l [Hx _] _].
      contradiction. }
    destruct (String.eqb_spec (ToCamelCase strings_ToUpper (Name out)) "")
      as [Ec|Ec].
    { split; [discriminate|]. intros [H _].
      inversion H as [|x l [_ [Hx _]] _]. contradiction. }
    cbn [orb]. destruct (ex (ToCamelCase strings_ToUpper (Name out))) eqn:Ee.
    { split; [discriminate|]. intros [H _].
      inversion H as [|x l [_ [_ Hx]] _]. congruence. }
    rewrite IH. split.
    + intros [Hf Hnd]. split.
      * constructor; [auto|]. revert Hf. apply Forall_impl.
        intros a (H1 & H2 & H3). repeat split; try assumption.
        destruct (String.eqb _ _); [discriminate | exact H3].
      * constructor; [|exact Hnd].
        intros Hin. apply in_map_iff in Hin. destruct Hin as (a & Ha & Hin).
        rewrite Forall_forall in Hf. destruct (Hf a Hin) as (_ & _ & H3).
        rewrite Ha, String.eqb_refl in H3. discriminate H3.
    + intros [Hf Hnd]. inversion Hf as [|x l _ Hr]; subst.
      inversion Hnd as [|x l Hn Hnd']; subst. split; [|exact Hnd'].
      rewrite Forall_forall in *. intros a Ha.
      destruct (Hr a Ha) as (H1 & H2 & H3). repeat split; try assumption.
      destruct (String.eqb_spec (ToCamelCase strings_ToUpper (Name a))
                  (ToCamelCase strings_ToUpper (Name out))) as [E|E];
        [|exact H3].
      exfalso. apply Hn. rewrite <- E. apply in_map_iff. exists a. auto.
Qed.

(** X19.  [structured] is true exactly when there are at least two
    arguments, every one has a name, no name is empty once put in camel
    case, and the camel-case names are pairwise different: the conditions
    under which the arguments can become the fields of one Go struct. *)
Theorem structured_characterisation (args : Arguments) :
  structured strings_ToUpper args = true
  <-> 2 <= len args
      /\ Forall (fun a => Name a <> ""
                          /\ ToCamelCase strings_ToUpper (Name a) <> "") args
      /\ NoDup (map (fun a => ToCamelCase strings_ToUpper (Name a)) args).
Proof.
  unfold structured. destruct (Z.ltb_spec (len args) 2) as [Hl|Hl].
  - split; [discriminate | intros [H _]; lia].
  - rewrite structured_loop_spec. split.
    + intros [Hf Hnd]. repeat split; try assumption.
      revert Hf. apply Forall_impl. intros a (H1 & H2 & _). auto.
    + intros (_ & Hf & Hnd). split; [|exact Hnd].
      revert Hf. apply Forall_impl. intros a (H1 & H2). auto.
Qed.

End Binding_properties.

(** X20.  [hasStruct] is true exactly on the types whose type under the
    slices and arrays is a tuple: a tuple, or a slice or an array, at any
    depth, of tuples. *)
Theorem hasStruct_base_type (t : Type_) :
  hasStruct t = true <-> T (base_type t) = TupleTy.
Proof.
  induction t as [s k|s k|k|k|t k IHt|t s k IHt|rn elems names fields k IHe
                 |k|s k|k|k|k|k] using Type_tree_ind;
    simpl; try exact IHt; split; try reflexivity; discriminate.
Qed.

Local Close Scope string_scope.

(** * The callers of the codec *)

(** ** UnpackIntoMap *)

(* the value the last pair of the list with the key gives it *)
Definition last_binding (l : list (string * Value)) (key : string)
  : option Value :=
  option_map snd (find (fun p => String.eqb (fst p) key) (rev l)).

Lemma find_append {A} (f : A -> bool) (l1 l2 : list A) :
  find f (l1 ++ l2)
  = match find f l1 with
    | Some x => Some x
    | None => find f l2
    end.
Proof.
  induction l1 as [|x l1 IH]; simpl; [reflexivity|].
  destruct (f x); [reflexivity | exact IH].
Qed.

Lemma store_values_lookup (nonIndexed : Arguments) :
  forall marshalledValues i v,
    (i + List.length nonIndexed <= List.length marshalledValues)%nat ->
    exists v',
      store_values nonIndexed marshalledValues i v = Ok v'
      /\ forall key,
          v' key
          = match last_binding (combine (map Name nonIndexed)
                                        (skipn i marshalledValues)) key with
            | Some value => Some value
            | None => v key
            end.
Proof.
  induction nonIndexed as [|arg rest IH]; intros vs i v Hl.
  - exists v. split; [reflexivity|]. intros key. reflexivity.
  - simpl in Hl. cbn [store_values].
    destruct (nth_error vs i) as [value|] eqn:En;
      [|apply nth_error_None in En; lia].
    destruct (IH vs (S i) (map_set v (Name arg) value) ltac:(lia))
      as (v' & Hs & Hv).
    exists v'. split; [exact Hs|]. intros key. rewrite Hv.
    rewrite (skipn_nth_error _ _ _ En). cbn [map combine].
    unfold last_binding. cbn [rev]. rewrite find_append.
    destruct (find _ (rev _)) as [p|]; [reflexivity|].
    cbn [find fst snd option_map]. unfold map_set.
    destruct (String.eqb_spec key (Name arg)) as [->|Hne].
    + rewrite String.eqb_refl. reflexivity.
    + destruct (String.eqb_spec (Name arg) key); [congruence | reflexivity].
Qed.

(** X21.  [UnpackIntoMap] fails on a nil map.  On a map that is not nil it
    succeeds exactly when [Unpack] does, and fails with the error of
    [Unpack] when that one fails, leaving the map as it was.  When it
    succeeds, every argument that is not indexed has its name bound to its
    decoded value, the last one when several arguments have the same name,
    and every other key of the map is left as it was. *)
Theorem UnpackIntoMap_characterisation
        (arguments : Arguments) (v : GoMap) (data : list byte) :
  UnpackIntoMap arguments None data = Failed errNilMap
  /\ (forall e, Unpack arguments data = Err e ->
                UnpackIntoMap arguments (Some v) data = Failed (errCodec e))
  /\ (forall vs,
         Unpack arguments data = Ok vs ->
         exists v',
           UnpackIntoMap arguments (Some v) data = Done v'
           /\ forall key,
               v' key
               = match last_binding
                         (combine (map Name (NonIndexed arguments)) vs) key
                 with
                 | Some value => Some value
                 | None => v key
                 end).
Proof.
  split; [reflexivity|]. unfold Unpack, UnpackIntoMap. split.
  - intros e H. destruct (len data =? 0).
    + destruct (negb (len (NonIndexed arguments) =? 0)); [|discriminate H].
      injection H as <-. reflexivity.
    + rewrite H. reflexivity.
  - intros vs H. destruct (len data =? 0).
    + destruct (negb (len (NonIndexed arguments) =? 0)) eqn:E;
        [discriminate H|].
      apply Ok_inj in H. subst vs. exists v. split; [reflexivity|].
      intros key. unfold last_binding.
      destruct (map Name (NonIndexed arguments)); reflexivity.
    + rewrite H.
      pose proof (UnpackValues_loop_length _ _ _ _ _ H) as Hl.
      destruct (store_values_lookup (NonIndexed arguments) vs 0 v
                  ltac:(simpl; lia)) as (v' & Hs & Hv).
      exists v'. rewrite Hs. split; [reflexivity | exact Hv].
Qed.

Lemma UnpackIntoMap_characterisation_witness :
  exists v',
    UnpackIntoMap [mkArgument "n" (TyUint 8 "uint8") false]
                  (Some (fun _ => None)) (U256Bytes 7) = Done v'
    /\ v' "n"%string = Some (VUint W8 7).
Proof.
  destruct (proj2 (proj2 (UnpackIntoMap_characterisation
                            [mkArgument "n" (TyUint 8 "uint8") false]
                            (fun _ => None) (U256Bytes 7)))
                  [VUint W8 7] eq_refl) as (v' & H & Hv).
  exists v'. split; [exact H|]. rewrite Hv. reflexivity.
Defined.

(** ** Events and errors *)

(* the same types and the same flags, whatever the names *)
Definition same_codec (a b : Arguments) : Prop :=
  Forall2 (fun x y => Type_of y = Type_of x /\ Indexed y = Indexed x) a b.

Lemma inputs_loop_spec (inputs : Arguments) :
  forall i,
    let '(inputs', names, types) := inputs_loop inputs i in
    Forall (fun a => Name a <> ""%string) inputs'
    /\ Forall2 (fun a b => Type_of b = Type_of a /\ Indexed b = Indexed a
                           /\ (Name a <> ""%string -> b = a)) inputs inputs'
    /\ types = map (fun a => String_ (Type_of a)) inputs.
Proof.
  induction inputs as [|input rest IH]; intros i; cbn [inputs_loop].
  - repeat split; constructor.
  - specialize (IH (S i)).
    destruct (inputs_loop rest (S i)) as [[inputs' names] types].
    destruct IH as (H1 & H2 & H3). repeat split.
    + constructor; [|exact H1].
      destruct (String.eqb_spec (Name input) ""%string);
        [discriminate | assumption].
    + constructor; [|exact H2].
      destruct (String.eqb_spec (Name input) ""%string); repeat split; auto.
      intros; contradiction.
    + simpl. rewrite H3. reflexivity.
Qed.

(* the input at position i, under the name NewEvent and NewError give it *)
Definition named_input (i : nat) (input : Argument) : Argument :=
  if String.eqb (Name input) ""
  then mkArgument ("arg" ++ Sprintf_d i) (Type_of input) (Indexed input)
  else input.

Lemma inputs_loop_nth (inputs : Arguments) :
  forall i j,
    nth_error (fst (fst (inputs_loop inputs i))) j
    = option_map (named_input (i + j)) (nth_error inputs j).
Proof.
  induction inputs as [|input rest IH]; intros i j; cbn [inputs_loop].
  - destruct j; reflexivity.
  - specialize (IH (S i)).
    destruct (inputs_loop rest (S i)) as [[inputs' names] types].
    cbn [fst] in *. destruct j as [|j]; cbn [nth_error option_map].
    + rewrite Nat.add_0_r. reflexivity.
    + rewrite IH. rewrite Nat.add_succ_r. reflexivity.
Qed.

Lemma NonIndexed_same_codec (a b : Arguments) :
  same_codec a b -> same_codec (NonIndexed a) (NonIndexed b).
Proof.
  induction 1 as [|x y a b [Ht Hi] _ IH]; simpl; [constructor|].
  rewrite Hi. destruct (Indexed x) eqn:Ex; simpl; [exact IH|].
  constructor; [split; congruence | exact IH].
Qed.

Lemma UnpackValues_loop_same_codec (data : list byte) (a b : Arguments) :
  same_codec a b ->
  forall index virtualArgs,
    UnpackValues_loop data b index virtualArgs
    = UnpackValues_loop data a index virtualArgs.
Proof.
  induction 1 as [|x y a b [Ht Hi] _ IH]; intros index va; simpl;
    [reflexivity|].
  rewrite Hi, Ht. destruct (Indexed x); [apply IH|].
  destruct (toGoType _ _ _); cbn [bind]; try reflexivity.
  rewrite IH. reflexivity.
Qed.

Lemma Unpack_same_codec (data : list byte) (a b : Arguments) :
  same_codec a b -> Unpack b data = Unpack a data.
Proof.
  intros H. unfold Unpack, UnpackValues.
  rewrite (UnpackValues_loop_same_codec data a b H).
  pose proof (Forall2_length (NonIndexed_same_codec a b H)) as Hl.
  unfold len. rewrite Hl. reflexivity.
Qed.

Lemma Pack_loop_same_codec m (a b : Arguments) (args : list Value) :
  same_codec a b ->
  forall i inputOffset ret variableInput,
    Pack_loop m b args i inputOffset ret variableInput
    = Pack_loop m a args i inputOffset ret variableInput.
Proof.
  intros H. induction args as [|v rest IH]; intros i off ret vi; simpl;
    [reflexivity|].
  assert (Hn : match nth_error a i, nth_error b i with
               | Some x, Some y => Type_of y = Type_of x
               | None, None => True
               | _, _ => False
               end).
  { clear - H. revert i. induction H as [|x y a b [Ht _] _ IH]; intros [|i];
      simpl; auto. apply IH. }
  destruct (nth_error a i) as [x|], (nth_error b i) as [y|];
    try contradiction; [|reflexivity].
  rewrite Hn. destruct (pack m (Type_of x) v); cbn [bind]; try reflexivity.
  destruct (isDynamicType (Type_of x)); apply IH.
Qed.

Lemma Pack_same_codec m (a b : Arguments) (args : list Value) :
  same_codec a b -> Pack m b args = Pack m a args.
Proof.
  intros H. unfold Pack. pose proof (Forall2_length H) as Hl.
  assert (Ht : map Type_of b = map Type_of a).
  { clear - H. induction H as [|x y a b [Ht _] _ IH]; simpl; congruence. }
  unfold len. rewrite Hl, Ht. destruct (negb _); [reflexivity|].
  apply Pack_loop_same_codec. exact H.
Qed.

Section Signature_properties.
Variable Keccak256 : list byte -> list byte.

(** X22.  [NewEvent] and [NewError] give a name to every input: at every
    position, an input that has a name is kept as it is, and one without a
    name is called arg followed by its position in decimal, counted from 0,
    with the type and the indexed flag it has ([named_input]).  So no input
    of the event or error has an empty name, the types and the indexed flags
    are the ones given, and, the names playing no part in the codec, the
    inputs of the event or error pack and unpack as the given ones do. *)
Theorem NewEvent_Inputs (name rawName : string) (anonymous : bool)
        (inputs : Arguments) :
  let inputs' := Event_Inputs (NewEvent Keccak256 name rawName anonymous
                                        inputs) in
  Error_Inputs (NewError Keccak256 name inputs) = inputs'
  /\ (forall i, nth_error inputs' i
                = option_map (named_input i) (nth_error inputs i))
  /\ Forall (fun a => Name a <> ""%string) inputs'
  /\ Forall2 (fun a b => Type_of b = Type_of a /\ Indexed b = Indexed a
                         /\ (Name a <> ""%string -> b = a)) inputs inputs'
  /\ (forall data, Unpack inputs' data = Unpack inputs data)
  /\ (forall m args, Pack m inputs' args = Pack m inputs args).
Proof.
  unfold NewEvent, NewError. pose proof (inputs_loop_spec inputs 0) as H.
  pose proof (inputs_loop_nth inputs 0) as Hn.
  destruct (inputs_loop inputs 0) as [[inputs' names] types].
  cbn [Event_Inputs Error_Inputs fst] in *. destruct H as (H1 & H2 & _).
  assert (Hs : same_codec inputs inputs').
  { revert H2. apply Forall2_impl. intros a b (Ht & Hi & _). auto. }
  repeat split; try assumption.
  - intros data. apply Unpack_same_codec. exact Hs.
  - intros m args. apply Pack_same_codec. exact Hs.
Qed.

(** X23.  The signature of an event or an error is the raw name followed by
    the canonical strings of the types of the inputs, separated by commas
    and in parentheses, and the identifier is the hash of that text: the
    names of the inputs and their indexed flags play no part in them, and an
    error and an event of the same name and types have the same signature
    and the same identifier. *)
Theorem NewEvent_Sig (name rawName : string) (anonymous : bool)
        (inputs : Arguments) :
  let sig := (rawName ++ "("
              ++ String.concat "," (map (fun a => String_ (Type_of a)) inputs)
              ++ ")")%string in
  Event_Sig (NewEvent Keccak256 name rawName anonymous inputs) = sig
  /\ Event_ID (NewEvent Keccak256 name rawName anonymous inputs)
     = BytesToHash (Keccak256 (list_byte_of_string sig))
  /\ Error_Sig (NewError Keccak256 rawName inputs) = sig
  /\ Error_ID (NewError Keccak256 rawName inputs)
     = BytesToHash (Keccak256 (list_byte_of_string sig)).
Proof.
  unfold NewEvent, NewError. pose proof (inputs_loop_spec inputs 0) as H.
  destruct (inputs_loop inputs 0) as [[inputs' names] types].
  destruct H as (_ & _ & ->). repeat split.
Qed.

End Signature_properties.

Lemma bytes_Equal_eq (a b : list byte) : bytes_Equal a b = true <-> a = b.
Proof.
  unfold bytes_Equal. split.
  - intros H. apply andb_true_iff in H. destruct H as [Hl Hf].
    apply Z.eqb_eq in Hl. unfold len in Hl. apply Nat2Z.inj in Hl.
    revert b Hl Hf. induction a as [|x a IH]; intros [|y b] Hl Hf;
      try discriminate Hl; [reflexivity|].
    simpl in Hf. apply andb_true_iff in Hf. destruct Hf as [Hx Hf].
    apply Byte.byte_dec_bl in Hx. subst y. f_equal.
    apply IH; [simpl in Hl; lia | exact Hf].
  - intros ->. rewrite Z.eqb_refl. simpl.
    induction b as [|y b IH]; [reflexivity|]. simpl.
    rewrite (Byte.byte_dec_lb eq_refl). exact IH.
Qed.

(** X24.  [Error.Unpack] fails on fewer than 4 bytes; on data that starts
    with the first 4 bytes of the identifier of the error it returns what
    [Unpack] of the inputs returns on the bytes that follow them; on data
    that starts with 4 other bytes it fails and decodes nothing. *)
Theorem Error_Unpack_characterisation (e : Error) :
  4 <= len (Error_ID e) ->
  (forall data, len data < 4 ->
                Error_Unpack e data = Failed (errInsufficientData (len data)))
  /\ (forall payload,
         Error_Unpack e (firstn 4 (Error_ID e) ++ payload)
         = passed_on (Unpack (Error_Inputs e) payload))
  /\ (forall have payload,
         len have = 4 -> have <> firstn 4 (Error_ID e) ->
         Error_Unpack e (have ++ payload)
         = Failed (errInvalidIdentifier have (firstn 4 (Error_ID e)))).
Proof.
  intros Hid.
  assert (Hw : slice (Error_ID e) 0 4 = Ok (firstn 4 (Error_ID e))).
  { apply (slice_prefix (Error_ID e) 4). unfold len in Hid. lia. }
  assert (Hlw : len (firstn 4 (Error_ID e)) = 4).
  { apply slice_len in Hw. lia. }
  assert (Hd : forall have payload : list byte,
             len have = 4 ->
             (len (have ++ payload) <? 4) = false
             /\ slice (have ++ payload) 0 4 = Ok have
             /\ slice_from (have ++ payload) 4 = Ok payload).
  { intros have payload Hh. repeat split.
    - apply Z.ltb_ge. rewrite len_app. pose proof (len_nonneg payload). lia.
    - rewrite <- Hh. apply slice_prefix_app.
    - rewrite <- Hh. apply slice_from_app. }
  unfold Error_Unpack. repeat split.
  - intros data Hl. replace (len data <? 4) with true
      by (symmetry; apply Z.ltb_lt; exact Hl).
    reflexivity.
  - intros payload.
    destruct (Hd (firstn 4 (Error_ID e)) payload Hlw) as (-> & -> & ->).
    rewrite Hw. rewrite (proj2 (bytes_Equal_eq _ _) eq_refl). reflexivity.
  - intros have payload Hh Hne.
    destruct (Hd have payload Hh) as (-> & -> & _). rewrite Hw.
    destruct (bytes_Equal have (firstn 4 (Error_ID e))) eqn:E;
      [apply bytes_Equal_eq in E; contradiction | reflexivity].
Qed.

Lemma Error_Unpack_characterisation_witness :
  let e := NewError (fun _ => repeat x2a 32) "Failure"%string
                    [mkArgument ""%string (TyUint 8 "uint8") false] in
  Error_Unpack e (repeat x2a 4 ++ U256Bytes 7) = Done [VUint W8 7]
  /\ Error_Unpack e [x2a] = Failed (errInsufficientData 1).
Proof.
  intros e.
  assert (Hid : 4 <= len (Error_ID e)) by (vm_compute; discriminate).
  destruct (Error_Unpack_characterisation e Hid) as (H1 & H2 & _).
  split.
  - exact (H2 (U256Bytes 7)).
  - apply (H1 [x2a]). reflexivity.
Defined.

(** * Robustness of the decoder *)

(** The types whose head sizes stay far from the limits of an int, as
    [getTypeSize] computes them in Go's ints, which wrap: what [getTypeSize]
    returns lies between 0 and 2^32, on the type and on the elements of a
    slice, of an array and of a tuple, at every depth; fixed bytes have at
    most 32 bytes; a tuple has at most 2^20 elements, and its struct type
    has one field for each of them.  Nothing bounds the size of an array
    here. *)
Fixpoint bounded_head (t : Type_) : Prop :=
  0 <= getTypeSize t <= 2 ^ 32
  /\ match t with
     | TyFixedBytes s _ => 0 <= s <= 32
     | TySlice elem _ => bounded_head elem
     | TyArray elem _ _ => bounded_head elem
     | TyTuple _ elems _ fields _ =>
         List.length fields = List.length elems
         /\ len elems <= 2 ^ 20
         /\ (fix all (l : list Type_) : Prop :=
               match l with
               | [] => True
               | e :: r => bounded_head e /\ all r
               end) elems
     | _ => True
     end.

Lemma bounded_size (t : Type_) :
  bounded_head t -> 0 <= getTypeSize t <= 2 ^ 32.
Proof. destruct t; intros [H _]; exact H. Qed.

Lemma bounded_tuple rn elems names fields k :
  bounded_head (TyTuple rn elems names fields k) ->
  List.length fields = List.length elems /\ len elems <= 2 ^ 20
  /\ Forall bounded_head elems.
Proof.
  intros (_ & Hl & Hn & Ha). repeat split; try assumption.
  clear - Ha. induction elems as [|e r IH]; constructor.
  - apply Ha.
  - apply IH. apply Ha.
Qed.

(** The types that are small in every respect.  An array has at most 2^30
    elements and a tuple at most 2^20, fixed bytes have at most 32 bytes,
    and the head of a type takes at most 2^32 bytes, at every depth: with
    these sizes no product and no sum of [getTypeSize] wraps, so what it
    returns is the number of bytes of the head.  And reflect can build the
    Go type of the type and of every type inside it: [GetType] does not
    panic.  The struct type of a tuple has one field for each element. *)
Fixpoint bounded (t : Type_) : Prop :=
  0 <= getTypeSize t <= 2 ^ 32
  /\ GetType t <> Panic
  /\ match t with
     | TyFixedBytes s _ => 0 <= s <= 32
     | TySlice elem _ => bounded elem
     | TyArray elem size _ => 0 <= size <= 2 ^ 30 /\ bounded elem
     | TyTuple _ elems _ fields _ =>
         List.length fields = List.length elems
         /\ len elems <= 2 ^ 20
         /\ (fix all (l : list Type_) : Prop :=
               match l with
               | [] => True
               | e :: r => bounded e /\ all r
               end) elems
     | _ => True
     end.

Lemma bounded_bounded_head (t : Type_) : bounded t -> bounded_head t.
Proof.
  induction t as [s k|s k|k|k|t k IHt|t s k IHt|rn elems names fields k IHe
                 |k|s k|k|k|k|k] using Type_tree_ind;
    intros (Hs & _ & H); split; try exact Hs; try exact H.
  - apply IHt. exact H.
  - apply IHt. apply H.
  - destruct H as (Hl & Hn & Ha). split; [exact Hl|]. split; [exact Hn|].
    clear - IHe Ha. induction IHe as [|e r He _ IH]; [exact I|].
    split; [apply He; apply Ha | apply IH; apply Ha].
Qed.

Lemma bounded_GetType (t : Type_) : bounded t -> GetType t <> Panic.
Proof. destruct t; intros (_ & H & _); exact H. Qed.


(* on a small array the size of the head is the product itself *)
Lemma bounded_array_size (elem : Type_) (size : Z) (k : string) :
  bounded (TyArray elem size k) -> isDynamicType elem = false ->
  getTypeSize (TyArray elem size k)
  = size * (if Kind_eqb (T elem) ArrayTy || Kind_eqb (T elem) TupleTy
            then getTypeSize elem else 32).
Proof.
  intros (_ & _ & Hs & Hb) Hd. cbn [getTypeSize]. rewrite Hd. cbn [negb].
  pose proof (bounded_size elem (bounded_bounded_head elem Hb)) as He.
  destruct (_ || _); unfold int_mul; apply wrap_small; unfold in_int; nia.
Qed.

(* a position at which a word can be read without overflow *)
Definition position (index : Z) : Prop := 0 <= index < 2 ^ 63 - 32.

Lemma word_in_range (index : Z) (output : list byte) :
  position index -> (int_add index 32 >? len output) = false ->
  index + 32 <= len output
  /\ exists w, slice output index (int_add index 32) = Ok w /\ len w = 32.
Proof.
  unfold position, int_add. intros Hp H.
  rewrite wrap_small in * by (unfold in_int; lia).
  rewrite Z.gtb_ltb in H. apply Z.ltb_ge in H. split; [exact H|].
  destruct (slice_total output index (index + 32)) as [w Hw]; try lia.
  exists w. split; [exact Hw|]. apply slice_len in Hw. lia.
Qed.

Lemma toGoType_Ok_in_range (t : Type_) (index : Z) (output : list byte)
      (v : Value) :
  position index -> toGoType index t output = Ok v ->
  index + 32 <= len output.
Proof.
  intros Hp H.
  destruct (int_add index 32 >? len output) eqn:E.
  - destruct t; cbn [toGoType] in H; rewrite E in H; discriminate H.
  - apply (word_in_range index output Hp E).
Qed.









(* the step of the loops over the fields of a tuple and over the arguments
   of a list: the position of the next head *)
Definition next_virtualArgs (elem : Type_) (virtualArgs : Z) : Z :=
  if Kind_eqb (T elem) ArrayTy && negb (isDynamicType elem) then
    int_add virtualArgs (int_sub (int_div (getTypeSize elem) 32) 1)
  else if Kind_eqb (T elem) TupleTy && negb (isDynamicType elem) then
    int_add virtualArgs (int_sub (int_div (getTypeSize elem) 32) 1)
  else virtualArgs.

Lemma next_virtualArgs_range (elem : Type_) (index : nat) (virtualArgs : Z) :
  0 <= getTypeSize elem <= 2 ^ 32 ->
  Z.of_nat index <= 2 ^ 20 ->
  0 <= Z.of_nat index + virtualArgs <= Z.of_nat index * 2 ^ 27 ->
  0 <= Z.of_nat (S index) + next_virtualArgs elem virtualArgs
  <= Z.of_nat (S index) * 2 ^ 27.
Proof.
  intros Hsz Hn Hva.
  destruct (getTypeSize_div_32 elem) as (q & Hq & Hd).
  assert (Hstep : int_add virtualArgs
                          (int_sub (int_div (getTypeSize elem) 32) 1)
                  = virtualArgs + q - 1).
  { rewrite Hd. unfold int_add, int_sub.
    rewrite (wrap_small (q - 1)) by (unfold in_int; lia).
    rewrite wrap_small by (unfold in_int; lia). lia. }
  unfold next_virtualArgs. rewrite Hstep.
  rewrite Nat2Z.inj_succ.
  destruct (_ && _); [lia|]. destruct (_ && _); lia.
Qed.

Lemma head_position (index : nat) (virtualArgs : Z) :
  Z.of_nat index <= 2 ^ 20 ->
  0 <= Z.of_nat index + virtualArgs <= Z.of_nat index * 2 ^ 27 ->
  int_mul (int_add (Z.of_nat index) virtualArgs) 32
  = (Z.of_nat index + virtualArgs) * 32
  /\ position ((Z.of_nat index + virtualArgs) * 32).
Proof.
  intros Hn Hva. split.
  - unfold int_mul, int_add.
    rewrite (wrap_small (Z.of_nat index + virtualArgs))
      by (unfold in_int; lia).
    apply wrap_small. unfold in_int. lia.
  - unfold position. lia.
Qed.






(** ** Truncated input *)

(* the sum of getTypeSize over a list of types, in unbounded integers *)
Fixpoint total_TypeSize (ts : list Type_) : Z :=
  match ts with
  | [] => 0
  | t :: rest => getTypeSize t + total_TypeSize rest
  end.

Lemma total_TypeSize_nonneg (ts : list Type_) :
  Forall bounded_head ts -> 0 <= total_TypeSize ts.
Proof.
  induction 1 as [|t r Ht _ IH]; simpl; [lia|].
  pose proof (bounded_size t Ht). lia.
Qed.

Lemma sum_TypeSize_total (ts : list Type_) :
  Forall bounded_head ts ->
  forall z, 0 <= z -> z + total_TypeSize ts < 2 ^ 63 ->
            sum_TypeSize ts z = z + total_TypeSize ts.
Proof.
  induction 1 as [|t r Ht Hr IH]; intros z Hz Hs; simpl in *; [lia|].
  pose proof (bounded_size t Ht). pose proof (total_TypeSize_nonneg r Hr).
  unfold int_add. rewrite wrap_small by (unfold in_int; lia).
  rewrite IH by lia. lia.
Qed.

Lemma next_virtualArgs_position (elem : Type_) (index : nat)
      (virtualArgs : Z) :
  0 <= getTypeSize elem <= 2 ^ 32 ->
  Z.of_nat index <= 2 ^ 20 ->
  0 <= Z.of_nat index + virtualArgs <= Z.of_nat index * 2 ^ 27 ->
  (Z.of_nat (S index) + next_virtualArgs elem virtualArgs) * 32
  = (Z.of_nat index + virtualArgs) * 32 + getTypeSize elem.
Proof.
  intros Hsz Hn Hva.
  destruct (getTypeSize_div_32 elem) as (q & Hq & Hd).
  assert (Hstep : int_add virtualArgs
                          (int_sub (int_div (getTypeSize elem) 32) 1)
                  = virtualArgs + q - 1).
  { rewrite Hd. unfold int_add, int_sub.
    rewrite (wrap_small (q - 1)) by (unfold in_int; lia).
    rewrite wrap_small by (unfold in_int; lia). lia. }
  unfold next_virtualArgs. rewrite Hstep, Nat2Z.inj_succ.
  destruct (Kind_eqb (T elem) ArrayTy && negb (isDynamicType elem)) eqn:Ea;
    [lia|].
  destruct (Kind_eqb (T elem) TupleTy && negb (isDynamicType elem)) eqn:Et;
    [lia|].
  assert (H32 : getTypeSize elem = 32).
  { destruct (isDynamicType elem) eqn:Ed;
      [apply getTypeSize_dynamic; exact Ed|].
    rewrite andb_true_r in Ea, Et.
    apply getTypeSize_elementary; intros E; apply Kind_eqb_eq in E;
      congruence. }
  lia.
Qed.

(* decoding at a position succeeds only when the head of the type lies
   inside the output *)
Definition reads_head (t : Type_) (output : list byte) : Prop :=
  forall index v,
    position index -> toGoType index t output = Ok v ->
    index + getTypeSize t <= len output.

Lemma forEach_loop_S (dec : Z -> Result Value) (elemSize i : Z) (n : nat) :
  forEach_loop dec elemSize i (S n)
  = (inter <- dec i ;;
     rest <- forEach_loop dec elemSize (int_add i elemSize) n ;;
     Ok (inter :: rest)).
Proof. reflexivity. Qed.

Lemma forEach_loop_reads (dec : Z -> Result Value) (elemSize length : Z) :
  (forall i v, position i -> dec i = Ok v -> i + elemSize <= length) ->
  0 <= elemSize <= 2 ^ 32 -> length <= 2 ^ 62 ->
  forall n i vs,
    position i -> forEach_loop dec elemSize i (S n) = Ok vs ->
    i + Z.of_nat (S n) * elemSize <= length.
Proof.
  intros Hd He Hl. induction n as [|n IH]; intros i vs Hi H;
    rewrite forEach_loop_S in H;
    destruct (dec i) as [x| |] eqn:Ex; cbn [bind] in H; try discriminate H;
    pose proof (Hd i x Hi Ex) as Hx.
  - change (Z.of_nat 1) with 1. lia.
  - destruct (forEach_loop dec elemSize _ (S n)) as [rest| |] eqn:Er;
      try discriminate H.
    assert (Hi' : int_add i elemSize = i + elemSize).
    { unfold int_add. apply wrap_small. unfold position, in_int in *. lia. }
    rewrite Hi' in Er. apply IH in Er; [|unfold position in *; lia].
    rewrite (Nat2Z.inj_succ (S n)). lia.
Qed.

Lemma forTuple_loop_reads (fields : list string) (output : list byte) :
  forall elems,
    Forall (fun e => bounded_head e /\ reads_head e output) elems ->
    forall index virtualArgs fs,
      elems <> [] ->
      Z.of_nat index + len elems <= 2 ^ 20 ->
      0 <= Z.of_nat index + virtualArgs <= Z.of_nat index * 2 ^ 27 ->
      forTuple_loop toGoType fields output elems index virtualArgs = Ok fs ->
      (Z.of_nat index + virtualArgs) * 32 + total_TypeSize elems
      <= len output.
Proof.
  induction elems as [|elem rest IH];
    intros Hf index va fs Hne Hn Hva H; [contradiction|].
  inversion Hf as [|x l [Hb He] Hr]; subst.
  pose proof (bounded_size _ Hb) as Hsz.
  rewrite len_cons in Hn. pose proof (len_nonneg rest) as Hrest.
  destruct (head_position index va ltac:(lia) Hva) as [Hidx Hp].
  pose proof (next_virtualArgs_range elem index va Hsz ltac:(lia) Hva) as Hva'.
  pose proof (next_virtualArgs_position elem index va Hsz ltac:(lia) Hva)
    as Hpos.
  cbn [forTuple_loop] in H. fold (next_virtualArgs elem va) in H.
  rewrite Hidx in H.
  destruct (toGoType _ elem output) as [x| |] eqn:Ex; cbn [bind] in H;
    try discriminate H.
  pose proof (He _ _ Hp Ex) as Hx.
  destruct (nth_error fields index) as [name|]; [|discriminate H].
  destruct (forTuple_loop _ _ _ rest _ _) as [r| |] eqn:Er; cbn [bind] in H;
    try discriminate H.
  destruct rest as [|e2 rest]; [simpl; lia|].
  apply IH in Er; try assumption; try discriminate.
  - cbn [total_TypeSize] in *. lia.
  - rewrite Nat2Z.inj_succ. lia.
Qed.

Lemma toGoType_reads_head (t : Type_) :
  bounded_head t -> forall output, len output <= 2 ^ 62 -> reads_head t output.
Proof.
  induction t as [s k|s k|k|k|t k IHt|t s k IHt|rn elems names fields k IHe
                 |k|s k|k|k|k|k] using Type_tree_ind;
    intros Hb output Hl index v Hp H;
    pose proof (toGoType_Ok_in_range _ _ _ _ Hp H) as Hw;
    try exact Hw.
  - (* array *)
    pose proof Hp as Hp'. unfold position in Hp'.
    cbn [getTypeSize]. destruct (isDynamicType t) eqn:Ed; [exact Hw|].
    cbn [negb]. destruct Hb as [Hsize Hb].
    cbn [getTypeSize] in Hsize. rewrite Ed in Hsize. cbn [negb] in Hsize.
    pose proof (bounded_size _ Hb) as Hes.
    assert (Hsame : (if Kind_eqb (T t) ArrayTy || Kind_eqb (T t) TupleTy
                     then int_mul s (getTypeSize t) else int_mul s 32)
                    = int_mul s (getTypeSize t)).
    { destruct (Kind_eqb (T t) ArrayTy) eqn:Ea; [reflexivity|].
      destruct (Kind_eqb (T t) TupleTy) eqn:Et; [reflexivity|].
      cbn [orb]. f_equal. symmetry.
      apply getTypeSize_elementary; intros E; apply Kind_eqb_eq in E;
        congruence. }
    rewrite Hsame in *.
    cbn [toGoType] in H.
    destruct (int_add index 32 >? len output); [discriminate H|].
    destruct (slice output index (int_add index 32)) as [w| |];
      cbn [bind] in H; try discriminate H.
    rewrite Ed in H.
    destruct (slice_from output index) as [out| |] eqn:Eo; cbn [bind] in H;
      try discriminate H.
    apply slice_len in Eo.
    unfold forEachUnpack_with in H.
    destruct (Z.ltb_spec s 0) as [|Hs0]; [discriminate H|].
    destruct (_ >? len out); [discriminate H|].
    destruct (GetType _) as [typ| |]; cbn [bind] in H; try discriminate H.
    destruct (forEach_loop _ _ _ _) as [vs| |] eqn:El; cbn [bind] in H;
      try discriminate H.
    destruct (Z.to_nat s) as [|n] eqn:En.
    + assert (s = 0) by lia. subst s. unfold int_mul.
      rewrite Z.mul_0_l. change (wrap 0) with 0. lia.
    + apply (forEach_loop_reads _ _ (len out)) in El;
        try (unfold position in *; lia).
      * rewrite <- En, Z2Nat.id in El by lia.
        assert (0 <= s * getTypeSize t) by (apply Z.mul_nonneg_nonneg; lia).
        unfold int_mul.
        rewrite wrap_small by (unfold in_int; lia). lia.
      * intros i x Hi Hx. apply (IHt Hb out ltac:(lia) i x Hi Hx).
  - (* tuple *)
    pose proof Hp as Hp'. unfold position in Hp'.
    rewrite getTypeSize_tuple.
    destruct (isDynamicType (TyTuple rn elems names fields k)) eqn:Ed;
      [exact Hw|].
    apply bounded_tuple in Hb. destruct Hb as (Hf & Hn & Hb).
    cbn [toGoType] in H.
    destruct (int_add index 32 >? len output); [discriminate H|].
    destruct (slice output index (int_add index 32)) as [w| |];
      cbn [bind] in H; try discriminate H.
    rewrite Ed in H.
    destruct (slice_from output index) as [out| |] eqn:Eo; cbn [bind] in H;
      try discriminate H.
    apply slice_len in Eo.
    unfold forTupleUnpack_with in H.
    destruct (forTuple_loop _ _ _ _ _ _) as [fs| |] eqn:El; cbn [bind] in H;
      try discriminate H.
    destruct elems as [|e0 elems'] eqn:Ee; [simpl; unfold position in Hp; lia|].
    rewrite <- Ee in *.
    assert (Hne : elems <> []) by (rewrite Ee; discriminate).
    apply forTuple_loop_reads in El; try assumption; try (simpl; lia).
    + simpl in El. rewrite sum_TypeSize_total; try assumption;
        unfold position in Hp; lia.
    + rewrite Forall_forall in *. intros e He. split; [auto|].
      apply IHe; auto. lia.
Qed.

Lemma UnpackValues_loop_reads (data : list byte) :
  len data <= 2 ^ 62 ->
  forall arguments,
    Forall (fun a => bounded_head (Type_of a)) arguments ->
    forall index virtualArgs vs,
      NonIndexed arguments <> [] ->
      Z.of_nat index + len arguments <= 2 ^ 20 ->
      0 <= Z.of_nat index + virtualArgs <= Z.of_nat index * 2 ^ 27 ->
      UnpackValues_loop data arguments (Z.of_nat index) virtualArgs = Ok vs ->
      (Z.of_nat index + virtualArgs) * 32
      + total_TypeSize (map Type_of (NonIndexed arguments))
      <= len data.
Proof.
  intros Hl. induction arguments as [|arg rest IH];
    intros Hf index va vs Hne Hn Hva H; [contradiction|].
  inversion Hf as [|x l Hb Hr]; subst.
  rewrite len_cons in Hn. pose proof (len_nonneg rest) as Hrest.
  cbn [UnpackValues_loop] in H. cbn [NonIndexed] in *.
  destruct (Indexed arg); cbn [negb] in *.
  - apply (IH Hr index va vs); try assumption. lia.
  - fold (next_virtualArgs (Type_of arg) va) in H.
    pose proof (bounded_size _ Hb) as Hsz.
    destruct (head_position index va ltac:(lia) Hva) as [Hidx Hp].
    pose proof (next_virtualArgs_range (Type_of arg) index va Hsz
                  ltac:(lia) Hva) as Hva'.
    pose proof (next_virtualArgs_position (Type_of arg) index va Hsz
                  ltac:(lia) Hva) as Hpos.
    rewrite Hidx in H.
    destruct (toGoType _ _ data) as [x| |] eqn:Ex; cbn [bind] in H;
      try discriminate H.
    pose proof (toGoType_reads_head _ Hb data Hl _ _ Hp Ex) as Hx.
    assert (Hi : int_add (Z.of_nat index) 1 = Z.of_nat (S index)).
    { unfold int_add. rewrite wrap_small by (unfold in_int; lia). lia. }
    rewrite Hi in H.
    destruct (UnpackValues_loop data rest _ _) as [r| |] eqn:Er;
      cbn [bind] in H; try discriminate H.
    cbn [map total_TypeSize].
    destruct (NonIndexed rest) as [|a2 rest2] eqn:En; [simpl; lia|].
    apply IH in Er; try assumption; try discriminate.
    + lia.
    + rewrite Nat2Z.inj_succ. lia.
Qed.

(** X30.  A truncated input is rejected.  On types whose sizes are bounded
    ([bounded_head]), [toGoType] succeeds at a position only when the whole
    head of the type, its [getTypeSize] bytes, lies inside the output, and
    [Unpack] succeeds only on data at least as long as the heads of the
    arguments that are not indexed, that is the offset at which [Pack]
    starts the tail. *)
Theorem Unpack_needs_the_head (arguments : Arguments) (data : list byte)
        (vs : list Value) :
  Forall (fun a => bounded_head (Type_of a)) arguments ->
  len arguments <= 2 ^ 20 -> len data <= 2 ^ 62 ->
  (forall a index v, In a arguments -> position index ->
                     toGoType index (Type_of a) data = Ok v ->
                     index + getTypeSize (Type_of a) <= len data)
  /\ (Unpack arguments data = Ok vs ->
      sum_TypeSize (map Type_of (NonIndexed arguments)) 0 <= len data).
Proof.
  intros Hb Hn Hl. split.
  - intros a index v Ha Hp H. rewrite Forall_forall in Hb.
    exact (toGoType_reads_head _ (Hb a Ha) data Hl index v Hp H).
  - intros H.
    assert (Hbn : Forall bounded_head (map Type_of (NonIndexed arguments))).
    { clear - Hb. induction Hb as [|a r Ha _ IH]; simpl; [constructor|].
      destruct (Indexed a); simpl; [exact IH|].
      constructor; [exact Ha | exact IH]. }
    destruct (NonIndexed arguments) as [|a0 rest0] eqn:En.
    { simpl. apply len_nonneg. }
    unfold Unpack in H. rewrite En in H.
    destruct (len data =? 0); [discriminate H|].
    apply (UnpackValues_loop_reads data Hl arguments Hb 0 0) in H;
      try (simpl; lia); [|rewrite En; discriminate].
    rewrite En in H. change (Z.of_nat 0) with 0 in H.
    rewrite sum_TypeSize_total by (try assumption; lia). lia.
Qed.

Lemma Unpack_needs_the_head_witness :
  sum_TypeSize
    (map Type_of
       (NonIndexed
          [mkArgument "a" (TyArray (TyUint 8 "uint8") 2 "uint8[2]") false;
           mkArgument "b" (TyBool "bool") false])) 0
  <= len (U256Bytes 1 ++ U256Bytes 2 ++ U256Bytes 1).
Proof.
  refine (proj2 (Unpack_needs_the_head
                   [mkArgument "a" (TyArray (TyUint 8 "uint8") 2 "uint8[2]")
                               false;
                    mkArgument "b" (TyBool "bool") false]
                   (U256Bytes 1 ++ U256Bytes 2 ++ U256Bytes 1)
                   [VArray (KUint W8) [VUint W8 1; VUint W8 2]; VBool true]
                   _ _ _) _).
  - repeat constructor; try (vm_compute; discriminate).
  - vm_compute. discriminate.
  - vm_compute. discriminate.
  - vm_compute. reflexivity.
Defined.
